(** * AWS Health Events Analyzer: workflow coordination layer

    A shallow embedding of the coordination code of the analyzer
    (src/bedrock_analyzer.py, src/email_queue_manager.py,
    src/shared_utils.py, email_sender.py) and the properties of its rate
    limiter, its acknowledge protocol, its completion check and its
    response normalisation.

    The AWS services are modelled as components of a [World]: the two
    DynamoDB tables, the SQS notification queue, the clock, and a script of
    the outcomes of the coming service calls, so that every path of the
    Python [try]/[except] blocks can be exercised. *)

From Stdlib Require Import Ascii.
From Stdlib Require Import Sorted.
From stdpp Require Import gmap strings list fin_maps pretty.

Open Scope string_scope.
Open Scope Z_scope.
Open Scope list_scope.

(** ** Exceptions and results *)

Inductive exn : Type :=
| ClientError (code : string)          (* botocore.exceptions.ClientError *)
| KeyError (key : string)
| ValueError (msg : string)
| JSONDecodeError                      (* a subclass of ValueError *)
| TypeError
| IncompleteWorkflowException (msg : string)
| ServiceError (msg : string)          (* any other exception of a service call *)
| AttributeError.                      (* a method looked up on a value that has none *)

Inductive result (A : Type) : Type :=
| Ok (a : A)
| Raise (e : exn).
Arguments Ok {A} a.
Arguments Raise {A} e.

#[global] Instance exn_eq_dec : EqDecision exn.
Proof. solve_decision. Defined.

(** ** Environment variables *)

Record Env : Type := {
  WORKFLOW_RESULTS_TABLE : option string;
  BEDROCK_RATE_LIMITER_TABLE : option string;
  EMAIL_NOTIFICATION_QUEUE_URL : option string;
  TEST_MASTER_EMAIL_ONLY : option string;
  RECIPIENT_EMAILS : option string;
  TEST_SKIP_BEDROCK : option string;
  USE_CUSTOM_ACCOUNT_EMAIL_MAPPING : option string;
  USE_ORGANIZATION_ACCOUNT_EMAIL_MAPPING : option string;
  ACCOUNT_EMAIL_MAPPING_TABLE : option string;
  SENDER_EMAIL : option string
}.

(** Python truthiness of [os.environ.get(name)]: [None] and the empty
    string are false. *)
Definition env_truthy (v : option string) : bool :=
  match v with
  | Some s => negb (String.eqb s "")
  | None => false
  end.

(** ** The rate limiter row

    The row of the rate limiter table under the key
    [limiter_id = 'bedrock_calls']. *)

Record LimiterItem : Type := {
  last_call_time : Z;
  calls_this_minute : Z;
  max_calls_per_minute : Z;
  limiter_ttl : Z
}.

(** ** Analysis values

    Values of the dictionaries that carry an analysis: the JSON values the
    model returns and the values the code writes itself. [VOther] stands
    for a value of any other kind (float, nested object): it carries the
    text [str()] gives for it and its truth value. *)

#[warnings="-register-all"]
Inductive pyval : Type :=
| VNone
| VBool (b : bool)
| VInt (z : Z)
| VStr (s : string)
| VList (l : list pyval)
| VDict (items : list (string * pyval))
| VOther (text : string) (truth : bool).

Abbreviation pydict := (gmap string pyval).

(** ** Health events and analysis messages *)

Record HealthEvent : Type := {
  ev_severity : option string;
  ev_service : option string;
  ev_region : option string
}.

(** The body of a message of the analysis queue, once decoded. A key that
    is absent from the JSON object is [None]; [m_other_keys] tells whether
    the object has keys other than the ones read here. *)
Record Message : Type := {
  m_workflow_id : option string;
  m_account_id : option string;
  m_email_mapping : option string;
  m_processed_events : option (list HealthEvent);
  m_event_count : option Z;
  m_bedrock_payload : option string;
  m_other_keys : bool
}.

(** ** Rows of the workflow results table *)

Inductive ResultData : Type :=
| AnalysisData (analysis : pydict) (email_mapping : option string)
               (processed_events : list HealthEvent) (event_count : Z)
| QueuedMarkerData (emails_queued_at : Z) (status : string)
| SentMarkerData (email_sent_at : Z) (status : string).

Record ResultItem : Type := {
  workflow_id : string;
  account_id : string;
  result_data : ResultData;
  status : string;
  timestamp : Z;
  ttl : Z
}.

(** ** Messages of the notification queue *)

Inductive EmailBody : Type :=
| AccountSpecific (email_address : string) (wid : string)
                  (account_results : list ResultItem) (stamp : Z)
| MasterReport (email_addresses : list string) (wid : string)
               (all_results : list ResultItem) (stamp : Z).

Record SqsMessage : Type := {
  QueueUrl : string;
  MessageBody : EmailBody;
  MessageGroupId : string;
  MessageDeduplicationId : string
}.

(** ** Observable effects

    The handlers are instrumented with a log of the effects the
    properties speak about. *)

Inductive Effect : Type :=
| StoredResult (wid aid : string)      (* a put_item of store_workflow_result returned *)
| StoreFailed                          (* a call of store_workflow_result raised *)
| InvokedModel                         (* bedrock.invoke_model was called *)
| Slept (seconds : Z)                  (* time.sleep *)
| SendAttempt (email_type : string)    (* a send function of the email sender was entered *)
| Delivered (recipients : list string).  (* ses.send_raw_email returned *)

#[global] Instance Effect_eq_dec : EqDecision Effect.
Proof. solve_decision. Defined.

(** ** The world *)

(** An account as [organizations.list_accounts] lists it, and a row of
    the custom account-email mapping table. *)
Record OrgAccount : Type := {
  Id : string;
  Name : option string;
  Email : option string
}.

Record MappingRow : Type := {
  AccountId : option string;
  MappingEmail : option string     (* the attribute 'Email' *)
}.

Record World : Type := {
  w_env : Env;
  w_now : Z;                                       (* int(time.time()) *)
  w_results : gmap (string * string) ResultItem;   (* workflow results table *)
  w_limiter : option LimiterItem;                  (* rate limiter table *)
  w_queue : list SqsMessage;                       (* accepted send_message calls *)
  w_faults : list (option exn);                    (* outcomes of the coming service calls *)
  w_queue_faults : list (option exn);              (* outcomes of the coming send_message calls *)
  w_replies : list (option string);                (* texts of the coming model replies *)
  w_org_accounts : list OrgAccount;                (* the organization *)
  w_mapping_rows : list MappingRow;                (* custom mapping table *)
  w_log : list Effect
}.

Definition set_limiter (l : option LimiterItem) (w : World) : World :=
  {| w_env := w_env w; w_now := w_now w; w_results := w_results w;
     w_limiter := l; w_queue := w_queue w; w_faults := w_faults w;
     w_queue_faults := w_queue_faults w; w_replies := w_replies w;
     w_org_accounts := w_org_accounts w;
     w_mapping_rows := w_mapping_rows w; w_log := w_log w |}.

Definition set_results (r : gmap (string * string) ResultItem) (w : World) : World :=
  {| w_env := w_env w; w_now := w_now w; w_results := r;
     w_limiter := w_limiter w; w_queue := w_queue w; w_faults := w_faults w;
     w_queue_faults := w_queue_faults w; w_replies := w_replies w;
     w_org_accounts := w_org_accounts w;
     w_mapping_rows := w_mapping_rows w; w_log := w_log w |}.

Definition set_queue (q : list SqsMessage) (w : World) : World :=
  {| w_env := w_env w; w_now := w_now w; w_results := w_results w;
     w_limiter := w_limiter w; w_queue := q; w_faults := w_faults w;
     w_queue_faults := w_queue_faults w; w_replies := w_replies w;
     w_org_accounts := w_org_accounts w;
     w_mapping_rows := w_mapping_rows w; w_log := w_log w |}.

Definition set_faults (f : list (option exn)) (w : World) : World :=
  {| w_env := w_env w; w_now := w_now w; w_results := w_results w;
     w_limiter := w_limiter w; w_queue := w_queue w; w_faults := f;
     w_queue_faults := w_queue_faults w; w_replies := w_replies w;
     w_org_accounts := w_org_accounts w;
     w_mapping_rows := w_mapping_rows w; w_log := w_log w |}.

Definition set_queue_faults (f : list (option exn)) (w : World) : World :=
  {| w_env := w_env w; w_now := w_now w; w_results := w_results w;
     w_limiter := w_limiter w; w_queue := w_queue w; w_faults := w_faults w;
     w_queue_faults := f; w_replies := w_replies w;
     w_org_accounts := w_org_accounts w;
     w_mapping_rows := w_mapping_rows w; w_log := w_log w |}.

Definition set_replies (r : list (option string)) (w : World) : World :=
  {| w_env := w_env w; w_now := w_now w; w_results := w_results w;
     w_limiter := w_limiter w; w_queue := w_queue w; w_faults := w_faults w;
     w_queue_faults := w_queue_faults w; w_replies := r;
     w_org_accounts := w_org_accounts w;
     w_mapping_rows := w_mapping_rows w; w_log := w_log w |}.

Definition set_now (t : Z) (w : World) : World :=
  {| w_env := w_env w; w_now := t; w_results := w_results w;
     w_limiter := w_limiter w; w_queue := w_queue w; w_faults := w_faults w;
     w_queue_faults := w_queue_faults w; w_replies := w_replies w;
     w_org_accounts := w_org_accounts w;
     w_mapping_rows := w_mapping_rows w; w_log := w_log w |}.

Definition set_env (e : Env) (w : World) : World :=
  {| w_env := e; w_now := w_now w; w_results := w_results w;
     w_limiter := w_limiter w; w_queue := w_queue w; w_faults := w_faults w;
     w_queue_faults := w_queue_faults w; w_replies := w_replies w;
     w_org_accounts := w_org_accounts w;
     w_mapping_rows := w_mapping_rows w; w_log := w_log w |}.

Definition add_log (e : Effect) (w : World) : World :=
  {| w_env := w_env w; w_now := w_now w; w_results := w_results w;
     w_limiter := w_limiter w; w_queue := w_queue w; w_faults := w_faults w;
     w_queue_faults := w_queue_faults w; w_replies := w_replies w;
     w_org_accounts := w_org_accounts w;
     w_mapping_rows := w_mapping_rows w; w_log := w_log w ++ [e] |}.

(** ** The monad of the handlers: state and exceptions *)

Definition M (A : Type) : Type := World → result A * World.

#[global] Instance M_ret : MRet M := λ A a w, (Ok a, w).
#[global] Instance M_bind : MBind M := λ A B f m w,
  match m w with
  | (Ok a, w') => f a w'
  | (Raise e, w') => (Raise e, w')
  end.

#[global] Instance M_fmap : FMap M := λ A B f m w,
  match m w with
  | (Ok a, w') => (Ok (f a), w')
  | (Raise e, w') => (Raise e, w')
  end.

Definition raise {A} (e : exn) : M A := λ w, (Raise e, w).

(** [try: m except Exception as e: h e] *)
Definition try_except {A} (m : M A) (h : exn → M A) : M A := λ w,
  match m w with
  | (Ok a, w') => (Ok a, w')
  | (Raise e, w') => h e w'
  end.

Definition get_world : M World := λ w, (Ok w, w).
Definition modify_world (f : World → World) : M unit := λ w, (Ok tt, f w).
Definition getenv (f : Env → option string) : M (option string) :=
  λ w, (Ok (f (w_env w)), w).
Definition time_time : M Z := λ w, (Ok (w_now w), w).
Definition log_effect (e : Effect) : M unit := modify_world (add_log e).

(** A service call consumes the next scripted outcome: [Some e] makes the
    call raise [e] without any effect, [None] (or the end of the script)
    lets it go through. *)
Definition service_call : M unit := λ w,
  match w_faults w with
  | Some e :: rest => (Raise e, set_faults rest w)
  | None :: rest => (Ok tt, set_faults rest w)
  | [] => (Ok tt, w)
  end.

(** A call of the notification queue consumes the next outcome of the
    script of the queue. *)
Definition queue_call : M unit := λ w,
  match w_queue_faults w with
  | Some e :: rest => (Raise e, set_queue_faults rest w)
  | None :: rest => (Ok tt, set_queue_faults rest w)
  | [] => (Ok tt, w)
  end.

(** [dynamodb.Table(table_name)] followed by a call on it: boto3 rejects a
    missing table name when the call is made. *)
Definition table_call (name : option string) : M unit :=
  match name with
  | Some _ => service_call
  | None => raise (ServiceError "ParamValidationError")
  end.

(** [table.put_item(Item=..., ConditionExpression='attribute_not_exists(workflow_id)')]:
    the write is refused with [ConditionalCheckFailedException] when a row
    with the key of the item exists. *)
Definition conditional_put (table_name : option string) (item : ResultItem) : M unit :=
  table_call table_name;;
  w ← get_world;
  match w_results w !! (workflow_id item, account_id item) with
  | Some _ => raise (ClientError "ConditionalCheckFailedException")
  | None =>
      modify_world
        (λ w, set_results (<[(workflow_id item, account_id item) := item]> (w_results w)) w)
  end.

(** ** String helpers of the Python code *)

Definition lower_ascii (a : Ascii.ascii) : Ascii.ascii :=
  let n := Ascii.N_of_ascii a in
  if ((65 <=? n) && (n <=? 90))%N then Ascii.ascii_of_N (n + 32) else a.

Definition upper_ascii (a : Ascii.ascii) : Ascii.ascii :=
  let n := Ascii.N_of_ascii a in
  if ((97 <=? n) && (n <=? 122))%N then Ascii.ascii_of_N (n - 32) else a.

Definition is_alpha (a : Ascii.ascii) : bool :=
  let n := Ascii.N_of_ascii a in
  (((65 <=? n) && (n <=? 90)) || ((97 <=? n) && (n <=? 122)))%N.

Fixpoint str_map (f : Ascii.ascii → Ascii.ascii) (s : string) : string :=
  match s with
  | EmptyString => EmptyString
  | String a r => String (f a) (str_map f r)
  end.

Definition lower (s : string) : string := str_map lower_ascii s.
Definition upper (s : string) : string := str_map upper_ascii s.

(** [str.title()]: the first letter of every run of letters in upper
    case, the others in lower case. *)
Fixpoint title_from (prev_alpha : bool) (s : string) : string :=
  match s with
  | EmptyString => EmptyString
  | String a r =>
      String (if prev_alpha then lower_ascii a else upper_ascii a)
             (title_from (is_alpha a) r)
  end.
Definition title (s : string) : string := title_from false s.

(** Python's white space for [str.strip()], on ASCII. *)
Definition py_space (a : Ascii.ascii) : bool :=
  let n := Ascii.N_of_ascii a in
  ((n =? 32) || ((9 <=? n) && (n <=? 13)) || ((28 <=? n) && (n <=? 31)))%N.

Fixpoint lstrip (s : string) : string :=
  match s with
  | String a r => if py_space a then lstrip r else s
  | EmptyString => EmptyString
  end.

Fixpoint rstrip (s : string) : string :=
  match s with
  | EmptyString => EmptyString
  | String a r =>
      match rstrip r with
      | EmptyString => if py_space a then EmptyString else String a EmptyString
      | r' => String a r'
      end
  end.

Definition strip (s : string) : string := rstrip (lstrip s).

(** [x in [a, b, ...]] on strings. *)
Definition str_in (s : string) (l : list string) : bool :=
  existsb (String.eqb s) l.


(** [sub in s] *)
Fixpoint contains (sub s : string) : bool :=
  String.prefix sub s ||
  match s with
  | EmptyString => false
  | String _ r => contains sub r
  end.

(** [s.replace(old, new)], for a non-empty [old]: [skip] counts the
    characters of a match that are still to be dropped. *)
Fixpoint replace_from (skip : nat) (old new s : string) : string :=
  match s with
  | EmptyString => EmptyString
  | String a r =>
      match skip with
      | S n => replace_from n old new r
      | O =>
          if String.prefix old s
          then new +:+ replace_from (Nat.pred (String.length old)) old new r
          else String a (replace_from O old new r)
      end
  end.
Definition replace (old new s : string) : string := replace_from O old new s.

(** [s[:n]] *)
Definition str_take (n : nat) (s : string) : string := String.substring 0 n s.

(** [s.split(',')] *)
Fixpoint split_comma (s : string) : list string :=
  match s with
  | EmptyString => [EmptyString]
  | String a r =>
      if Ascii.eqb a ","%char then EmptyString :: split_comma r
      else match split_comma r with
           | part :: parts => String a part :: parts
           | [] => [String a EmptyString]
           end
  end.

(** [sep.join(parts)] *)
Fixpoint join (sep : string) (parts : list string) : string :=
  match parts with
  | [] => ""
  | [p] => p
  | p :: rest => p +:+ sep +:+ join sep rest
  end.

(** [sorted(l)] on strings, by code points. *)
Fixpoint insert_sorted (x : string) (l : list string) : list string :=
  match l with
  | [] => [x]
  | y :: rest => if String.leb x y then x :: l else y :: insert_sorted x rest
  end.
Definition sorted (l : list string) : list string := foldr insert_sorted [] l.

(** [int(s)] on the text of a decimal integer: an optional sign, then
    digits, with single underscores allowed between digits, and white
    space around it all; [None] stands for [ValueError]. Digits are the
    ASCII digits. *)
Definition digit_of (a : Ascii.ascii) : option Z :=
  let n := Ascii.N_of_ascii a in
  if ((48 <=? n) && (n <=? 57))%N then Some (Z.of_N n - 48) else None.

(** [after_digit] tells that the character before was a digit: there an
    underscore may stand and the text may end. *)
Fixpoint digits_from (acc : Z) (after_digit : bool) (s : string) : option Z :=
  match s with
  | EmptyString => if after_digit then Some acc else None
  | String a r =>
      match digit_of a with
      | Some d => digits_from (10 * acc + d) true r
      | None =>
          if Ascii.eqb a "_"%char && after_digit then digits_from acc false r
          else None
      end
  end.

Definition unsigned_int (s : string) : option Z := digits_from 0 false s.

(** A text of digits only. *)
Fixpoint all_digits (s : string) : bool :=
  match s with
  | EmptyString => true
  | String a r => bool_decide (is_Some (digit_of a)) && all_digits r
  end.

Definition py_int (s : string) : option Z :=
  match strip s with
  | String "-" r => Z.opp <$> unsigned_int r
  | String "+" r => unsigned_int r
  | t => unsigned_int t
  end.

(** ** Values: [str()], truth and comparison with a string *)

Definition py_quote (s : string) : string := "'" +:+ s +:+ "'".

Fixpoint py_repr (v : pyval) : string :=
  match v with
  | VStr s => py_quote s
  | VNone => "None"
  | VBool true => "True"
  | VBool false => "False"
  | VInt z => pretty z
  | VList l => "[" +:+ join ", " (map py_repr l) +:+ "]"
  | VDict items =>
      "{" +:+ join ", " (map (λ kv, py_quote kv.1 +:+ ": " +:+ py_repr kv.2) items) +:+ "}"
  | VOther text _ => text
  end.

Definition py_str (v : pyval) : string :=
  match v with
  | VStr s => s
  | _ => py_repr v
  end.

Definition py_truthy (v : pyval) : bool :=
  match v with
  | VNone => false
  | VBool b => b
  | VInt z => negb (z =? 0)
  | VStr s => negb (String.eqb s "")
  | VList l => match l with [] => false | _ => true end
  | VDict items => match items with [] => false | _ => true end
  | VOther _ truth => truth
  end.

(** [v == s] for a string [s]. *)
Definition py_eq_str (v : pyval) (s : string) : bool :=
  match v with
  | VStr t => String.eqb t s
  | _ => false
  end.

(** ** Library functions taken as given

    The decoders and matchers of the Python standard library that the code
    calls on texts. [None] of [json_loads] stands for [JSONDecodeError]. *)

Inductive json : Type :=
| JObject (d : pydict)
| JValue (v : pyval).      (* a JSON text that is not an object *)

Class Library : Type := {
  json_loads : string → option json;
  (* json.dumps of a list of strings *)
  json_dumps : list string → string;
  (* hashlib.md5(s.encode()).hexdigest() *)
  md5_hexdigest : string → string;
  (* group 1 of the search for a fenced json code block, re.DOTALL *)
  search_json_block : string → option string;
  (* group 1 of the search for the widest brace-to-brace text, re.DOTALL *)
  search_braces : string → option string;
  (* group 1 of the search for the quoted value that follows the quoted
     name of a field and a colon, re.IGNORECASE *)
  search_field : string → string → option string
}.

(** ** Python dictionaries with their insertion order

    Association lists without repeated keys: [dict_set] overwrites in
    place or appends, as assignment to a [dict] does. *)

Definition odict (V : Type) : Type := list (string * V).

Fixpoint dict_get {V} (k : string) (d : odict V) : option V :=
  match d with
  | [] => None
  | (k', v) :: rest => if String.eqb k' k then Some v else dict_get k rest
  end.

Fixpoint dict_set {V} (k : string) (v : V) (d : odict V) : odict V :=
  match d with
  | [] => [(k, v)]
  | (k', v') :: rest =>
      if String.eqb k' k then (k', v) :: rest else (k', v') :: dict_set k v rest
  end.

Fixpoint dict_del {V} (k : string) (d : odict V) : odict V :=
  match d with
  | [] => []
  | (k', v') :: rest =>
      if String.eqb k' k then rest else (k', v') :: dict_del k rest
  end.

(** [d[k].append(x)] on a [defaultdict(list)] *)
Definition dict_append {V} (k : string) (x : V) (d : odict (list V)) : odict (list V) :=
  dict_set k (default [] (dict_get k d) ++ [x]) d.

(** Truth of an optional string: [None] and the empty string are false. *)
Definition str_truthy (v : option string) : bool := env_truthy v.

(** [os.environ.get(name, 'false').lower() == 'true'] *)
Definition env_flag (v : option string) : bool :=
  String.eqb (lower (default "false" v)) "true".

(** ** Results as a monad, and records of a queue batch *)

#[global] Instance result_ret : MRet result := λ A a, Ok a.
#[global] Instance result_bind : MBind result := λ A B f r,
  match r with
  | Ok a => f a
  | Raise e => Raise e
  end.

Definition lift {A} (r : result A) : M A := λ w, (r, w).

(** What [json.loads] makes of the body of a record: it raises, or it
    gives a JSON value that is not an object (of which the handlers use
    the truth value only), or it gives an object. *)
Inductive Decoded (B : Type) : Type :=
| Undecodable
| NotObject (truthy : bool)
| Object (b : B).
Arguments Undecodable {B}.
Arguments NotObject {B} truthy.
Arguments Object {B} b.

(** A record of an SQS batch. *)
Record SqsRecord (B : Type) : Type := {
  decoded : Decoded B;                        (* json.loads(record['body']) *)
  receiptHandle : string;
  ApproximateReceiveCount : option string     (* record['attributes'][...] *)
}.
Arguments decoded {B} _.
Arguments receiptHandle {B} _.
Arguments ApproximateReceiveCount {B} _.

(** The object the body of a record decodes to, when it is one. *)
Definition body {B} (record : SqsRecord B) : option B :=
  match decoded record with
  | Object b => Some b
  | _ => None
  end.

(** What a handler does with a record: its receipt handle goes to
    [successful_messages] or to [failed_messages]. *)
Inductive Ack : Type := Acked | Requeued.

#[global] Instance Ack_eq_dec : EqDecision Ack.
Proof. solve_decision. Defined.

(** The answer of a queue handler. *)
Inductive BatchResponse : Type :=
| BatchItemFailures (itemIdentifiers : list string)
| BatchSuccess (processed failed : nat).

Record Batch : Type := {
  successful_messages : list string;
  failed_messages : list string
}.

Definition batch_add (handle : string) (a : Ack) (b : Batch) : Batch :=
  match a with
  | Acked => {| successful_messages := successful_messages b ++ [handle];
                failed_messages := failed_messages b |}
  | Requeued => {| successful_messages := successful_messages b;
                   failed_messages := failed_messages b ++ [handle] |}
  end.

Definition batch_response (b : Batch) : BatchResponse :=
  match failed_messages b with
  | [] => BatchSuccess (length (successful_messages b)) (length (failed_messages b))
  | failed => BatchItemFailures failed
  end.

(** The double quote and the control characters, as one-character strings. *)
Definition dq : string := String (Ascii.ascii_of_N 34) EmptyString.
Definition newline : string := String (Ascii.ascii_of_N 10) EmptyString.
Definition tab : string := String (Ascii.ascii_of_N 9) EmptyString.
Definition carriage_return : string := String (Ascii.ascii_of_N 13) EmptyString.

(** [str(e)] of an exception. *)
Definition exn_text (e : exn) : string :=
  match e with
  | ClientError code => "An error occurred (" +:+ code +:+ ")"
  | KeyError key => py_quote key
  | ValueError msg => msg
  | JSONDecodeError => "Expecting value"
  | TypeError => "TypeError"
  | IncompleteWorkflowException msg => msg
  | ServiceError msg => msg
  | AttributeError => "object has no attribute 'get'"
  end.

(** * src/shared_utils.py *)

Module shared_utils.

(** [get_organization_account_email_mapping]: the loop over the accounts
    of the organization. *)
Definition add_org_account (acc : odict string * odict (list string)) (account : OrgAccount)
    : odict string * odict (list string) :=
  let '(account_to_email, email_to_accounts) := acc in
  match Email account with
  | Some account_email =>
      if str_truthy (Some account_email)
      then (dict_set (Id account) account_email account_to_email,
            dict_append account_email (Id account) email_to_accounts)
      else acc
  | None => acc
  end.

Definition get_organization_account_email_mapping
    : M (odict string * odict (list string)) :=
  use_org_mapping ← getenv USE_ORGANIZATION_ACCOUNT_EMAIL_MAPPING;
  if negb (env_flag use_org_mapping) then mret ([], [])
  else
    try_except
      (service_call;;
       w ← get_world;
       mret (foldl add_org_account ([], []) (w_org_accounts w)))
      (λ _, mret ([], [])).

(** [get_custom_account_email_mapping_from_dynamodb]: the loop over the
    scanned rows. *)
Definition add_mapping_row (acc : odict string * odict (list string)) (item : MappingRow)
    : odict string * odict (list string) :=
  let '(account_to_email, email_to_accounts) := acc in
  let account_id := strip (default "" (AccountId item)) in
  let email := strip (default "" (MappingEmail item)) in
  if negb (str_truthy (Some account_id)) || negb (str_truthy (Some email)) then acc
  else (dict_set account_id email account_to_email,
        dict_append email account_id email_to_accounts).

Definition get_custom_account_email_mapping_from_dynamodb
    : M (odict string * odict (list string)) :=
  use_custom_mapping ← getenv USE_CUSTOM_ACCOUNT_EMAIL_MAPPING;
  if negb (env_flag use_custom_mapping) then mret ([], [])
  else
    table_name ← getenv ACCOUNT_EMAIL_MAPPING_TABLE;
    if negb (str_truthy (Some (default "" table_name))) then mret ([], [])
    else
      try_except
        (service_call;;
         w ← get_world;
         mret (foldl add_mapping_row ([], []) (w_mapping_rows w)))
        (λ _, mret ([], [])).

(** The three dictionaries [get_combined_account_email_mapping] builds. *)
Record Combined : Type := {
  combined_account_to_email : odict string;
  combined_email_to_accounts : odict (list string);
  mapping_sources : odict string
}.

(** Step 1: the Organizations mapping as the base. *)
Definition add_organizations (org_account_to_email : odict string)
    (org_email_to_accounts : odict (list string)) (c : Combined) : Combined :=
  {| combined_account_to_email :=
       foldl (λ d kv, dict_set kv.1 kv.2 d) (combined_account_to_email c)
             org_account_to_email;
     combined_email_to_accounts :=
       foldl (λ d kv, dict_set kv.1 (default [] (dict_get kv.1 d) ++ kv.2) d)
             (combined_email_to_accounts c) org_email_to_accounts;
     mapping_sources :=
       foldl (λ d kv, dict_set kv.1 "organizations" d) (mapping_sources c)
             org_account_to_email |}.

(** Step 2: one turn of the loop over the custom mapping. *)
Definition override_with_custom (c : Combined) (entry : string * string) : Combined :=
  let '(account_id, new_email) := entry in
  let old_email := dict_get account_id (combined_account_to_email c) in
  let '(sources, email_to_accounts) :=
    if str_truthy old_email && negb (bool_decide (old_email = Some new_email)) then
      (dict_set account_id "combined" (mapping_sources c),
       match old_email with
       | Some old =>
           match dict_get old (combined_email_to_accounts c) with
           | Some accounts =>
               let kept := filter (λ acc, acc ≠ account_id) accounts in
               match kept with
               | [] => dict_del old (combined_email_to_accounts c)
               | _ => dict_set old kept (combined_email_to_accounts c)
               end
           | None => combined_email_to_accounts c
           end
       | None => combined_email_to_accounts c
       end)
    else if negb (str_truthy old_email) then
      (dict_set account_id "custom" (mapping_sources c), combined_email_to_accounts c)
    else
      (dict_set account_id "organizations" (mapping_sources c),
       combined_email_to_accounts c) in
  let current := default [] (dict_get new_email email_to_accounts) in
  {| combined_account_to_email :=
       dict_set account_id new_email (combined_account_to_email c);
     combined_email_to_accounts :=
       if bool_decide (account_id ∈ current)
       then dict_set new_email current email_to_accounts
       else dict_set new_email (current ++ [account_id]) email_to_accounts;
     mapping_sources := sources |}.

Definition empty_combined : Combined :=
  {| combined_account_to_email := []; combined_email_to_accounts := [];
     mapping_sources := [] |}.

Definition get_combined_account_email_mapping : M Combined :=
  use_custom ← getenv USE_CUSTOM_ACCOUNT_EMAIL_MAPPING;
  use_org ← getenv USE_ORGANIZATION_ACCOUNT_EMAIL_MAPPING;
  c1 ← (if env_flag use_org then
          org ← get_organization_account_email_mapping;
          match org.1 with
          | [] => mret empty_combined
          | _ => mret (add_organizations org.1 org.2 empty_combined)
          end
        else mret empty_combined);
  c2 ← (if env_flag use_custom then
          custom ← get_custom_account_email_mapping_from_dynamodb;
          mret (foldl override_with_custom c1 custom.1)
        else mret c1);
  match combined_account_to_email c2 with
  | [] => mret empty_combined
  | _ => mret c2
  end.

(** [store_workflow_result(workflow_id, account_id, result_data, ttl_days=7)] *)
Definition store_workflow_result (wid aid : string) (data : ResultData) : M unit :=
  table_name ← getenv WORKFLOW_RESULTS_TABLE;
  if negb (str_truthy table_name)
  then raise (ValueError "WORKFLOW_RESULTS_TABLE environment variable not set")
  else
    now ← time_time;
    let item := {| workflow_id := wid; account_id := aid; result_data := data;
                   status := "COMPLETED"; timestamp := now;
                   ttl := now + 7 * 24 * 60 * 60 |} in
    service_call;;
    modify_world (λ w, set_results (<[(wid, aid) := item]> (w_results w)) w);;
    log_effect (StoredResult wid aid).

(** The rows of a workflow: the answer of the query on the partition key. *)
Definition rows_of (wid : string) (table : gmap (string * string) ResultItem)
    : list ResultItem :=
  (filter (λ kv, kv.1.1 = wid) (map_to_list table)).*2.

Definition get_workflow_results (wid : string) : M (list ResultItem) :=
  table_name ← getenv WORKFLOW_RESULTS_TABLE;
  if negb (str_truthy table_name)
  then raise (ValueError "WORKFLOW_RESULTS_TABLE environment variable not set")
  else
    service_call;;
    w ← get_world;
    mret (rows_of wid (w_results w)).

Definition count_completed_results (wid : string) : M Z :=
  results ← get_workflow_results wid;
  mret (Z.of_nat (length (filter (λ r, status r = "COMPLETED") results))).

End shared_utils.
(** * src/bedrock_analyzer.py *)

Module bedrock_analyzer.

(** ** The rate limiter *)

(** [table.get_item(Key={'limiter_id': 'bedrock_calls'})] *)
Definition limiter_get_item : M (option LimiterItem) :=
  service_call;;
  w ← get_world;
  mret (w_limiter w).

(** [table.put_item(Item=...)] *)
Definition limiter_put_item (item : LimiterItem) : M unit :=
  service_call;;
  modify_world (set_limiter (Some item)).

(** [table.update_item(Key=..., UpdateExpression=...)] with the update
    written as a function on the row. The two updates of
    [check_bedrock_rate_limit] follow a [get_item] that found the row. *)
Definition limiter_update_item (f : LimiterItem → LimiterItem) : M unit :=
  service_call;;
  modify_world (λ w, set_limiter (f <$> w_limiter w) w).

Definition initial_limiter (now : Z) : LimiterItem :=
  {| last_call_time := now; calls_this_minute := 0;
     max_calls_per_minute := 20; limiter_ttl := now + 3600 |}.

(** [SET calls_this_minute = :zero, last_call_time = :time] *)
Definition reset_window (current_time : Z) (item : LimiterItem) : LimiterItem :=
  {| last_call_time := current_time; calls_this_minute := 0;
     max_calls_per_minute := max_calls_per_minute item;
     limiter_ttl := limiter_ttl item |}.

(** [ADD calls_this_minute :inc] *)
Definition add_call (item : LimiterItem) : LimiterItem :=
  {| last_call_time := last_call_time item;
     calls_this_minute := calls_this_minute item + 1;
     max_calls_per_minute := max_calls_per_minute item;
     limiter_ttl := limiter_ttl item |}.

Definition check_bedrock_rate_limit : M bool :=
  try_except
    (table_name ← getenv BEDROCK_RATE_LIMITER_TABLE;
     if negb (env_truthy table_name) then mret true
     else
       response ← limiter_get_item;
       match response with
       | None =>
           now ← time_time;
           limiter_put_item (initial_limiter now);;
           mret true
       | Some item =>
           current_time ← time_time;
           if 60 <=? current_time - last_call_time item then
             limiter_update_item (reset_window current_time);;
             mret true
           else if calls_this_minute item <? max_calls_per_minute item then
             limiter_update_item add_call;;
             mret true
           else mret false
       end)
    (λ _, mret true).

(** *** Update expressions

    The value of a [SET] action of an update expression: an attribute of
    the row, a placeholder of [ExpressionAttributeValues], a sum or a
    difference, or a function of two values. In a [SET] action DynamoDB
    knows the functions [if_not_exists] and [list_append]; an expression
    that names any other function is refused with [ValidationException]
    before the row is read, and the row is not touched. *)
Inductive SetValue : Type :=
| Attribute (name : string)
| Placeholder (value : Z)
| Plus (a b : SetValue)
| Minus (a b : SetValue)
| Function (name : string) (a b : SetValue).

Definition set_functions : list string := ["if_not_exists"; "list_append"].

Fixpoint valid_set_value (v : SetValue) : bool :=
  match v with
  | Attribute _ | Placeholder _ => true
  | Plus a b | Minus a b => valid_set_value a && valid_set_value b
  | Function name a b =>
      str_in name set_functions && valid_set_value a && valid_set_value b
  end.

(** The numeric attributes of the row of the limiter. *)
Definition limiter_attribute (name : string) (item : LimiterItem) : option Z :=
  if String.eqb name "last_call_time" then Some (last_call_time item)
  else if String.eqb name "calls_this_minute" then Some (calls_this_minute item)
  else if String.eqb name "max_calls_per_minute" then Some (max_calls_per_minute item)
  else if String.eqb name "ttl" then Some (limiter_ttl item)
  else None.

Fixpoint eval_set_value (item : LimiterItem) (v : SetValue) : result Z :=
  match v with
  | Attribute name =>
      match limiter_attribute name item with
      | Some z => Ok z
      | None => Raise (ClientError "ValidationException")
      end
  | Placeholder z => Ok z
  | Plus a b => x ← eval_set_value item a; y ← eval_set_value item b; mret (x + y)
  | Minus a b => x ← eval_set_value item a; y ← eval_set_value item b; mret (x - y)
  | Function name a b =>
      if String.eqb name "if_not_exists" then
        match a with
        | Attribute path =>
            match limiter_attribute path item with
            | Some z => Ok z
            | None => eval_set_value item b
            end
        | _ => Raise (ClientError "ValidationException")
        end
      else Raise (ClientError "ValidationException")   (* no number comes of it *)
  end.

Definition with_max_calls (z : Z) (item : LimiterItem) : LimiterItem :=
  {| last_call_time := last_call_time item;
     calls_this_minute := calls_this_minute item;
     max_calls_per_minute := z;
     limiter_ttl := limiter_ttl item |}.

(** [table.update_item(Key=..., UpdateExpression='SET max_calls_per_minute = ...')]
    for a value that reads the row. *)
Definition limiter_set_max_calls (value : SetValue) : M unit :=
  service_call;;
  if negb (valid_set_value value) then raise (ClientError "ValidationException")
  else
    w ← get_world;
    match w_limiter w with
    | Some item =>
        z ← lift (eval_set_value item value);
        modify_world (set_limiter (Some (with_max_calls z item)))
    | None => raise (ClientError "ValidationException")
    end.

(** [GREATEST(:min_val, max_calls_per_minute - :dec)] with [:min_val = 2]
    and [:dec = 2]. *)
Definition backoff_expression : SetValue :=
  Function "GREATEST" (Placeholder 2)
    (Minus (Attribute "max_calls_per_minute") (Placeholder 2)).

Definition update_rate_limit_backoff : M unit :=
  try_except
    (table_name ← getenv BEDROCK_RATE_LIMITER_TABLE;
     if negb (env_truthy table_name) then mret tt
     else limiter_set_max_calls backoff_expression)
    (λ _, mret tt).

(** ** Sequential simulation of the limiter *)

(** One call of the limiter when the clock reads [t]. *)
Definition call_at (t : Z) (w : World) : result bool * World :=
  check_bedrock_rate_limit (set_now t w).

Definition was_allowed (r : result bool) : bool :=
  match r with
  | Ok b => b
  | Raise _ => false
  end.

Fixpoint simulate (times : list Z) (w : World) : list (Z * bool) * World :=
  match times with
  | [] => ([], w)
  | t :: rest =>
      let '(r, w') := call_at t w in
      let '(out, w'') := simulate rest w' in
      ((t, was_allowed r) :: out, w'')
  end.

(** The length of the window, in seconds. *)
Definition window_length : Z := 60.

Definition in_window (T : Z) (o : Z * bool) : bool :=
  o.2 && (T <=? o.1) && (o.1 <? T + window_length).

(** Number of allowed calls whose time lies in [T, T + window_length). *)
Definition allowed_in_window (T : Z) (out : list (Z * bool)) : Z :=
  Z.of_nat (length (filter (λ o, in_window T o = true) out)).

(** The transition of the row, without the services around it. *)
Definition limiter_step (t : Z) (item : LimiterItem) : bool * LimiterItem :=
  if 60 <=? t - last_call_time item then (true, reset_window t item)
  else if calls_this_minute item <? max_calls_per_minute item then (true, add_call item)
  else (false, item).

Fixpoint limiter_run (times : list Z) (item : LimiterItem) : list (Z * bool) :=
  match times with
  | [] => []
  | t :: rest =>
      let '(b, item') := limiter_step t item in
      (t, b) :: limiter_run rest item'
  end.

(** The limiter works on a configured table whose calls go through. *)
Definition limiter_available (w : World) : Prop :=
  env_truthy (BEDROCK_RATE_LIMITER_TABLE (w_env w)) = true ∧ w_faults w = [].


(** ** Retry count of a record *)

Definition get_message_retry_count {B} (record : SqsRecord B) : Z :=
  match py_int (default "1" (ApproximateReceiveCount record)) with
  | Some receive_count => receive_count - 1
  | None => 0
  end.

(** ** The placeholder analysis *)

Definition test_mode_values : list string := ["true"; "1"; "yes"].

Definition count_severity (severity : string) (events : list HealthEvent) : Z :=
  Z.of_nat (length (filter (λ ev, default "low" (ev_severity ev) = severity) events)).

Definition services_of (events : list HealthEvent) : gset string :=
  list_to_set ((λ ev, default "Unknown" (ev_service ev)) <$> events).

Definition regions_of (events : list HealthEvent) : gset string :=
  list_to_set ((λ ev, default "Unknown" (ev_region ev)) <$> events).

(** The risk level and its justification, from the events. *)
Definition placeholder_risk (critical_events high_events event_count : Z)
    : string * string :=
  if 0 <? critical_events then
    ("Critical", "Account has " +:+ pretty critical_events
                 +:+ " critical health events requiring immediate attention")
  else if 0 <? high_events then
    ("High", "Account has " +:+ pretty high_events +:+ " high-priority health events")
  else if 5 <? event_count then
    ("Medium", "Account has " +:+ pretty event_count
               +:+ " health events that should be reviewed")
  else if 0 <? event_count then
    ("Low", "Account has " +:+ pretty event_count
            +:+ " health events with minimal impact")
  else ("Low", "No health events found for this account").

Definition recommended_action (priority action timeline : string) : pyval :=
  VDict [("priority", VStr priority); ("action", VStr action);
         ("timeline", VStr timeline)].

Definition create_placeholder_analysis (message : Message) : M pydict :=
  let account_id := default "unknown" (m_account_id message) in
  let processed_events := default [] (m_processed_events message) in
  let event_count := default 0 (m_event_count message) in
  let critical_events := count_severity "critical" processed_events in
  let high_events := count_severity "high" processed_events in
  let services_affected := services_of processed_events in
  let regions_affected := regions_of processed_events in
  let '(risk_level, risk_justification) :=
    placeholder_risk critical_events high_events event_count in
  test_skip_bedrock ← getenv TEST_SKIP_BEDROCK;
  let is_test_mode := str_in (lower (default "false" test_skip_bedrock)) test_mode_values in
  mret (list_to_map
    [("risk_level", VStr risk_level);
     ("risk_justification", VStr risk_justification);
     ("impact_analysis",
       VDict [("affected_services", VList (VStr <$> elements services_affected));
              ("affected_regions", VList (VStr <$> elements regions_affected));
              ("potential_impact",
                VStr ("AI analysis unavailable - manual review required for "
                      +:+ pretty event_count +:+ " events across "
                      +:+ pretty (size services_affected) +:+ " services"))]);
     ("recommended_actions",
       VList [recommended_action "High"
                (if negb is_test_mode
                 then "Manual review required - Bedrock AI analysis was unavailable due to rate limiting or service issues"
                 else "TEST MODE: Bedrock analysis skipped for testing purposes")
                "Immediate";
              recommended_action "High"
                ("Review all " +:+ pretty event_count +:+ " health events for account "
                 +:+ account_id)
                "Within 24 hours";
              recommended_action "Medium"
                "Check AWS Health Dashboard for additional context and recommendations"
                "Within 48 hours"]);
     ("business_impact",
       VStr "Impact assessment unavailable - manual review required to determine business implications");
     ("summary",
       VStr ((if is_test_mode then "🧪 TEST MODE: " else "⚠️ MANUAL REVIEW REQUIRED: ")
             +:+ "Bedrock AI analysis was "
             +:+ (if is_test_mode then "skipped for testing" else "unavailable")
             +:+ " for account " +:+ account_id
             +:+ (if is_test_mode then "" else " (likely due to rate limiting)")
             +:+ ". This account has " +:+ pretty event_count
             +:+ " health events that require "
             +:+ (if negb is_test_mode then "manual assessment" else "review")
             +:+ ". Please review the attached event details and consult the AWS Health Dashboard for comprehensive analysis."));
     ("analysis_status",
       VStr (if is_test_mode then "TEST_PLACEHOLDER_ANALYSIS" else "PLACEHOLDER_ANALYSIS"));
     ("manual_review_required", VBool true);
     ("placeholder_reason",
       VStr (if is_test_mode then "TEST_SKIP_BEDROCK flag enabled"
             else "Bedrock AI analysis service was unavailable after multiple attempts (likely rate limiting)"))]).

(** ** Parsing the reply of the model *)

Definition normalize_defaults : list (string * pyval) :=
  [("critical", VBool false);
   ("risk_level", VStr "Low");
   ("account_impact", VStr "Low");
   ("time_sensitivity", VStr "Routine");
   ("risk_category", VStr "Operational");
   ("required_actions", VStr "Review event details");
   ("impact_analysis", VStr "Impact assessment pending");
   ("consequences_if_ignored", VStr "Unknown consequences");
   ("affected_resources", VStr "Unknown resources");
   ("key_date", VNone);
   ("business_impact", VStr "Business impact assessment pending");
   ("summary", VStr "Analysis summary pending")].

(** [for key, default_value in defaults.items(): if key not in analysis: ...] *)
Definition apply_defaults (defaults : list (string * pyval)) (analysis : pydict) : pydict :=
  foldl (λ a kv, match a !! kv.1 with
                 | Some _ => a
                 | None => <[kv.1 := kv.2]> a
                 end) analysis defaults.

(** [analysis[key]] *)
Definition getitem (key : string) (analysis : pydict) : result pyval :=
  match analysis !! key with
  | Some v => Ok v
  | None => Raise (KeyError key)
  end.

Definition normalize_risk_level (analysis : pydict) : pydict :=
  match analysis !! "risk_level" with
  | Some v =>
      let risk_level := upper (strip (py_str v)) in
      if str_in risk_level ["CRITICAL"; "SEVERE"] then
        <["critical" := VBool true]> (<["risk_level" := VStr "Critical"]> analysis)
      else if String.eqb risk_level "HIGH" then <["risk_level" := VStr "High"]> analysis
      else if str_in risk_level ["MEDIUM"; "MODERATE"] then
        <["risk_level" := VStr "Medium"]> analysis
      else if String.eqb risk_level "LOW" then <["risk_level" := VStr "Low"]> analysis
      else analysis
  | None => analysis
  end.

Definition time_sensitivities : list string := ["Critical"; "Urgent"; "Routine"].

Definition normalize_time_sensitivity (analysis : pydict) : pydict :=
  match analysis !! "time_sensitivity" with
  | Some v =>
      let time_sens := title (strip (py_str v)) in
      if negb (str_in time_sens time_sensitivities)
      then <["time_sensitivity" := VStr "Routine"]> analysis
      else <["time_sensitivity" := VStr time_sens]> analysis
  | None => analysis
  end.

Definition normalize_analysis_response (analysis : pydict) : result pydict :=
  let analysis := apply_defaults normalize_defaults analysis in
  let analysis := normalize_risk_level analysis in
  risk ← getitem "risk_level" analysis;
  let analysis :=
    if py_truthy (default (VBool false) (analysis !! "critical"))
       && negb (py_eq_str risk "Critical")
    then <["risk_level" := VStr "Critical"]> analysis
    else analysis in
  mret (normalize_time_sensitivity analysis).

Definition manual_fields : list string :=
  ["account_impact"; "time_sensitivity"; "risk_category"; "required_actions";
   "impact_analysis"; "consequences_if_ignored"; "affected_resources";
   "business_impact"; "summary"].

Definition manual_defaults : list (string * pyval) :=
  [("account_impact", VStr "Medium");
   ("time_sensitivity", VStr "Routine");
   ("risk_category", VStr "Operational");
   ("required_actions", VStr "Review event details manually - automated parsing incomplete");
   ("impact_analysis", VStr "Impact analysis extraction incomplete - manual review required");
   ("consequences_if_ignored", VStr "Consequences assessment incomplete - manual review required");
   ("affected_resources", VStr "Resource identification incomplete - manual review required");
   ("business_impact", VStr "Business impact assessment incomplete - manual review required");
   ("summary", VStr "Analysis summary extraction incomplete - manual review required")].

Section parsing.
Context `{Library}.

Definition extract_fields_manually (response_text : string) : result pydict :=
  let lowered := lower response_text in
  let critical :=
    if contains (dq +:+ "critical" +:+ dq +:+ ": false") lowered
       || contains (dq +:+ "critical" +:+ dq +:+ ":false") lowered then false
    else if contains (dq +:+ "critical" +:+ dq +:+ ": true") lowered
            || contains (dq +:+ "critical" +:+ dq +:+ ":true") lowered then true
    else false in
  let manual_analysis : pydict := {["critical" := VBool critical]} in
  let manual_analysis :=
    match search_field "risk_level" response_text with
    | Some g => <["risk_level" := VStr (title g)]> manual_analysis
    | None => <["risk_level" := VStr "Medium"]> manual_analysis
    end in
  let manual_analysis :=
    foldl (λ a field,
             match search_field field response_text with
             | Some g =>
                 let value := replace "\t" tab (replace "\n" newline g) in
                 <[field := VStr (str_take 500 value)]> a
             | None => a
             end) manual_analysis manual_fields in
  let manual_analysis :=
    match search_field "key_date" response_text with
    | Some date_value =>
        <["key_date" := if String.eqb (lower date_value) "null" then VNone
                        else VStr date_value]> manual_analysis
    | None => <["key_date" := VNone]> manual_analysis
    end in
  normalize_analysis_response (apply_defaults manual_defaults manual_analysis).

Definition parse_bedrock_response (response_text : string) : result pydict :=
  let json_str :=
    match search_json_block response_text with
    | Some g => g
    | None =>
        match search_braces response_text with
        | Some g => g
        | None => response_text
        end
    end in
  let cleaned_json :=
    replace carriage_return "\r" (replace tab "\t" (replace newline "\n" json_str)) in
  match json_loads cleaned_json with
  | Some (JObject analysis) => normalize_analysis_response analysis
  | Some (JValue _) => Raise TypeError
  | None => extract_fields_manually response_text
  end.

End parsing.

Definition create_fallback_analysis (response_text : string) : pydict :=
  list_to_map
    [("critical", VBool false);
     ("risk_level", VStr "Medium");
     ("account_impact", VStr "Medium");
     ("time_sensitivity", VStr "Routine");
     ("risk_category", VStr "Operational");
     ("required_actions", VStr "Manual review required - automated analysis parsing failed");
     ("impact_analysis", VStr "Impact analysis unavailable due to parsing failure - manual review required");
     ("consequences_if_ignored", VStr "Consequences assessment unavailable - manual review required");
     ("affected_resources", VStr "Resource identification unavailable - manual review required");
     ("key_date", VNone);
     ("business_impact", VStr "Business impact assessment unavailable due to parsing failure");
     ("summary", VStr "Analysis parsing failed - manual review of health events required");
     ("analysis_text",
       VStr (if (1000 <? String.length response_text)%nat
             then str_take 1000 response_text +:+ "..." else response_text));
     ("parsing_error", VBool true)].

(** ** The call of the model *)

Definition failure_analysis (justification summary error reason : string) : pydict :=
  list_to_map
    [("risk_level", VStr "Medium");
     ("risk_justification", VStr justification);
     ("summary", VStr summary);
     ("error", VStr error);
     ("manual_review_required", VBool true);
     ("bedrock_failure", VBool true);
     ("failure_reason", VStr reason)].

(** [time.sleep(seconds)] *)
Definition sleep (seconds : Z) : M unit :=
  modify_world (λ w, set_now (w_now w + seconds) w);;
  log_effect (Slept seconds).

(** [bedrock.invoke_model(...)] and the text of [content[0]] of its
    answer; [None] when the answer has no content. *)
Definition invoke_model : M (option string) :=
  log_effect InvokedModel;;
  service_call;;
  w ← get_world;
  match w_replies w with
  | reply :: rest => modify_world (set_replies rest);; mret reply
  | [] => mret None
  end.

Section calling.
Context `{Library}.

(** The body of the loop [for attempt in range(max_retries)]; [retry]
    is the rest of the loop, taken by [continue]. *)
Definition bedrock_attempt (max_retries attempt : Z) (retry : M pydict) : M pydict := λ w,
  match
    (content ← invoke_model;
     match content with
     | Some analysis_text =>
         analysis_result ← lift (parse_bedrock_response analysis_text);
         if bool_decide (analysis_result ≠ ∅)
         then mret (<["analysis_text" := VStr analysis_text]> analysis_result)
         else mret (create_fallback_analysis analysis_text)
     | None =>
         mret (list_to_map
                 [("risk_level", VStr "Low");
                  ("risk_justification", VStr "No analysis content returned from Bedrock");
                  ("summary", VStr "Bedrock analysis completed but no content returned")])
     end) w
  with
  | (Ok r, w') => (Ok r, w')
  | (Raise (ClientError error_code), w') =>
      if String.eqb error_code "ThrottlingException" then
        if attempt <? max_retries - 1 then (sleep (2 ^ attempt);; retry) w'
        else
          (Ok (failure_analysis
                 "Analysis failed due to persistent Bedrock throttling"
                 "Unable to complete Bedrock analysis due to throttling after multiple attempts"
                 "Bedrock throttling"
                 "Persistent Bedrock throttling after multiple retry attempts"), w')
      else
        (Ok (failure_analysis
               ("Analysis failed due to Bedrock error: " +:+ error_code)
               ("Unable to complete Bedrock analysis due to " +:+ error_code)
               ("Bedrock error: " +:+ error_code)
               ("Bedrock service error: " +:+ error_code +:+ " - "
                +:+ exn_text (ClientError error_code))), w')
  | (Raise e, w') =>
      if attempt <? max_retries - 1 then (sleep (2 ^ attempt);; retry) w'
      else
        (Ok (failure_analysis
               ("Analysis failed due to unexpected error: " +:+ exn_text e)
               "Unable to complete Bedrock analysis due to unexpected error"
               ("Unexpected error: " +:+ exn_text e)
               ("Unexpected error during Bedrock analysis: " +:+ exn_text e)), w')
  end.

Fixpoint bedrock_attempts (max_retries : Z) (attempts : list Z) : M pydict :=
  match attempts with
  | [] =>
      mret (failure_analysis
              "Analysis failed due to repeated Bedrock errors"
              "Unable to complete Bedrock analysis after multiple attempts"
              "Bedrock analysis failed"
              "Bedrock analysis failed after multiple retry attempts")
  | attempt :: rest =>
      bedrock_attempt max_retries attempt (bedrock_attempts max_retries rest)
  end.

(** [call_bedrock_with_retry(prompt, max_retries=3)] *)
Definition call_bedrock_with_retry (max_retries : nat) : M pydict :=
  bedrock_attempts (Z.of_nat max_retries) (Z.of_nat <$> seq 0 max_retries).

Definition analyze_with_bedrock (message : Message) : M pydict :=
  test_skip_bedrock ← getenv TEST_SKIP_BEDROCK;
  if str_in (lower (default "false" test_skip_bedrock)) test_mode_values then
    placeholder_analysis ← create_placeholder_analysis message;
    mret (<["placeholder_reason" := VStr "TEST_SKIP_BEDROCK flag enabled"]>
            (<["test_mode" := VBool true]> placeholder_analysis))
  else if negb (str_truthy (m_bedrock_payload message)) then
    mret (list_to_map
            [("risk_level", VStr "Low");
             ("risk_justification", VStr "No events to analyze");
             ("summary", VStr "No health events found for analysis")])
  else call_bedrock_with_retry 3.

(** ** The handler of the analysis queue *)

Definition max_retries : Z := 3.

(** [if message:] on the decoded body. *)
Definition message_truthy (message : Message) : bool :=
  bool_decide (is_Some (m_workflow_id message))
  || bool_decide (is_Some (m_account_id message))
  || bool_decide (is_Some (m_email_mapping message))
  || bool_decide (is_Some (m_processed_events message))
  || bool_decide (is_Some (m_event_count message))
  || bool_decide (is_Some (m_bedrock_payload message))
  || m_other_keys message.

(** [message['workflow_id']] *)
Definition message_workflow_id (message : Message) : M string :=
  match m_workflow_id message with
  | Some wid => mret wid
  | None => raise (KeyError "workflow_id")
  end.

(** The store of a result for the message of a record; an exception of
    [store_workflow_result] is noted in the log of effects on its way
    out. *)
Definition store_analysis (message : Message) (account_id : string)
    (analysis_result : pydict) : M unit :=
  wid ← message_workflow_id message;
  try_except
    (shared_utils.store_workflow_result wid account_id
       (AnalysisData analysis_result (m_email_mapping message)
          (default [] (m_processed_events message))
          (default 0 (m_event_count message))))
    (λ e, log_effect StoreFailed;; raise e).

(** A placeholder tagged as the main path of the handler tags it. *)
Definition tagged_placeholder (message : Message) (retry_count : Z)
    (failure_reason : string) : M pydict :=
  analysis_result ← create_placeholder_analysis message;
  mret (<["failure_reason" := VStr failure_reason]>
          (<["retry_count" := VInt retry_count]>
             (<["bedrock_failure" := VBool true]> analysis_result))).

(** The body of the [try] of the loop over the records, after the body
    of the record is decoded. *)
Definition process_message (record : SqsRecord Message) (message : Message) : M Ack :=
  let account_id := default "unknown" (m_account_id message) in
  let retry_count := get_message_retry_count record in
  step ←
    (if max_retries <=? retry_count then
       Some <$> tagged_placeholder message retry_count "Exceeded maximum retry attempts"
     else
       allowed ← check_bedrock_rate_limit;
       if negb allowed then
         if retry_count <? max_retries - 1 then mret None
         else Some <$> tagged_placeholder message retry_count
                         "Rate limit exceeded after maximum retries"
       else
         try_except
           (analysis_result ← analyze_with_bedrock message;
            mret (Some (<["retry_count" := VInt retry_count]>
                          (<["bedrock_failure" := VBool false]> analysis_result))))
           (λ bedrock_error,
              Some <$> tagged_placeholder message retry_count
                         ("Bedrock analysis failed: " +:+ exn_text bedrock_error)));
  match step with
  | None => mret Requeued            (* failed_messages.append(...); continue *)
  | Some analysis_result =>
      store_analysis message account_id analysis_result;;
      mret Acked
  end.

(** The [try] inside the handlers of exceptions: a placeholder is built
    and stored. *)
Definition store_placeholder (message : Message) (failure_reason : string) : M Ack :=
  analysis_result ← create_placeholder_analysis message;
  let analysis_result :=
    <["failure_reason" := VStr failure_reason]>
      (<["bedrock_failure" := VBool true]> analysis_result) in
  store_analysis message (default "unknown" (m_account_id message)) analysis_result;;
  mret Acked.

(** The placeholder of an [except] clause, for what the body of the
    record decoded to: on a value that is not an object
    [create_placeholder_analysis] raises at its first [message.get]. *)
Definition fallback_placeholder (message : Decoded Message) (failure_reason : string)
    : M Ack :=
  match message with
  | Object m => store_placeholder m failure_reason
  | _ => raise AttributeError
  end.

(** [if message:] in an [except] clause. *)
Definition decoded_truthy (message : Decoded Message) : bool :=
  match message with
  | Object m => message_truthy m
  | NotObject truthy => truthy
  | Undecodable => false            (* message is still None *)
  end.

(** [except ClientError as e] *)
Definition on_client_error (record : SqsRecord Message) (message : Decoded Message)
    (code : string) : M Ack :=
  if String.eqb code "ThrottlingException" then
    update_rate_limit_backoff;;
    let retry_count := get_message_retry_count record in
    if 2 <=? retry_count then
      try_except
        (fallback_placeholder message "Persistent Bedrock throttling")
        (λ _, mret Acked)
    else mret Requeued
  else
    try_except
      (if decoded_truthy message
       then fallback_placeholder message ("Bedrock error: " +:+ code)
       else mret Requeued)
      (λ _, mret Acked).

(** [except Exception as e] *)
Definition on_exception (message : Decoded Message) (e : exn) : M Ack :=
  try_except
    (if decoded_truthy message
     then fallback_placeholder message ("Unexpected error: " +:+ exn_text e)
     else mret Requeued)
    (λ _, mret Acked).

(** The choice between the two [except] clauses. *)
Definition except_clauses (record : SqsRecord Message) (message : Decoded Message)
    (e : exn) : M Ack :=
  match e with
  | ClientError code => on_client_error record message code
  | _ => on_exception message e
  end.

Definition process_record (record : SqsRecord Message) : M Ack :=
  match decoded record with
  | Undecodable => except_clauses record Undecodable JSONDecodeError
  | NotObject truthy =>
      (* message.get('account_id', 'unknown') raises *)
      except_clauses record (NotObject truthy) AttributeError
  | Object message =>
      try_except (process_message record message)
        (except_clauses record (Object message))
  end.

Fixpoint process_records (records : list (SqsRecord Message)) (b : Batch) : M Batch :=
  match records with
  | [] => mret b
  | record :: rest =>
      a ← process_record record;
      process_records rest (batch_add (receiptHandle record) a b)
  end.

Definition lambda_handler (records : list (SqsRecord Message)) : M (Batch * BatchResponse) :=
  b ← process_records records {| successful_messages := []; failed_messages := [] |};
  mret (b, batch_response b).

End calling.

End bedrock_analyzer.

(** * src/email_queue_manager.py *)

Module email_queue_manager.

Record CoordinatorEvent : Type := {
  ev_workflow_id : option string;       (* event['workflow_id'] *)
  ev_total_accounts : option Z;         (* event['total_accounts'] *)
  fallback_mode : option bool;
  triggered_by : option string
}.

Record CompletionStatus : Type := {
  all_complete : bool;
  completed_count : Z;
  total_accounts : Z;
  results : list ResultItem
}.

Definition check_workflow_completion (wid : string) (total : Z) : M CompletionStatus :=
  try_except
    (results ← shared_utils.get_workflow_results wid;
     let completed_count := Z.of_nat (length results) in
     mret {| all_complete := total <=? completed_count;
             completed_count := completed_count;
             total_accounts := total;
             results := if total <=? completed_count then results else [] |})
    (λ _, mret {| all_complete := false; completed_count := 0;
                  total_accounts := total; results := [] |}).

Definition EMAIL_QUEUED_MARKER : string := "EMAIL_QUEUED_MARKER".

Definition check_emails_already_queued (wid : string) : M bool :=
  try_except
    (table_name ← getenv WORKFLOW_RESULTS_TABLE;
     table_call table_name;;
     w ← get_world;
     mret (bool_decide (is_Some (w_results w !! (wid, EMAIL_QUEUED_MARKER)))))
    (λ _, mret false).

Definition mark_emails_as_queued (wid : string) : M bool :=
  try_except
    (table_name ← getenv WORKFLOW_RESULTS_TABLE;
     now ← time_time;
     try_except
       (conditional_put table_name
          {| workflow_id := wid; account_id := EMAIL_QUEUED_MARKER;
             result_data := QueuedMarkerData now "emails_queued";
             status := "EMAIL_MARKER"; timestamp := now;
             ttl := now + 7 * 24 * 60 * 60 |};;
        mret true)
       (λ e, match e with
             | ClientError code =>
                 if String.eqb code "ConditionalCheckFailedException" then mret false
                 else raise e
             | _ => raise e
             end))
    (λ _, mret false).

(** [result.get('result_data', {}).get('email_mapping')] *)
Definition email_mapping_of (r : ResultItem) : option string :=
  match result_data r with
  | AnalysisData _ email_mapping _ _ => email_mapping
  | _ => None
  end.

Definition group_results_by_email (all_results : list ResultItem)
    : odict (list ResultItem) :=
  foldl (λ email_groups r,
           match email_mapping_of r with
           | Some email_mapping =>
               if str_truthy (Some email_mapping)
               then dict_append email_mapping r email_groups
               else email_groups
           | None => email_groups
           end) [] all_results.

(** An entry of [queued_emails]. *)
Record QueuedEmail : Type := {
  q_email : string;
  q_accounts : option nat;
  q_recipients : option (list string);
  q_message_id : string;
  q_type : string
}.

Record QueueResults : Type := {
  total_emails_queued : nat;
  queued_emails : list QueuedEmail;
  q_status : option string;                  (* 'status' *)
  race_condition_detected : option bool;
  q_workflow_id : string
}.

(** [sqs.send_message(...)]: the message is accepted and its identifier
    returned. *)
Definition send_message (m : SqsMessage) : M string :=
  queue_call;;
  w ← get_world;
  modify_world (set_queue (w_queue w ++ [m]));;
  mret ("message-" +:+ pretty (length (w_queue w))).

Section queueing.
Context `{Library}.

(** [hashlib.md5(json.dumps(sorted([r.get('account_id') for r in rs]),
    default=str).encode()).hexdigest()[:8]] *)
Definition content_hash (rs : list ResultItem) : string :=
  str_take 8 (md5_hexdigest (json_dumps (sorted (account_id <$> rs)))).

(** One turn of the loop over the groups: a failure of the send is
    printed and the loop goes on. *)
Definition queue_account_email (wid email_queue_url : string)
    (queued : list QueuedEmail) (group : string * list ResultItem)
    : M (list QueuedEmail) :=
  let '(email_address, account_results) := group in
  try_except
    (now ← time_time;
     let dedup_id := wid +:+ "-" +:+ email_address +:+ "-"
                     +:+ content_hash account_results +:+ "-account" in
     message_id ← send_message
       {| QueueUrl := email_queue_url;
          MessageBody := AccountSpecific email_address wid account_results now;
          MessageGroupId := "account-" +:+ email_address;
          MessageDeduplicationId := dedup_id |};
     mret (queued ++ [{| q_email := email_address;
                         q_accounts := Some (length account_results);
                         q_recipients := None;
                         q_message_id := message_id;
                         q_type := "account_specific" |}]))
    (λ _, mret queued).

Fixpoint queue_account_emails (wid email_queue_url : string)
    (groups : odict (list ResultItem)) (queued : list QueuedEmail)
    : M (list QueuedEmail) :=
  match groups with
  | [] => mret queued
  | group :: rest =>
      queued' ← queue_account_email wid email_queue_url queued group;
      queue_account_emails wid email_queue_url rest queued'
  end.

Definition queue_master_report (wid email_queue_url : string)
    (all_results : list ResultItem) (queued : list QueuedEmail)
    : M (list QueuedEmail) :=
  try_except
    (recipients ← getenv RECIPIENT_EMAILS;
     let default_recipients :=
       filter (λ email, email ≠ "") (strip <$> split_comma (default "" recipients)) in
     match default_recipients with
     | [] => mret queued
     | _ =>
         now ← time_time;
         let dedup_id := wid +:+ "-" +:+ content_hash all_results +:+ "-master-report" in
         message_id ← send_message
           {| QueueUrl := email_queue_url;
              MessageBody := MasterReport default_recipients wid all_results now;
              MessageGroupId := "master-report";
              MessageDeduplicationId := dedup_id |};
         mret (queued ++ [{| q_email := "master_report";
                             q_accounts := None;
                             q_recipients := Some default_recipients;
                             q_message_id := message_id;
                             q_type := "master_report" |}])
     end)
    (λ _, mret queued).

Definition queue_email_notifications (wid : string) (all_results : list ResultItem)
    : M QueueResults :=
  already ← check_emails_already_queued wid;
  if (already : bool) then
    mret (M := M)
      {| total_emails_queued := 0; queued_emails := [];
         q_status := Some "already_queued"; race_condition_detected := None;
         q_workflow_id := wid |}
  else
    queue_url ← getenv EMAIL_NOTIFICATION_QUEUE_URL;
    match queue_url with
    | None => raise (KeyError "EMAIL_NOTIFICATION_QUEUE_URL")
    | Some email_queue_url =>
        let emails_to_send := group_results_by_email all_results in
        test_master ← getenv TEST_MASTER_EMAIL_ONLY;
        let test_master_only := env_flag test_master in
        queued ← (if test_master_only then mret []
                  else queue_account_emails wid email_queue_url emails_to_send []);
        queued ← queue_master_report wid email_queue_url all_results queued;
        marked_successfully ← mark_emails_as_queued wid;
        mret {| total_emails_queued := length queued; queued_emails := queued;
                q_status := None;
                race_condition_detected := Some (negb marked_successfully);
                q_workflow_id := wid |}
    end.

Record HandlerResult : Type := {
  h_workflow_id : string;
  h_completion_status : CompletionStatus;
  h_email_queue_results : QueueResults;
  h_status : string
}.

Definition lambda_handler (event : CoordinatorEvent) : M HandlerResult :=
  match ev_workflow_id event with
  | None => raise (KeyError "workflow_id")
  | Some wid =>
      match ev_total_accounts event with
      | None => raise (KeyError "total_accounts")
      | Some total =>
          completion_status ← check_workflow_completion wid total;
          if negb (all_complete completion_status) then
            raise (IncompleteWorkflowException
                     ("Workflow " +:+ wid +:+ " incomplete: "
                      +:+ pretty (completed_count completion_status) +:+ "/"
                      +:+ pretty total +:+ " accounts processed"))
          else
            email_results ← queue_email_notifications wid (results completion_status);
            mret {| h_workflow_id := wid;
                    h_completion_status := completion_status;
                    h_email_queue_results := email_results;
                    h_status := "emails_queued" |}
      end
  end.

End queueing.

End email_queue_manager.

(** * email_sender.py *)

Module email_sender.

(** The decoded body of a record of the notification queue. *)
Record EmailMessage : Type := {
  email_type : option string;
  em_email_address : option string;
  em_account_results : option (list ResultItem);
  em_workflow_id : option string;
  em_email_addresses : option (list string);
  em_all_results : option (list ResultItem)
}.

Definition get_message_retry_count {B} (record : SqsRecord B) : Z :=
  match py_int (default "1" (ApproximateReceiveCount record)) with
  | Some receive_count => receive_count - 1
  | None => 0
  end.

Definition EMAIL_SENT_MARKER : string := "EMAIL_SENT_MARKER".

Definition check_email_already_sent (email_key : string) : M bool :=
  try_except
    (table_name ← getenv WORKFLOW_RESULTS_TABLE;
     table_call table_name;;
     w ← get_world;
     mret (bool_decide (is_Some (w_results w !! (email_key, EMAIL_SENT_MARKER)))))
    (λ _, mret false).

Definition mark_email_as_sent (email_key : string) : M bool :=
  try_except
    (table_name ← getenv WORKFLOW_RESULTS_TABLE;
     now ← time_time;
     try_except
       (conditional_put table_name
          {| workflow_id := email_key; account_id := EMAIL_SENT_MARKER;
             result_data := SentMarkerData now "email_sent";
             status := "EMAIL_SENT"; timestamp := now;
             ttl := now + 7 * 24 * 60 * 60 |};;
        mret true)
       (λ e, match e with
             | ClientError code =>
                 if String.eqb code "ConditionalCheckFailedException" then mret false
                 else raise e
             | _ => raise e
             end))
    (λ _, mret false).

(** [message[key]] *)
Definition required {A} (key : string) (v : option A) : M A :=
  match v with
  | Some a => mret a
  | None => raise (KeyError key)
  end.

(** [send_email_with_attachment]: the report is rendered and handed to
    SES in one scripted step; every failure of it (an unverified
    recipient in sandbox mode, an error of SES) makes it return [False]. *)
Definition send_email_with_attachment (recipients : list string) : M bool :=
  try_except
    (sender ← getenv SENDER_EMAIL;
     _ ← required "SENDER_EMAIL" sender;
     service_call;;
     log_effect (Delivered recipients);;
     mret true)
    (λ _, mret false).

Definition send_account_specific_email (message : EmailMessage) : M bool :=
  log_effect (SendAttempt "account_specific");;
  try_except
    (test_master ← getenv TEST_MASTER_EMAIL_ONLY;
     if env_flag test_master then mret true
     else
       email_address ← required "email_address" (em_email_address message);
       _ ← required "account_results" (em_account_results message);
       wid ← required "workflow_id" (em_workflow_id message);
       let email_key := wid +:+ "-" +:+ email_address +:+ "-account" in
       sent ← check_email_already_sent email_key;
       if (sent : bool) then mret true
       else
         success ← send_email_with_attachment [email_address];
         (if (success : bool) then mark_email_as_sent email_key else mret false);;
         mret success)
    (λ _, mret false).

Definition send_master_report_email (message : EmailMessage) : M bool :=
  log_effect (SendAttempt "master_report");;
  try_except
    (email_addresses ← required "email_addresses" (em_email_addresses message);
     _ ← required "all_results" (em_all_results message);
     wid ← required "workflow_id" (em_workflow_id message);
     let email_key := wid +:+ "-master-report" in
     sent ← check_email_already_sent email_key;
     if (sent : bool) then mret true
     else
       success ← send_email_with_attachment email_addresses;
       (if (success : bool) then mark_email_as_sent email_key else mret false);;
       mret success)
    (λ _, mret false).

Definition max_retries : Z := 3.

(** The body of the [try] of the loop over the records, after the body
    of the record is decoded. *)
(** The send that the type of the email selects. *)
Definition send_by_type (ty : string) (message : EmailMessage) : M bool :=
  if String.eqb ty "account_specific" then send_account_specific_email message
  else if String.eqb ty "master_report" then send_master_report_email message
  else mret false.

Definition process_message (record : SqsRecord EmailMessage) (message : EmailMessage)
    : M Ack :=
  ty ← required "email_type" (email_type message);
  let retry_count := get_message_retry_count record in
  if max_retries <=? retry_count then mret Acked
  else
    success ← send_by_type ty message;
    if (success : bool) then mret Acked
    else if retry_count <? max_retries - 1 then mret Requeued
    else mret Acked.

(** [except Exception as e] *)
Definition on_exception (record : SqsRecord EmailMessage) : M Ack :=
  let retry_count := get_message_retry_count record in
  if max_retries - 1 <=? retry_count then mret Acked else mret Requeued.

Definition process_record (record : SqsRecord EmailMessage) : M Ack :=
  match decoded record with
  | Object message =>
      try_except (process_message record message) (λ _, on_exception record)
  | _ =>
      (* json.loads raises, or message['email_type'] does on a value that
         is not an object *)
      on_exception record
  end.

Fixpoint process_records (records : list (SqsRecord EmailMessage)) (b : Batch) : M Batch :=
  match records with
  | [] => mret b
  | record :: rest =>
      a ← process_record record;
      process_records rest (batch_add (receiptHandle record) a b)
  end.

Definition lambda_handler (records : list (SqsRecord EmailMessage))
    : M (Batch * BatchResponse) :=
  b ← process_records records {| successful_messages := []; failed_messages := [] |};
  mret (b, batch_response b).

End email_sender.
Import shared_utils bedrock_analyzer.

(** ** Concrete worlds, for the examples *)

Definition example_env : Env :=
  {| WORKFLOW_RESULTS_TABLE := Some "workflow-results";
     BEDROCK_RATE_LIMITER_TABLE := Some "bedrock-rate-limiter";
     EMAIL_NOTIFICATION_QUEUE_URL := Some "https://sqs.example/email.fifo";
     TEST_MASTER_EMAIL_ONLY := None;
     RECIPIENT_EMAILS := Some "ops@example.com";
     TEST_SKIP_BEDROCK := None;
     USE_CUSTOM_ACCOUNT_EMAIL_MAPPING := Some "true";
     USE_ORGANIZATION_ACCOUNT_EMAIL_MAPPING := Some "true";
     ACCOUNT_EMAIL_MAPPING_TABLE := Some "account-email-mapping";
     SENDER_EMAIL := Some "health@example.com" |}.

Definition fresh_world : World :=
  {| w_env := example_env; w_now := 0; w_results := ∅; w_limiter := None;
     w_queue := []; w_faults := []; w_queue_faults := []; w_replies := [];
     w_org_accounts := []; w_mapping_rows := []; w_log := [] |}.

(** A limiter row whose window started at time 0, with [calls] calls
    counted and the ceiling [k]. *)
Definition limiter_row (calls k : Z) : LimiterItem :=
  {| last_call_time := 0; calls_this_minute := calls;
     max_calls_per_minute := k; limiter_ttl := 3600 |}.

Definition limiter_world (calls k : Z) : World :=
  set_limiter (Some (limiter_row calls k)) fresh_world.

(** The ceiling after a backoff as the specification words it: lowered
    by the decrement 2 and never below the floor 2. It follows the words
    of the specification, not the code, and serves the comparison with
    what [update_rate_limit_backoff] leaves in the row. *)
Definition spec_backoff_ceiling (ceiling : Z) : Z := Z.max 2 (ceiling - 2).

(** What the window that starts at [T] can still take, from a row:
    the calls left under the ceiling and, when the row's own window
    started before [T], the call that resets it and a full ceiling after. *)
Definition window_budget (T k : Z) (item : LimiterItem) : Z :=
  if T <=? last_call_time item then Z.max 0 (k - calls_this_minute item)
  else Z.max 0 (k - calls_this_minute item) + 1 + k.


(** ** What a normalised analysis is *)

(** Every field of the defaults is present, the time sensitivity is one
    of the three known values, and a critical flag that holds comes with
    the risk level [Critical]. *)
Definition normalized (d : pydict) : Prop :=
  (∀ k, k ∈ normalize_defaults.*1 → is_Some (d !! k))
  ∧ (∃ ts, d !! "time_sensitivity" = Some (VStr ts) ∧ ts ∈ time_sensitivities)
  ∧ (∀ v, d !! "critical" = Some v → py_truthy v = true →
          d !! "risk_level" = Some (VStr "Critical")).

(** The text of a risk level that the normalisation reads as critical. *)
Definition reads_as_critical (v : pyval) : Prop :=
  str_in (upper (strip (py_str v))) ["CRITICAL"; "SEVERE"] = true.

(** A library whose decoder rejects every text and whose searches find
    nothing, for the examples that never reach the model. *)
Definition plain_library : Library :=
  {| json_loads := λ _, None;
     json_dumps := λ l, "[" +:+ join ", " l +:+ "]";
     md5_hexdigest := λ s, s;
     search_json_block := λ _, None;
     search_braces := λ _, None;
     search_field := λ _ _, None |}.

(** ** Frames of the handlers *)

(** The effects of a call of the model. *)
Definition model_effect (e : Effect) : Prop :=
  e = InvokedModel ∨ ∃ seconds, e = Slept seconds.

(** [steady P w w']: from [w] to [w'] the environment and the results
    table are unchanged, a script of service calls that was used up is
    still used up, and the log has grown by effects that satisfy [P]. *)
Definition steady (P : Effect → Prop) (w w' : World) : Prop :=
  w_env w' = w_env w
  ∧ w_results w' = w_results w
  ∧ (w_faults w = [] → w_faults w' = [])
  ∧ ∃ new, w_log w' = w_log w ++ new ∧ Forall P new.

(** The results table can be written: its name is configured and the
    coming service calls go through. *)
Definition store_available (w : World) : Prop :=
  str_truthy (WORKFLOW_RESULTS_TABLE (w_env w)) = true ∧ w_faults w = [].

(** The row [store_analysis] writes. *)
Definition analysis_row (message : Message) (wid aid : string) (a : pydict) (now : Z)
    : ResultItem :=
  {| workflow_id := wid; account_id := aid;
     result_data := AnalysisData a (m_email_mapping message)
                      (default [] (m_processed_events message))
                      (default 0 (m_event_count message));
     status := "COMPLETED"; timestamp := now; ttl := now + 7 * 24 * 60 * 60 |}.


(** The end of the main path of a record: the store, then the
    acknowledgement. *)
Definition then_ack (r : result unit * World) : result Ack * World :=
  match r with
  | (Ok _, w') => (Ok Acked, w')
  | (Raise e, w') => (Raise e, w')
  end.

(** The effects of a call of the store. *)
Definition store_effect (e : Effect) : Prop :=
  e = StoreFailed ∨ ∃ wid aid, e = StoredResult wid aid.



(** What the store of a result for [message] under the account [aid] did
    between the worlds [w] and [w'], told by the effects [new] that it
    added to the log: the row was written; or [store_workflow_result]
    raised; or the message has no [workflow_id] and the store was not
    called. *)
Definition store_outcome (message : Message) (aid : string) (w w' : World)
    (new : list Effect) : Prop :=
  (∃ wid, m_workflow_id message = Some wid
          ∧ new = [StoredResult wid aid]
          ∧ is_Some (w_results w' !! (wid, aid)))
  ∨ (∃ wid, m_workflow_id message = Some wid
            ∧ new = [StoreFailed]
            ∧ w_results w' = w_results w)
  ∨ (m_workflow_id message = None ∧ new = [] ∧ w_results w' = w_results w).

(** ** Records and messages of the examples *)

Definition example_message : Message :=
  {| m_workflow_id := Some "2026-01-01-00-00-00-1767225600";
     m_account_id := Some "111122223333";
     m_email_mapping := Some "owner@example.com";
     m_processed_events :=
       Some [{| ev_severity := Some "critical"; ev_service := Some "EC2";
                ev_region := Some "us-east-1" |}];
     m_event_count := Some 1;
     m_bedrock_payload := None;
     m_other_keys := false |}.

(** A record delivered for the [receives]-th time. *)
Definition example_record (receives : string) : SqsRecord Message :=
  {| decoded := Object example_message; receiptHandle := "handle-1";
     ApproximateReceiveCount := Some receives |}.


(** ** The notification set of a workflow *)

Import email_queue_manager.

Section notification_set.
Context `{Library}.

(** The message of one group of results. *)
Definition account_message (wid email_queue_url : string) (now : Z)
    (group : string * list ResultItem) : SqsMessage :=
  {| QueueUrl := email_queue_url;
     MessageBody := AccountSpecific group.1 wid group.2 now;
     MessageGroupId := "account-" +:+ group.1;
     MessageDeduplicationId :=
       wid +:+ "-" +:+ group.1 +:+ "-" +:+ content_hash group.2 +:+ "-account" |}.

Definition default_recipients_of (env : Env) : list string :=
  filter (λ email, email ≠ "") (strip <$> split_comma (default "" (RECIPIENT_EMAILS env))).

Definition master_message (wid email_queue_url : string) (now : Z)
    (recipients : list string) (all_results : list ResultItem) : SqsMessage :=
  {| QueueUrl := email_queue_url;
     MessageBody := MasterReport recipients wid all_results now;
     MessageGroupId := "master-report";
     MessageDeduplicationId :=
       wid +:+ "-" +:+ content_hash all_results +:+ "-master-report" |}.

(** The address a result is sent to: its email mapping, when it has one
    that is not empty. *)
Definition recipient (r : ResultItem) : option string :=
  match email_mapping_of r with
  | Some email => if String.eqb email "" then None else Some email
  | None => None
  end.

(** The elements of a list, each once, in the order in which they first
    appear. *)
Fixpoint first_occurrences (l : list string) : list string :=
  match l with
  | [] => []
  | x :: rest => x :: filter (λ y, y ≠ x) (first_occurrences rest)
  end.

Definition addresses (all_results : list ResultItem) : list string :=
  first_occurrences (omap recipient all_results).

(** The groups of a dispatch, from the results alone: one group for every
    address that some result is sent to, in the order in which the
    addresses first appear among the results, each with all the results
    sent to the address, in their order. This definition does not follow
    the dictionary of the code; [group_results_by_email] is compared
    with it. *)
Definition notification_groups (all_results : list ResultItem)
    : list (string * list ResultItem) :=
  (λ email, (email, filter (λ r, recipient r = Some email) all_results))
    <$> addresses all_results.

(** The notification set of a workflow: one message for each group,
    unless only the master report is wanted, and the master report when
    there are default recipients. *)
Definition notification_set (env : Env) (now : Z) (wid email_queue_url : string)
    (all_results : list ResultItem) : list SqsMessage :=
  (if env_flag (TEST_MASTER_EMAIL_ONLY env) then []
   else account_message wid email_queue_url now <$> notification_groups all_results)
  ++ match default_recipients_of env with
     | [] => []
     | recipients => [master_message wid email_queue_url now recipients all_results]
     end.

(** The messages that the queue accepts of the messages sent to it one
    after the other, under the script of its answers: a send that the
    script refuses leaves no message, and when the script is used up
    every send is accepted. *)
Fixpoint accepted_by (script : list (option exn)) (messages : list SqsMessage)
    {struct messages} : list SqsMessage :=
  match messages, script with
  | [], _ => []
  | m :: rest, [] => m :: rest
  | m :: rest, None :: script' => m :: accepted_by script' rest
  | m :: rest, Some _ :: script' => accepted_by script' rest
  end.

(** The answer of an invocation that finds the marker. *)
Definition already_queued (wid : string) : QueueResults :=
  {| total_emails_queued := 0; queued_emails := [];
     q_status := Some "already_queued"; race_condition_detected := None;
     q_workflow_id := wid |}.

(** Invocations of the coordinator's dispatch one after the other, each
    at its time and with the results it was handed. *)
Fixpoint invocations (wid : string) (calls : list (Z * list ResultItem)) (w : World)
    : list (result QueueResults) * World :=
  match calls with
  | [] => ([], w)
  | (t, all_results) :: rest =>
      let '(r, w1) := queue_email_notifications wid all_results (set_now t w) in
      let '(rs, w2) := invocations wid rest w1 in
      (r :: rs, w2)
  end.

End notification_set.

(** ** A workflow after its dispatch *)

Definition account_row (wid aid : string) : ResultItem :=
  {| workflow_id := wid; account_id := aid;
     result_data := AnalysisData ∅ (Some "owner@example.com") [] 0;
     status := "COMPLETED"; timestamp := 0; ttl := 604800 |}.

Definition marker_row (wid : string) : ResultItem :=
  {| workflow_id := wid; account_id := EMAIL_QUEUED_MARKER;
     result_data := QueuedMarkerData 0 "emails_queued";
     status := "EMAIL_MARKER"; timestamp := 0; ttl := 604800 |}.

(** Two accounts of the workflow have their result. *)
Definition two_results_world : World :=
  set_results (<[("wf", "222222222222") := account_row "wf" "222222222222"]>
                 (<[("wf", "111111111111") := account_row "wf" "111111111111"]> ∅))
    fresh_world.

(** The same table with the marker of the dispatch. *)
Definition two_results_and_marker_world : World :=
  set_results (<[("wf", EMAIL_QUEUED_MARKER) := marker_row "wf"]>
                 (w_results two_results_world))
    fresh_world.

Definition example_email : email_sender.EmailMessage :=
  {| email_sender.email_type := Some "master_report";
     email_sender.em_email_address := None;
     email_sender.em_account_results := None;
     email_sender.em_workflow_id := Some "wf";
     email_sender.em_email_addresses := Some ["ops@example.com"];
     email_sender.em_all_results := Some [] |}.

Definition email_record (receives : string) : SqsRecord email_sender.EmailMessage :=
  {| decoded := Object example_email; receiptHandle := "handle-9";
     ApproximateReceiveCount := Some receives |}.

(** ** Well-formed dictionaries and an organization of the examples *)

(** The keys of a dictionary are distinct and none of its values is the
    empty string. *)
Definition email_dict (d : odict string) : Prop :=
  NoDup d.*1 ∧ ∀ k v, dict_get k d = Some v → v ≠ "".

Definition mapping_world : World :=
  {| w_env := example_env; w_now := 0; w_results := ∅; w_limiter := None;
     w_queue := []; w_faults := []; w_queue_faults := []; w_replies := [];
     w_org_accounts :=
       [{| Id := "111111111111"; Name := Some "prod"; Email := Some "prod@example.com" |};
        {| Id := "222222222222"; Name := Some "dev"; Email := Some "dev@example.com" |}];
     w_mapping_rows :=
       [{| AccountId := Some "111111111111"; MappingEmail := Some "prod@example.com" |};
        {| AccountId := Some "222222222222"; MappingEmail := Some "team@example.com" |};
        {| AccountId := Some "333333333333"; MappingEmail := Some "new@example.com" |}];
     w_log := [] |}.

(** Two later invocations of the dispatch, at seconds 6 and 7. *)
Definition later_calls : list (Z * list ResultItem) := [(6, []); (7, [])].

(** The table after a dispatch, with a results table whose next call
    raises. *)
Definition unreadable_marker_world : World :=
  set_faults [Some (ClientError "InternalServerError")] two_results_and_marker_world.

(** A world whose queue refuses the next two sends, while the results
    table answers every call. *)
Definition refusing_queue_world : World :=
  set_queue_faults [Some (ClientError "ServiceUnavailable");
                    Some (ClientError "ServiceUnavailable")] fresh_world.

(** ** Further runs and examples *)

(** Calls of the model and seconds slept, in a log of effects. *)
Definition invoked_count (log : list Effect) : nat :=
  length (filter (λ e, e = InvokedModel) log).

Fixpoint slept_total (log : list Effect) : Z :=
  match log with
  | [] => 0
  | Slept seconds :: rest => seconds + slept_total rest
  | _ :: rest => slept_total rest
  end.

(** The seconds the retry loop may sleep: [2 ^ attempt] after every
    attempt but the last. *)
Fixpoint sleep_budget (max_retries : Z) (attempts : list Z) : Z :=
  match attempts with
  | [] => 0
  | attempt :: rest =>
      (if attempt <? max_retries - 1 then 2 ^ attempt else 0)
      + sleep_budget max_retries rest
  end.

(** What a run of the retry loop may do: it returns an analysis, the
    results table is as before, and the log grows by at most [calls]
    calls of the model and [seconds] seconds of sleep, which is also what
    the clock advances. *)
Definition bounded_run (calls : nat) (seconds : Z) (m : M pydict) (w : World) : Prop :=
  ∃ d w' new,
    m w = (Ok d, w')
    ∧ w_log w' = w_log w ++ new
    ∧ (invoked_count new ≤ calls)%nat
    ∧ 0 ≤ slept_total new ≤ seconds
    ∧ w_now w' = w_now w + slept_total new
    ∧ w_results w' = w_results w.

(** * Properties *)

(** ** The rate limiter *)

(** Unfolding of the monad operations. *)
Ltac munfold :=
  unfold try_except, raise, getenv, get_world, log_effect, modify_world,
    time_time, table_call, service_call, mbind, M_bind, mret, M_ret in *.

Section limiter_facts.

Lemma check_rate_limit_total (w : World) :
  ∃ b w', check_bedrock_rate_limit w = (Ok b, w').
Proof.
  unfold check_bedrock_rate_limit, try_except.
  match goal with |- context [match ?m w with _ => _ end] => destruct (m w) as [[b|e] w'] end;
    eauto.
Qed.

(** On an available table that holds a row, a call is the transition
    [limiter_step] of the row. *)
Lemma call_at_step (t : Z) (w : World) (item : LimiterItem) :
  limiter_available w →
  w_limiter w = Some item →
  ∃ w', call_at t w = (Ok (limiter_step t item).1, w')
        ∧ w_limiter w' = Some (limiter_step t item).2
        ∧ limiter_available w'.
Proof.
  intros [Henv Hf] Hl.
  unfold call_at, check_bedrock_rate_limit, limiter_step,
    limiter_get_item, limiter_update_item, limiter_put_item.
  destruct w as [env now res lim q fl qf rp oa mr lg]; simpl in *; subst.
  munfold; simpl. rewrite Henv; simpl.
  destruct (60 <=? t - last_call_time item); simpl.
  - eexists; split; [reflexivity|]. split; [reflexivity|]. split; done.
  - destruct (calls_this_minute item <? max_calls_per_minute item); simpl.
    + eexists; split; [reflexivity|]. split; [reflexivity|]. split; done.
    + eexists; split; [reflexivity|]. split; [reflexivity|]. split; done.
Qed.

Lemma simulate_limiter_run (times : list Z) :
  ∀ (w : World) (item : LimiterItem),
    limiter_available w →
    w_limiter w = Some item →
    (simulate times w).1 = limiter_run times item.
Proof.
  induction times as [|t rest IH]; intros w item Hav Hl; [reflexivity|].
  destruct (call_at_step t w item Hav Hl) as (w' & Hc & Hl' & Hav').
  simpl. rewrite Hc.
  specialize (IH w' _ Hav' Hl').
  destruct (simulate rest w') as [out w'']. simpl in *.
  destruct (limiter_step t item) as [b item']. simpl in *. by rewrite IH.
Qed.

(** Counting over the transition of the row. *)
Lemma allowed_cons (T t : Z) (b : bool) (out : list (Z * bool)) :
  allowed_in_window T ((t, b) :: out)
  = (if in_window T (t, b) then 1 else 0) + allowed_in_window T out.
Proof.
  unfold allowed_in_window. rewrite filter_cons.
  destruct (in_window T (t, b)) eqn:E.
  - rewrite decide_True by done. simpl length. lia.
  - rewrite decide_False by (by intros ?). lia.
Qed.

Lemma allowed_nonneg (T : Z) (out : list (Z * bool)) : 0 ≤ allowed_in_window T out.
Proof. unfold allowed_in_window. lia. Qed.

(** Calls made after the window has closed are not counted. *)
Lemma allowed_after_window (T : Z) (times : list Z) :
  ∀ item, Forall (λ t, T + window_length ≤ t) times →
          allowed_in_window T (limiter_run times item) = 0.
Proof.
  induction times as [|t rest IH]; intros item Hall; [reflexivity|].
  inversion Hall as [|? ? Ht Hrest]; subst. simpl.
  destruct (limiter_step t item) as [b item'] eqn:E.
  rewrite allowed_cons, (IH _ Hrest).
  unfold in_window; simpl.
  replace (t <? T + window_length) with false by (symmetry; apply Z.ltb_ge; lia).
  by rewrite andb_false_r.
Qed.

Lemma window_budget_bound (T k : Z) (times : list Z) :
  0 ≤ k →
  ∀ item,
    Forall (λ t, T ≤ t) times →
    StronglySorted Z.le times →
    max_calls_per_minute item = k →
    allowed_in_window T (limiter_run times item) ≤ window_budget T k item.
Proof.
  intros Hk. induction times as [|t rest IH]; intros item Hall Hs Hmax.
  - unfold window_budget, allowed_in_window; simpl.
    destruct (T <=? last_call_time item); lia.
  - inversion Hall as [|? ? HT Hrest]; subst.
    inversion Hs as [|? ? Hs' Hle]; subst.
    destruct (Z_lt_le_dec t (T + window_length)) as [Hin|Hout].
    + simpl. unfold limiter_step.
      destruct (60 <=? t - last_call_time item) eqn:E1.
      * apply Z.leb_le in E1.
        rewrite allowed_cons.
        specialize (IH (reset_window t item) Hrest Hs' eq_refl).
        unfold window_budget in *. simpl in IH.
        replace (T <=? t) with true in IH by (symmetry; apply Z.leb_le; lia).
        unfold window_length in *.
        destruct (in_window T (t, true));
          destruct (T <=? last_call_time item) eqn:E2;
          try (apply Z.leb_le in E2); lia.
      * apply Z.leb_gt in E1.
        destruct (calls_this_minute item <? max_calls_per_minute item) eqn:E3.
        -- apply Z.ltb_lt in E3. rewrite allowed_cons.
           specialize (IH (add_call item) Hrest Hs' eq_refl).
           unfold window_budget in *. simpl in IH.
           destruct (in_window T (t, true));
             destruct (T <=? last_call_time item); lia.
        -- rewrite allowed_cons.
           specialize (IH item Hrest Hs' eq_refl).
           unfold in_window. simpl. lia.
    + rewrite allowed_after_window.
      * unfold window_budget. destruct (T <=? last_call_time item); lia.
      * constructor; [lia|]. eapply Forall_impl; [exact Hle|]. simpl. intros; lia.
Qed.

Lemma rolling_window_bound (T k : Z) (times : list Z) :
  0 ≤ k →
  ∀ item,
    StronglySorted Z.le times →
    max_calls_per_minute item = k →
    0 ≤ calls_this_minute item →
    allowed_in_window T (limiter_run times item) ≤ 2 * k + 1.
Proof.
  intros Hk. induction times as [|t rest IH]; intros item Hs Hmax Hc.
  - unfold allowed_in_window; simpl. lia.
  - destruct (Z_lt_le_dec t T) as [Hbefore|Hfrom].
    + inversion Hs as [|? ? Hs' Hle]; subst. simpl.
      destruct (limiter_step t item) as [b item'] eqn:E.
      rewrite allowed_cons.
      replace (in_window T (t, b)) with false.
      2:{ unfold in_window. simpl.
          replace (T <=? t) with false by (symmetry; apply Z.leb_gt; lia).
          by rewrite andb_false_r. }
      assert (max_calls_per_minute item' = max_calls_per_minute item
              ∧ 0 ≤ calls_this_minute item') as [Hm' Hc'].
      { unfold limiter_step in E.
        destruct (60 <=? t - last_call_time item);
          [|destruct (calls_this_minute item <? max_calls_per_minute item)];
          inversion E; subst; simpl; split; try done; lia. }
      specialize (IH item' Hs' Hm' Hc'). lia.
    + etrans.
      * apply (window_budget_bound T k (t :: rest) Hk item); [|exact Hs|exact Hmax].
        inversion Hs as [|? ? Hs' Hle].
        constructor; [lia|]. eapply Forall_impl; [exact Hle|]. simpl. intros; lia.
      * unfold window_budget. destruct (T <=? last_call_time item); lia.
Qed.

(** A call that is refused leaves the row as it was. *)
Lemma denied_keeps_limiter (w w' : World) :
  check_bedrock_rate_limit w = (Ok false, w') → w_limiter w' = w_limiter w.
Proof.
  unfold check_bedrock_rate_limit, limiter_get_item, limiter_update_item,
    limiter_put_item.
  destruct w as [env now res lim q fl qf rp oa mr lg]. munfold; simpl.
  destruct (env_truthy (BEDROCK_RATE_LIMITER_TABLE env)); simpl; [|congruence].
  destruct fl as [|[e|] fl]; simpl; try congruence.
  - destruct lim as [item|]; simpl; [|congruence].
    destruct (60 <=? now - last_call_time item); simpl; [congruence|].
    destruct (calls_this_minute item <? max_calls_per_minute item); simpl;
      intros [= <-]; done.
  - destruct lim as [item|]; simpl.
    + destruct (60 <=? now - last_call_time item); simpl.
      { destruct fl as [|[e|] fl]; simpl; congruence. }
      destruct (calls_this_minute item <? max_calls_per_minute item); simpl.
      { destruct fl as [|[e|] fl]; simpl; congruence. }
      intros [= <-]; done.
    + destruct fl as [|[e|] fl]; simpl; congruence.
Qed.

End limiter_facts.

(** The check never touches the ceiling of a row that exists, whatever
    the services answer. *)
Lemma check_keeps_ceiling (w w' : World) (item : LimiterItem) (r : result bool) :
  w_limiter w = Some item →
  check_bedrock_rate_limit w = (r, w') →
  ∃ item', w_limiter w' = Some item'
           ∧ max_calls_per_minute item' = max_calls_per_minute item.
Proof.
  unfold check_bedrock_rate_limit, limiter_get_item, limiter_update_item,
    limiter_put_item.
  destruct w as [env now res lim q fl qf rp oa mr lg]. munfold; simpl. intros ->.
  destruct (env_truthy (BEDROCK_RATE_LIMITER_TABLE env)); simpl;
    [|intros [= <- <-]; eauto].
  destruct fl as [|[e|] fl]; simpl;
    repeat match goal with
      | |- context [if ?c then _ else _] => destruct c; simpl
      | |- context [match ?l with [] => _ | _ => _ end] =>
          destruct l as [|[?|] ?]; simpl
      end;
    intros [= <- <-]; simpl; eauto.
Qed.

(** C4, as amended. Under sequential simulation on an available limiter
    table whose row has the ceiling [k], the calls allowed within any
    rolling window of [window_length] seconds number at most [2 * k + 1]:
    the call that opens a window is allowed without being counted, and a
    rolling window can span the end of one counted window and the start
    of the next. A call that is refused leaves the row unchanged. *)
Theorem rate_limiter_rolling_window
    (w : World) (item : LimiterItem) (k T : Z) (times : list Z) :
  limiter_available w →
  w_limiter w = Some item →
  max_calls_per_minute item = k →
  0 ≤ k →
  0 ≤ calls_this_minute item →
  StronglySorted Z.le times →
  allowed_in_window T (simulate times w).1 ≤ 2 * k + 1
  ∧ (∀ w0 w1, check_bedrock_rate_limit w0 = (Ok false, w1) →
              w_limiter w1 = w_limiter w0).
Proof.
  intros Hav Hl Hmax Hk Hc Hs. split.
  - rewrite (simulate_limiter_run times w item Hav Hl).
    by apply rolling_window_bound.
  - apply denied_keeps_limiter.
Qed.

(** The bound of [rate_limiter_rolling_window] is reached: ceiling 1,
    three calls allowed in the window that starts at second 59. *)
Lemma rate_limiter_rolling_window_witness :
  allowed_in_window 59 (simulate [59; 60; 61] (limiter_world 0 1)).1 ≤ 2 * 1 + 1
  ∧ (∀ w0 w1, check_bedrock_rate_limit w0 = (Ok false, w1) →
              w_limiter w1 = w_limiter w0).
Proof.
  apply (rate_limiter_rolling_window (limiter_world 0 1) (limiter_row 0 1) 1 59
           [59; 60; 61]).
  - split; reflexivity.
  - reflexivity.
  - reflexivity.
  - lia.
  - simpl; lia.
  - repeat constructor; lia.
Defined.

(** C4, as the specification words it, fails: with the ceiling [k = 1],
    the calls at seconds 60 and 61 are both allowed, two calls in the
    window that starts at second 60. *)
Lemma rate_limiter_at_most_k_fails :
  limiter_available (limiter_world 0 1)
  ∧ max_calls_per_minute (limiter_row 0 1) = 1
  ∧ (simulate [60; 61] (limiter_world 0 1)).1 = [(60, true); (61, true)]
  ∧ ¬ (allowed_in_window 60 (simulate [60; 61] (limiter_world 0 1)).1 ≤ 1).
Proof.
  split; [split; reflexivity|]. split; [reflexivity|]. split; [reflexivity|].
  vm_compute. intros H. apply H. reflexivity.
Qed.

(** The update expression of the backoff names a function that DynamoDB
    does not have. *)
Lemma backoff_expression_refused : valid_set_value backoff_expression = false.
Proof. reflexivity. Qed.

(** The backoff returns in every world, and the row of the limiter, the
    results table, the queue and the log are as before: the table refuses
    the update and the function swallows the refusal. *)
Lemma backoff_keeps_world (w : World) :
  ∃ w', update_rate_limit_backoff w = (Ok tt, w')
        ∧ w_limiter w' = w_limiter w
        ∧ w_env w' = w_env w
        ∧ w_results w' = w_results w
        ∧ w_queue w' = w_queue w
        ∧ w_log w' = w_log w.
Proof.
  unfold update_rate_limit_backoff, limiter_set_max_calls.
  rewrite backoff_expression_refused.
  destruct w as [env now res lim q fl qf rp oa mr lg].
  munfold; cbn.
  destruct (env_truthy (BEDROCK_RATE_LIMITER_TABLE env)); cbn.
  - destruct fl as [|[e|] fl]; cbn; eexists; repeat split.
  - eexists; repeat split.
Qed.

(** C5 fails in the code. On the row that the limiter creates (ceiling
    20), with the table configured and every call to it going through,
    the specification expects the ceiling 18 after a backoff; the backoff
    returns and the row is the row of before, ceiling 20. In every
    world the backoff returns and leaves the row of the limiter as it
    was, so no throttling event lowers the ceiling. *)
Theorem backoff_leaves_ceiling :
  limiter_available (limiter_world 5 20)
  ∧ max_calls_per_minute (limiter_row 5 20) = 20
  ∧ spec_backoff_ceiling 20 = 18
  ∧ (∃ w', update_rate_limit_backoff (limiter_world 5 20) = (Ok tt, w')
           ∧ w_limiter w' = Some (limiter_row 5 20))
  ∧ (∀ w, ∃ w', update_rate_limit_backoff w = (Ok tt, w')
                ∧ w_limiter w' = w_limiter w).
Proof.
  split; [split; reflexivity|]. split; [reflexivity|]. split; [reflexivity|].
  split.
  - destruct (backoff_keeps_world (limiter_world 5 20)) as (w' & Hr & Hl & _).
    exists w'. split; [exact Hr|]. rewrite Hl. reflexivity.
  - intros w. destruct (backoff_keeps_world w) as (w' & Hr & Hl & _).
    exists w'. split; assumption.
Qed.

(** ** Normalisation of the analysis *)

(** Membership in a list that is written out. *)
Ltac in_list :=
  repeat first [apply list_elem_of_here | apply list_elem_of_further].

Section normalisation_facts.

Lemma str_in_elem (s : string) (l : list string) : str_in s l = true → s ∈ l.
Proof.
  unfold str_in. induction l as [|x l IH]; simpl; [done|].
  destruct (String.eqb s x) eqn:E; simpl.
  - apply String.eqb_eq in E as ->. intros _. left.
  - intros Hin. right. by apply IH.
Qed.

Lemma apply_defaults_cons k v (defaults : list (string * pyval)) (a : pydict) :
  apply_defaults ((k, v) :: defaults) a
  = apply_defaults defaults (match a !! k with Some _ => a | None => <[k := v]> a end).
Proof. reflexivity. Qed.

Lemma apply_defaults_keeps (defaults : list (string * pyval)) :
  ∀ (a : pydict) k v, a !! k = Some v → apply_defaults defaults a !! k = Some v.
Proof.
  induction defaults as [|[k' v'] ds IH]; intros a k v Hk; [done|].
  rewrite apply_defaults_cons.
  apply IH. destruct (a !! k') eqn:E; [done|].
  rewrite lookup_insert_ne; [done|]. intros ->. congruence.
Qed.

Lemma apply_defaults_fills (defaults : list (string * pyval)) :
  ∀ (a : pydict) k, k ∈ defaults.*1 → is_Some (apply_defaults defaults a !! k).
Proof.
  induction defaults as [|[k' v'] ds IH]; intros a k Hin.
  - by apply elem_of_nil in Hin.
  - rewrite apply_defaults_cons. simpl in Hin.
    apply elem_of_cons in Hin as [->|Hin]; [|by apply IH].
    destruct (a !! k') eqn:E.
    + rewrite (apply_defaults_keeps ds a k' p E). eauto.
    + erewrite apply_defaults_keeps; [eauto|]. apply lookup_insert_eq.
Qed.

Lemma normalize_risk_level_keeps (a : pydict) k :
  is_Some (a !! k) → is_Some (normalize_risk_level a !! k).
Proof.
  intros Hk. unfold normalize_risk_level.
  destruct (a !! "risk_level"); [|done].
  repeat match goal with
         | |- context [if ?c then _ else _] => destruct c
         end;
    repeat (apply lookup_insert_is_Some'; right); done.
Qed.

Lemma normalize_time_sensitivity_keeps (a : pydict) k :
  is_Some (a !! k) → is_Some (normalize_time_sensitivity a !! k).
Proof.
  intros Hk. unfold normalize_time_sensitivity.
  destruct (a !! "time_sensitivity"); [|done].
  destruct (negb _); apply lookup_insert_is_Some'; by right.
Qed.

Lemma normalize_time_sensitivity_other (a : pydict) k :
  k ≠ "time_sensitivity" → normalize_time_sensitivity a !! k = a !! k.
Proof.
  intros Hk. unfold normalize_time_sensitivity.
  destruct (a !! "time_sensitivity"); [|done].
  destruct (negb _); by rewrite lookup_insert_ne.
Qed.

Lemma normalize_time_sensitivity_value (a : pydict) :
  is_Some (a !! "time_sensitivity") →
  ∃ ts, normalize_time_sensitivity a !! "time_sensitivity" = Some (VStr ts)
        ∧ ts ∈ time_sensitivities.
Proof.
  intros [v Hv]. unfold normalize_time_sensitivity. rewrite Hv.
  destruct (str_in (title (strip (py_str v))) time_sensitivities) eqn:E; simpl.
  - eexists. rewrite lookup_insert_eq. split; [done|]. by apply str_in_elem.
  - exists "Routine". rewrite lookup_insert_eq. split; [done|].
    unfold time_sensitivities. in_list.
Qed.

Lemma py_eq_str_true (v : pyval) (s : string) : py_eq_str v s = true → v = VStr s.
Proof.
  destruct v; simpl; try done. intros E. by apply String.eqb_eq in E as ->.
Qed.

(** The normalisation returns for every dictionary, and what it returns
    is normalised. *)
Lemma normalize_returns_normalized (analysis : pydict) :
  ∃ d, normalize_analysis_response analysis = Ok d
       ∧ normalized d
       ∧ (∀ v, analysis !! "risk_level" = Some v → reads_as_critical v →
               d !! "critical" = Some (VBool true)).
Proof.
  unfold normalize_analysis_response.
  set (a1 := apply_defaults normalize_defaults analysis).
  set (a2 := normalize_risk_level a1).
  assert (Hfull : ∀ k, k ∈ normalize_defaults.*1 → is_Some (a2 !! k)).
  { intros k Hk. apply normalize_risk_level_keeps. by apply apply_defaults_fills. }
  destruct (Hfull "risk_level") as [risk Hrisk].
  { unfold normalize_defaults. simpl. in_list. }
  unfold getitem. rewrite Hrisk.
  unfold mbind, result_bind, mret, result_ret.
  set (a3 := if py_truthy (default (VBool false) (a2 !! "critical"))
                && negb (py_eq_str risk "Critical")
             then <["risk_level" := VStr "Critical"]> a2 else a2).
  assert (Hfull3 : ∀ k, is_Some (a2 !! k) → is_Some (a3 !! k)).
  { intros k Hk. unfold a3. destruct (_ && _); [|done].
    apply lookup_insert_is_Some'. by right. }
  assert (Hcrit3 : a3 !! "critical" = a2 !! "critical").
  { unfold a3. destruct (_ && _); [|done]. by rewrite lookup_insert_ne. }
  eexists. split; [reflexivity|]. split; [|].
  - split; [|split].
    + intros k Hk. apply normalize_time_sensitivity_keeps, Hfull3, Hfull, Hk.
    + apply normalize_time_sensitivity_value, Hfull3, Hfull.
      unfold normalize_defaults. simpl. in_list.
    + intros v. rewrite !normalize_time_sensitivity_other by done.
      rewrite Hcrit3. intros Hc Ht. unfold a3. rewrite Hc.
      change (default (VBool false) (Some v)) with v. rewrite Ht, andb_true_l.
      destruct (py_eq_str risk "Critical") eqn:E; cbn [negb].
      * apply py_eq_str_true in E. by rewrite Hrisk, E.
      * apply lookup_insert_eq.
  - intros v Hv Hread.
    rewrite normalize_time_sensitivity_other by done. rewrite Hcrit3.
    assert (Ha1 : a1 !! "risk_level" = Some v) by (by apply apply_defaults_keeps).
    unfold a2, normalize_risk_level. rewrite Ha1.
    unfold reads_as_critical in Hread. rewrite Hread.
    apply lookup_insert_eq.
Qed.

Lemma fallback_normalized (response_text : string) :
  normalized (create_fallback_analysis response_text).
Proof.
  unfold normalized, create_fallback_analysis. split; [|split].
  - intros k Hk. unfold normalize_defaults in Hk. simpl in Hk.
    repeat (apply elem_of_cons in Hk as [->|Hk]; [vm_compute; eauto|]).
    by apply elem_of_nil in Hk.
  - exists "Routine". split; [reflexivity|]. unfold time_sensitivities. in_list.
  - intros v Hv. vm_compute in Hv. injection Hv as <-. done.
Qed.

End normalisation_facts.

(** C10. The normalisation returns a dictionary for every dictionary; the
    dictionary has every field of the defaults, a time sensitivity among
    Critical, Urgent and Routine, the risk level Critical whenever its
    critical flag holds, and a true critical flag whenever the risk level
    it was given reads as CRITICAL or SEVERE. Every reply text goes
    through it, whichever of the three stages of the parser decodes it:
    the parser returns a normalised dictionary, or raises [TypeError] on a
    JSON text that is not an object. The fixed fallback is normalised too. *)
Theorem analysis_always_normalized `{Library} :
  (∀ analysis : pydict,
      ∃ d, normalize_analysis_response analysis = Ok d
           ∧ normalized d
           ∧ (∀ v, analysis !! "risk_level" = Some v → reads_as_critical v →
                   d !! "critical" = Some (VBool true)))
  ∧ (∀ response_text : string,
        (∃ d, parse_bedrock_response response_text = Ok d ∧ normalized d)
        ∨ (parse_bedrock_response response_text = Raise TypeError
           ∧ ∃ s v, json_loads s = Some (JValue v)))
  ∧ (∀ response_text : string, normalized (create_fallback_analysis response_text)).
Proof.
  split; [exact normalize_returns_normalized|]. split; [|exact fallback_normalized].
  intros response_text. unfold parse_bedrock_response.
  match goal with |- context [json_loads ?s] => destruct (json_loads s) as [[d|v]|] eqn:E end.
  - left. destruct (normalize_returns_normalized d) as (d' & Hd & Hn & _). eauto.
  - right. eauto.
  - left. unfold extract_fields_manually.
    match goal with
    | |- context [normalize_analysis_response ?a] =>
        destruct (normalize_returns_normalized a) as (d' & Hd & Hn & _)
    end.
    eauto.
Qed.
(** ** The groups of a dispatch *)

Import email_queue_manager.

Section grouping_facts.

Lemma first_occurrences_elem (x : string) (l : list string) :
  x ∈ first_occurrences l ↔ x ∈ l.
Proof.
  induction l as [|a l IH]; cbn [first_occurrences]; [done|].
  rewrite !elem_of_cons, list_elem_of_filter, IH.
  destruct (decide (x = a)) as [->|Hne]; [by split; left|].
  split; intros [Heq|Hin]; try done; [right; apply Hin|by right].
Qed.

Lemma first_occurrences_NoDup (l : list string) : NoDup (first_occurrences l).
Proof.
  induction l as [|a l IH]; cbn [first_occurrences]; [constructor|].
  constructor; [|by apply NoDup_filter].
  rewrite list_elem_of_filter. intros [Hne _]. by apply Hne.
Qed.

(** An element at the end of the list is new or was seen before. *)
Lemma first_occurrences_snoc (x : string) (l : list string) :
  first_occurrences (l ++ [x])
  = first_occurrences l ++ (if decide (x ∈ l) then [] else [x]).
Proof.
  induction l as [|a l IH]; [done|].
  cbn [app first_occurrences]. rewrite IH, filter_app. f_equal. f_equal.
  destruct (decide (x = a)) as [->|Hne].
  - rewrite (decide_True (P := a ∈ a :: l)) by left.
    destruct (decide (a ∈ l)); [done|].
    by rewrite filter_cons_False by (intros Hn; by apply Hn).
  - destruct (decide (x ∈ l)) as [Hin|Hnin].
    + by rewrite (decide_True (P := x ∈ a :: l)) by (by right).
    + rewrite (decide_False (P := x ∈ a :: l))
        by (rewrite elem_of_cons; intros [?|?]; done).
      by rewrite filter_cons_True by done.
Qed.

Lemma filter_none {A} (P : A → Prop) `{∀ x, Decision (P x)} (l : list A) :
  (∀ x, x ∈ l → ¬ P x) → filter P l = [].
Proof.
  induction l as [|a l IH]; intros Hn; [done|].
  rewrite filter_cons_False by (apply Hn; left).
  apply IH. intros x Hx. apply Hn. by right.
Qed.

(** A dictionary that gives every key of a duplicate-free list its
    value: looking a key up and setting a key. *)
Lemma dict_get_tabulate {V} (f : string → V) (k : string) (keys : list string) :
  dict_get k ((λ a, (a, f a)) <$> keys) = if decide (k ∈ keys) then Some (f k) else None.
Proof.
  induction keys as [|a keys IH]; [done|].
  cbn [fmap list_fmap dict_get]. destruct (String.eqb_spec a k) as [->|Hne].
  - by rewrite decide_True by left.
  - fold (fmap (M := list) (λ a, (a, f a)) keys). rewrite IH.
    destruct (decide (k ∈ keys)) as [Hin|Hnin].
    + by rewrite decide_True by (by right).
    + by rewrite decide_False by (rewrite elem_of_cons; intros [?|?]; done).
Qed.

Lemma dict_set_tabulate {V} (f : string → V) (k : string) (v : V) (keys : list string) :
  NoDup keys →
  dict_set k v ((λ a, (a, f a)) <$> keys)
  = ((λ a, (a, if decide (a = k) then v else f a)) <$> keys)
    ++ (if decide (k ∈ keys) then [] else [(k, v)]).
Proof.
  induction keys as [|a keys IH]; intros Hnd; [done|].
  apply NoDup_cons in Hnd as [Hna Hnd].
  cbn [fmap list_fmap dict_set].
  fold (fmap (M := list) (λ a, (a, f a)) keys).
  fold (fmap (M := list) (λ a, (a, if decide (a = k) then v else f a)) keys).
  destruct (String.eqb_spec a k) as [->|Hne].
  - rewrite decide_True by done. rewrite (decide_True (P := k ∈ k :: keys)) by left.
    rewrite app_nil_r. cbn [app]. f_equal.
    apply list_fmap_ext. intros i a Ha.
    rewrite decide_False; [done|]. intros ->.
    apply Hna. by eapply list_elem_of_lookup_2.
  - rewrite decide_False by done. rewrite IH by done. cbn [app]. f_equal. f_equal.
    destruct (decide (k ∈ keys)) as [Hin|Hnin].
    + by rewrite decide_True by (by right).
    + by rewrite decide_False by (rewrite elem_of_cons; intros [?|?]; done).
Qed.

Lemma recipient_truthy (r : ResultItem) :
  match email_mapping_of r with
  | Some email_mapping =>
      if str_truthy (Some email_mapping) then recipient r = Some email_mapping
      else recipient r = None
  | None => recipient r = None
  end.
Proof.
  unfold recipient, str_truthy, env_truthy.
  destruct (email_mapping_of r) as [e|]; [|done]. by destruct (String.eqb e "").
Qed.

(** One more result: it joins the group of its address, a new group at
    the end when it is the first one for the address, and a result
    without address joins none. *)
Lemma notification_groups_snoc (rs : list ResultItem) (r : ResultItem) :
  notification_groups (rs ++ [r])
  = match recipient r with
    | Some email => dict_append email r (notification_groups rs)
    | None => notification_groups rs
    end.
Proof.
  unfold notification_groups, addresses, dict_append.
  rewrite omap_app. cbn [omap list_omap].
  destruct (recipient r) as [e|] eqn:Er.
  - cbn [app]. rewrite first_occurrences_snoc.
    rewrite dict_get_tabulate, dict_set_tabulate by apply first_occurrences_NoDup.
    rewrite fmap_app. f_equal.
    + apply list_fmap_ext. intros i a Ha. f_equal.
      rewrite filter_app. destruct (decide (a = e)) as [->|Hne].
      * rewrite decide_True by (eapply list_elem_of_lookup_2; exact Ha).
        cbn [default]. by rewrite filter_cons_True, filter_nil by done.
      * rewrite filter_cons_False by congruence. by rewrite filter_nil, app_nil_r.
    + destruct (decide (e ∈ omap recipient rs)) as [Hin|Hnin].
      * by rewrite decide_True by (by apply first_occurrences_elem).
      * rewrite decide_False by (by rewrite first_occurrences_elem).
        rewrite decide_False by (by rewrite first_occurrences_elem).
        cbn [fmap list_fmap default app]. rewrite filter_app.
        rewrite filter_cons_True, filter_nil by done.
        rewrite filter_none; [done|].
        intros x Hx Hrx. apply Hnin. apply list_elem_of_omap. eauto.
  - rewrite app_nil_r. apply list_fmap_ext. intros i a Ha. f_equal.
    rewrite filter_app, filter_cons_False by congruence.
    by rewrite filter_nil, app_nil_r.
Qed.

(** The dictionary of the code holds the groups of the dispatch. *)
Lemma group_results_by_email_groups (all_results : list ResultItem) :
  group_results_by_email all_results = notification_groups all_results.
Proof.
  induction all_results as [|r rs IH] using rev_ind; [done|].
  unfold group_results_by_email in *. rewrite foldl_app. cbn [foldl].
  rewrite IH, notification_groups_snoc.
  pose proof (recipient_truthy r) as Hr.
  destruct (email_mapping_of r) as [e|]; [|by rewrite Hr].
  destruct (str_truthy (Some e)); by rewrite Hr.
Qed.

(** What the queue accepts of a list of messages is part of the list,
    and all of it when the queue refuses nothing. *)
Lemma accepted_by_sublist (script : list (option exn)) (messages : list SqsMessage) :
  sublist (accepted_by script messages) messages.
Proof.
  revert script. induction messages as [|m ms IH]; intros script; [constructor|].
  destruct script as [|[e|] script]; cbn [accepted_by].
  - reflexivity.
  - by apply sublist_cons.
  - by apply sublist_skip.
Qed.

Lemma accepted_by_nil (messages : list SqsMessage) : accepted_by [] messages = messages.
Proof. by destruct messages. Qed.

Lemma accepted_by_app (script : list (option exn)) (l k : list SqsMessage) :
  accepted_by script (l ++ k)
  = accepted_by script l ++ accepted_by (drop (length l) script) k.
Proof.
  revert script. induction l as [|m l IH]; intros script.
  - cbn [app length drop accepted_by]. by destruct k.
  - destruct script as [|[e|] script]; cbn [app accepted_by length drop].
    + by rewrite accepted_by_nil.
    + apply IH.
    + f_equal. apply IH.
Qed.

End grouping_facts.


(** ** The handler of the analysis queue *)

Section analyzer_facts.
Context `{Library}.

Lemma steady_refl (P : Effect → Prop) (w : World) : steady P w w.
Proof.
  split; [done|]. split; [done|]. split; [done|]. exists []. by rewrite app_nil_r.
Qed.

Lemma steady_trans (P : Effect → Prop) (w1 w2 w3 : World) :
  steady P w1 w2 → steady P w2 w3 → steady P w1 w3.
Proof.
  intros (He1 & Hr1 & Hk1 & n1 & Hl1 & Hf1) (He2 & Hr2 & Hk2 & n2 & Hl2 & Hf2).
  split; [congruence|]. split; [congruence|]. split; [auto|].
  exists (n1 ++ n2). split; [by rewrite Hl2, Hl1, app_assoc|].
  by apply Forall_app.
Qed.

Lemma steady_weaken (P Q : Effect → Prop) (w w' : World) :
  (∀ e, P e → Q e) → steady P w w' → steady Q w w'.
Proof.
  intros HPQ (He & Hr & Hk & n & Hl & Hf). split; [done|]. split; [done|].
  split; [done|].
  exists n. split; [done|]. eapply Forall_impl; eauto.
Qed.

(** The limiter leaves the results table and the log alone. *)
Lemma check_rate_limit_steady (w : World) :
  ∃ b w', check_bedrock_rate_limit w = (Ok b, w') ∧ steady (λ _, False) w w'.
Proof.
  unfold check_bedrock_rate_limit, limiter_get_item, limiter_update_item,
    limiter_put_item.
  destruct w as [env now res lim q fl qf rp oa mr lg]. munfold; simpl.
  destruct (env_truthy (BEDROCK_RATE_LIMITER_TABLE env)); simpl;
    [|eexists _, _; split; [reflexivity|apply steady_refl]].
  destruct fl as [|[e|] fl]; simpl;
    repeat match goal with
      | |- context [match ?l with Some _ => _ | None => _ end] =>
          destruct l; simpl
      | |- context [if ?c then _ else _] => destruct c; simpl
      | |- context [match ?l with [] => _ | _ => _ end] =>
          destruct l as [|[?|] ?]; simpl
      end;
    (eexists _, _; split; [reflexivity|]);
    (split; [done|]; split; [done|]; split; [done|]; exists [];
     by rewrite app_nil_r).
Qed.

Lemma backoff_steady (w : World) :
  ∃ w', update_rate_limit_backoff w = (Ok tt, w') ∧ steady (λ _, False) w w'.
Proof.
  unfold update_rate_limit_backoff.
  destruct w as [env now res lim q fl qf rp oa mr lg]. munfold; simpl.
  destruct (env_truthy (BEDROCK_RATE_LIMITER_TABLE env)); simpl;
    [|eexists; split; [reflexivity|apply steady_refl]].
  destruct fl as [|[e|] fl]; simpl; destruct lim; simpl;
    (eexists; split; [reflexivity|]);
    (split; [done|]; split; [done|]; split; [done|]; exists [];
     by rewrite app_nil_r).
Qed.

(** Building a placeholder reads the environment and nothing else. *)
Lemma placeholder_pure (message : Message) (w : World) :
  ∃ a, create_placeholder_analysis message w = (Ok a, w)
       ∧ a !! "manual_review_required" = Some (VBool true).
Proof.
  unfold create_placeholder_analysis. munfold.
  destruct (placeholder_risk _ _ _) as [risk_level risk_justification].
  eexists. split; [reflexivity|].
  unfold list_to_map. simpl.
  repeat (rewrite lookup_insert_ne by done). apply lookup_insert_eq.
Qed.

(** The three outcomes of a store: the row is written and the write
    logged; or [store_workflow_result] raises, the table is as before and
    the failure logged; or the message has no [workflow_id], the lookup
    raises and the store is not called. *)
Lemma store_analysis_spec (message : Message) (aid : string) (a : pydict) (w : World) :
  (∃ w' wid,
      store_analysis message aid a w = (Ok tt, w')
      ∧ m_workflow_id message = Some wid
      ∧ w_env w' = w_env w
      ∧ w_results w' = <[(wid, aid) := analysis_row message wid aid a (w_now w)]> (w_results w)
      ∧ w_log w' = w_log w ++ [StoredResult wid aid])
  ∨ (∃ w' e wid,
        store_analysis message aid a w = (Raise e, w')
        ∧ m_workflow_id message = Some wid
        ∧ w_env w' = w_env w
        ∧ w_results w' = w_results w
        ∧ w_log w' = w_log w ++ [StoreFailed]
        ∧ ¬ store_available w)
  ∨ (m_workflow_id message = None
     ∧ store_analysis message aid a w = (Raise (KeyError "workflow_id"), w)).
Proof.
  unfold store_analysis, message_workflow_id, store_workflow_result, store_available.
  destruct w as [env now res lim q fl qf rp oa mr lg]. munfold; simpl.
  destruct (m_workflow_id message) as [wid|]; simpl.
  - destruct (str_truthy (WORKFLOW_RESULTS_TABLE env)) eqn:Et; simpl.
    + destruct fl as [|[e|] fl]; simpl.
      * left. eexists _, _. repeat split; reflexivity.
      * right; left. eexists _, _, _. repeat split; try reflexivity. intros [_ [=]].
      * left. eexists _, _. repeat split; reflexivity.
    + right; left. eexists _, _, _. repeat split; try reflexivity. intros [[=] _].
  - right; right. split; reflexivity.
Qed.

Lemma invoke_model_steady (w : World) :
  steady model_effect w (invoke_model w).2.
Proof.
  unfold invoke_model.
  destruct w as [env now res lim q fl qf rp oa mr lg]. munfold; simpl.
  destruct fl as [|[e|] fl]; simpl; destruct rp as [|r rp]; simpl;
    (split; [done|]; split; [done|]; split; [done|]; exists [InvokedModel];
     split; [done|];
     constructor; [by left|constructor]).
Qed.

Lemma sleep_steady (seconds : Z) (w : World) :
  ∃ w', sleep seconds w = (Ok tt, w') ∧ steady model_effect w w'.
Proof.
  unfold sleep. destruct w as [env now res lim q fl qf rp oa mr lg]. munfold; simpl.
  eexists. split; [reflexivity|].
  split; [done|]. split; [done|]. split; [done|]. exists [Slept seconds].
  split; [done|].
  constructor; [right; eauto|constructor].
Qed.

Lemma bedrock_attempt_steady (max_retries attempt : Z) (retry : M pydict) :
  (∀ w, steady model_effect w (retry w).2) →
  ∀ w, steady model_effect w (bedrock_attempt max_retries attempt retry w).2.
Proof.
  intros Hretry w. unfold bedrock_attempt.
  pose proof (invoke_model_steady w) as Hinv.
  assert (Hagain : ∀ w1, steady model_effect w w1 →
            steady model_effect w ((sleep (2 ^ attempt);; retry) w1).2).
  { intros w1 H1. destruct (sleep_steady (2 ^ attempt) w1) as (w2 & Hs & H2).
    munfold. unfold sleep in *. munfold. simpl in *.
    injection Hs as <-. eapply steady_trans; [exact H1|].
    eapply steady_trans; [exact H2|]. apply Hretry. }
  munfold. unfold lift.
  destruct (invoke_model w) as [[content|e] w1]; simpl in *.
  - destruct content as [analysis_text|]; simpl; [|done].
    destruct (parse_bedrock_response analysis_text) as [d|e]; simpl.
    + destruct (bool_decide (d ≠ ∅)); done.
    + destruct e; try (destruct (attempt <? max_retries - 1); [by apply Hagain|done]).
      destruct (String.eqb code "ThrottlingException");
        [destruct (attempt <? max_retries - 1); [by apply Hagain|done]|done].
  - destruct e; try (destruct (attempt <? max_retries - 1); [by apply Hagain|done]).
    destruct (String.eqb code "ThrottlingException");
      [destruct (attempt <? max_retries - 1); [by apply Hagain|done]|done].
Qed.

Lemma bedrock_attempts_steady (max_retries : Z) (attempts : list Z) :
  ∀ w, steady model_effect w (bedrock_attempts max_retries attempts w).2.
Proof.
  induction attempts as [|attempt rest IH]; intros w; simpl.
  - apply steady_refl.
  - by apply bedrock_attempt_steady.
Qed.

Lemma analyze_with_bedrock_steady (message : Message) (w : World) :
  steady model_effect w (analyze_with_bedrock message w).2.
Proof.
  unfold analyze_with_bedrock. munfold. cbn beta.
  destruct (str_in _ test_mode_values).
  - destruct (placeholder_pure message w) as (a & Ha & _).
    cbn beta. rewrite Ha. apply steady_refl.
  - destruct (negb _); [apply steady_refl|].
    apply bedrock_attempts_steady.
Qed.

Ltac munfold_all :=
  unfold fmap, M_fmap in *; munfold.

Lemma tagged_placeholder_pure (message : Message) (retry_count : Z) (reason : string)
    (w : World) :
  ∃ a, tagged_placeholder message retry_count reason w = (Ok a, w)
       ∧ a !! "manual_review_required" = Some (VBool true).
Proof.
  unfold tagged_placeholder. munfold.
  destruct (placeholder_pure message w) as (a & Ha & Hm). rewrite Ha.
  eexists. split; [reflexivity|].
  by repeat (rewrite lookup_insert_ne by done).
Qed.

(** The main path of a record: it is put back on the queue by the rate
    limiter, or it ends with the store of an analysis; until the store
    only the model was called. *)
Lemma process_message_spec (record : SqsRecord Message) (message : Message) (w : World) :
  ∃ w1, steady model_effect w w1
        ∧ ((process_message record message w = (Ok Requeued, w1)
            ∧ get_message_retry_count record < max_retries - 1)
           ∨ ∃ a, process_message record message w
                  = then_ack (store_analysis message
                                (default "unknown" (m_account_id message)) a w1)).
Proof.
  unfold process_message. munfold_all.
  destruct (max_retries <=? get_message_retry_count record).
  - destruct (tagged_placeholder_pure message (get_message_retry_count record)
                "Exceeded maximum retry attempts" w) as (a & Ha & _).
    rewrite Ha. exists w. split; [apply steady_refl|]. right. exists a.
    unfold then_ack. by destruct (store_analysis _ _ _ _) as [[[]|e] w2].
  - destruct (check_rate_limit_steady w) as (b & w1 & Hc & Hs1).
    apply (steady_weaken _ model_effect) in Hs1; [|done].
    rewrite Hc. destruct b; simpl.
    + pose proof (analyze_with_bedrock_steady message w1) as Hs2.
      destruct (analyze_with_bedrock message w1) as [[d|e] w2]; simpl in *.
      * exists w2. split; [by eapply steady_trans|]. right. eexists. reflexivity.
      * destruct (tagged_placeholder_pure message (get_message_retry_count record)
                    ("Bedrock analysis failed: " +:+ exn_text e) w2) as (a & Ha & _).
        rewrite Ha. exists w2. split; [by eapply steady_trans|]. right. exists a.
        unfold then_ack. by destruct (store_analysis _ _ _ _) as [[[]|e'] w3].
    + destruct (get_message_retry_count record <? max_retries - 1) eqn:Eretry.
      * exists w1. split; [done|]. left. split; [done|]. by apply Z.ltb_lt.
      * destruct (tagged_placeholder_pure message (get_message_retry_count record)
                    "Rate limit exceeded after maximum retries" w1) as (a & Ha & _).
        rewrite Ha. exists w1. split; [done|]. right. exists a.
        unfold then_ack. by destruct (store_analysis _ _ _ _) as [[[]|e] w3].
Qed.


Lemma store_placeholder_spec (message : Message) (reason : string) (w : World) :
  ∃ a, a !! "manual_review_required" = Some (VBool true)
       ∧ store_placeholder message reason w
         = then_ack (store_analysis message
                       (default "unknown" (m_account_id message)) a w).
Proof.
  unfold store_placeholder. munfold.
  destruct (placeholder_pure message w) as (a & Ha & Hm). rewrite Ha.
  eexists. split; [|reflexivity].
  by repeat (rewrite lookup_insert_ne by done).
Qed.

(** A store, followed by the acknowledgement: what it returns and what
    it did. *)
Lemma then_ack_store_log (message : Message) (aid : string) (a : pydict) (w : World) :
  ∃ r w' new, then_ack (store_analysis message aid a w) = (r, w')
              ∧ w_log w' = w_log w ++ new ∧ Forall store_effect new
              ∧ store_outcome message aid w w' new
              ∧ (r = Ok Acked ∨ ∃ e, r = Raise e).
Proof.
  destruct (store_analysis_spec message aid a w)
    as [(w' & wid & -> & Hwid & _ & Hr & Hl)
       |[(w' & e & wid & -> & Hwid & _ & Hr & Hl & _)|(Hwid & ->)]]; simpl.
  - eexists _, _, _. split; [reflexivity|]. split; [exact Hl|].
    split; [constructor; [right; eauto|constructor]|]. split; [|by left].
    left. exists wid. split; [done|]. split; [done|].
    rewrite Hr, lookup_insert_eq. eauto.
  - eexists _, _, _. split; [reflexivity|]. split; [exact Hl|].
    split; [constructor; [by left|constructor]|]. split; [|right; eauto].
    right; left. eauto.
  - exists (Raise (KeyError "workflow_id")), w, []. split; [reflexivity|].
    split; [by rewrite app_nil_r|]. split; [constructor|]. split; [|right; eauto].
    right; right. done.
Qed.

(** The placeholder of an [except] clause: it is stored and the record
    acknowledged, or the store raises and the record is acknowledged all
    the same. *)
Lemma fallback_placeholder_spec (message : Message) (reason : string) (w : World) :
  ∃ w' new,
    try_except (fallback_placeholder (Object message) reason) (λ _, mret Acked) w
    = (Ok Acked, w')
    ∧ w_log w' = w_log w ++ new ∧ Forall store_effect new
    ∧ store_outcome message (default "unknown" (m_account_id message)) w w' new.
Proof.
  unfold fallback_placeholder. munfold.
  destruct (store_placeholder_spec message reason w) as (a & _ & ->).
  destruct (then_ack_store_log message (default "unknown" (m_account_id message)) a w)
    as (r & w' & new & -> & Hl & Hf & Ho & [->|[e' ->]]);
    exists w', new; repeat split; done.
Qed.

(** The guarded placeholder of an [except] clause. *)
Lemma guarded_placeholder_spec (message : Message) (reason : string) (w : World) :
  ∃ r w' new,
    try_except
      (if decoded_truthy (Object message)
       then fallback_placeholder (Object message) reason
       else mret Requeued) (λ _, mret Acked) w
    = (Ok r, w')
    ∧ w_log w' = w_log w ++ new ∧ Forall store_effect new
    ∧ (message_truthy message = true → r = Acked)
    ∧ (r = Acked →
       message_truthy message = true
       ∧ store_outcome message (default "unknown" (m_account_id message)) w w' new).
Proof.
  cbn [decoded_truthy]. destruct (message_truthy message).
  - destruct (fallback_placeholder_spec message reason w) as (w' & new & Hp & Hl & Hf & Ho).
    exists Acked, w', new. eauto 10.
  - exists Requeued, w, []. munfold. rewrite app_nil_r.
    repeat split; done.
Qed.

(** The [except] clauses return, and add to the log the effects of the
    store only. When the message has a key and, for a throttled store,
    the record was redelivered twice, they acknowledge; when they
    acknowledge, the store of the placeholder was tried. *)
Lemma except_clauses_spec (record : SqsRecord Message) (message : Message)
    (e : exn) (w : World) :
  ∃ r w' new,
    except_clauses record (Object message) e w = (Ok r, w')
    ∧ w_log w' = w_log w ++ new
    ∧ Forall store_effect new
    ∧ (message_truthy message = true → 2 ≤ get_message_retry_count record →
       r = Acked)
    ∧ (r = Acked →
       store_outcome message (default "unknown" (m_account_id message)) w w' new)
    ∧ ((∀ code, e ≠ ClientError code) → r = Acked → message_truthy message = true).
Proof.
  unfold except_clauses, on_client_error, on_exception.
  destruct e as [code|key|msg| | |msg|msg|].
  2-8: match goal with
       | |- context [fallback_placeholder _ ?reason] =>
           destruct (guarded_placeholder_spec message reason w)
             as (r & w' & new & Hp & Hl & Hf & Ht & Ho);
           exists r, w', new;
           (split; [exact Hp|]); (split; [exact Hl|]); (split; [exact Hf|]);
           (split; [intros; by apply Ht|]);
           (split; [intros Hr; by apply Ho|]); intros _ Hr; by apply Ho
       end.
  destruct (String.eqb code "ThrottlingException").
  - munfold. destruct (backoff_keeps_world w) as (w1 & Hb & _ & _ & Hr1 & _ & Hl1).
    unfold update_rate_limit_backoff in *. munfold. rewrite Hb.
    destruct (2 <=? get_message_retry_count record) eqn:E.
    + destruct (fallback_placeholder_spec message "Persistent Bedrock throttling" w1)
        as (w' & new & Hp & Hl & Hf & Ho).
      munfold. exists Acked, w', new. rewrite Hp, Hl, Hl1.
      repeat split; try done.
      * intros _. unfold store_outcome in *. rewrite <- Hr1. exact Ho.
      * intros Hne. by destruct (Hne code).
    + exists Requeued, w1, []. rewrite app_nil_r, Hl1.
      split; [done|]. split; [done|]. split; [constructor|].
      split; [intros _ Hr; apply Z.leb_gt in E; lia|]. split; [done|]. done.
  - destruct (guarded_placeholder_spec message ("Bedrock error: " +:+ code) w)
      as (r & w' & new & Hp & Hl & Hf & Ht & Ho).
    exists r, w', new.
    split; [exact Hp|]. split; [exact Hl|]. split; [exact Hf|].
    split; [intros; by apply Ht|].
    split; [intros Hr; by apply Ho|]. intros Hne. by destruct (Hne code).
Qed.



End analyzer_facts.

Section analyzer_claims.
Context `{Library}.




End analyzer_claims.




(** ** The completion coordinator *)

Import email_queue_manager.

Section coordinator_facts.
Context `{Library}.

(** Reading the results of a workflow leaves the table and the queue as
    they are. *)
Lemma get_workflow_results_frame (wid : string) (w : World) :
  ∃ r w', get_workflow_results wid w = (r, w')
          ∧ w_results w' = w_results w ∧ w_queue w' = w_queue w
          ∧ w_env w' = w_env w ∧ w_log w' = w_log w.
Proof.
  unfold get_workflow_results.
  destruct w as [env now res lim q fl qf rp oa mr lg]. munfold; simpl.
  destruct (str_truthy (WORKFLOW_RESULTS_TABLE env)); simpl; [|eauto 10].
  destruct fl as [|[e|] fl]; simpl; eauto 10.
Qed.

Lemma check_workflow_completion_spec (wid : string) (total : Z) (w : World) :
  ∃ st w', check_workflow_completion wid total w = (Ok st, w')
           ∧ w_results w' = w_results w ∧ w_queue w' = w_queue w
           ∧ w_env w' = w_env w ∧ w_log w' = w_log w
           ∧ (all_complete st = true → total ≤ completed_count st).
Proof.
  unfold check_workflow_completion. munfold.
  destruct (get_workflow_results_frame wid w) as (r & w' & -> & Hr & Hq & He & Hl).
  destruct r as [rows|e]; simpl.
  - eexists _, _. split; [reflexivity|]. simpl. repeat split; try done.
    intros Hc. by apply Z.leb_le in Hc.
  - eexists _, _. split; [reflexivity|]. simpl. repeat split; done.
Qed.

(** C7. When the completed count the coordinator observes is below the
    total, the handler raises [IncompleteWorkflowException]; nothing was
    put on the queue and no row, so no marker, was written. *)
Theorem incomplete_workflow_raises
    (event : CoordinatorEvent) (wid : string) (total : Z)
    (st : CompletionStatus) (w w1 : World) :
  ev_workflow_id event = Some wid →
  ev_total_accounts event = Some total →
  check_workflow_completion wid total w = (Ok st, w1) →
  completed_count st < total →
  (∃ msg, email_queue_manager.lambda_handler event w
          = (Raise (IncompleteWorkflowException msg), w1))
  ∧ w_queue w1 = w_queue w
  ∧ w_results w1 = w_results w.
Proof.
  intros Hwid Htotal Hcheck Hlt.
  destruct (check_workflow_completion_spec wid total w)
    as (st' & w' & Hc & Hr & Hq & _ & _ & Hall).
  rewrite Hcheck in Hc. injection Hc as <- <-.
  split; [|done].
  unfold email_queue_manager.lambda_handler. rewrite Hwid, Htotal. munfold.
  rewrite Hcheck.
  destruct (all_complete st) eqn:E; simpl; [specialize (Hall eq_refl); lia|].
  eauto.
Qed.

(** Looking for the marker changes nothing but the script of the
    service calls. *)
Lemma check_emails_already_queued_frame (wid : string) (w : World) :
  ∃ b w', check_emails_already_queued wid w = (Ok b, w')
          ∧ w_results w' = w_results w ∧ w_queue w' = w_queue w
          ∧ w_env w' = w_env w ∧ w_now w' = w_now w
          ∧ (store_available w →
             w' = w ∧ b = bool_decide (is_Some (w_results w !! (wid, EMAIL_QUEUED_MARKER)))).
Proof.
  unfold check_emails_already_queued, store_available, str_truthy.
  destruct w as [env now res lim q fl qf rp oa mr lg]. munfold; simpl.
  destruct (WORKFLOW_RESULTS_TABLE env) as [name|]; simpl.
  - destruct fl as [|[e|] fl]; simpl;
      (eexists _, _; split; [reflexivity|]; simpl; do 4 (split; [done|])).
    + intros _. by split.
    + intros [_ Hf]. discriminate Hf.
    + intros [_ Hf]. discriminate Hf.
  - eexists _, _. split; [reflexivity|]. simpl. do 4 (split; [done|]).
    intros [Ht _]. discriminate Ht.
Qed.

(** An invocation that observes the marker answers [already_queued] and
    puts nothing on the queue. *)
Lemma marker_observed_no_dispatch (wid : string) (all_results : list ResultItem)
    (w w' : World) :
  check_emails_already_queued wid w = (Ok true, w') →
  queue_email_notifications wid all_results w = (Ok (already_queued wid), w')
  ∧ w_queue w' = w_queue w
  ∧ w_results w' = w_results w.
Proof.
  intros Hc.
  destruct (check_emails_already_queued_frame wid w)
    as (b & w2 & Hc2 & Hr & Hq & _).
  rewrite Hc in Hc2. injection Hc2 as <- <-.
  split; [|done].
  unfold queue_email_notifications. munfold. by rewrite Hc.
Qed.

(** The loop over the groups: every group whose send the queue accepts
    gets its message, and a refused send is passed over. *)
Lemma queue_account_emails_spec (wid url : string) (groups : odict (list ResultItem)) :
  ∀ (queued : list QueuedEmail) (w : World),
    ∃ queued',
      queue_account_emails wid url groups queued w
      = (Ok queued',
         set_queue_faults (drop (length groups) (w_queue_faults w))
           (set_queue (w_queue w
                       ++ accepted_by (w_queue_faults w)
                            (account_message wid url (w_now w) <$> groups)) w))
      ∧ length queued'
        = (length queued
           + length (accepted_by (w_queue_faults w)
                       (account_message wid url (w_now w) <$> groups)))%nat.
Proof.
  induction groups as [|[email rs] groups IH]; intros queued w.
  - exists queued. destruct w as [env now res lim q fl qf rp oa mr lg].
    cbn. munfold. rewrite app_nil_r. split; [done|lia].
  - destruct w as [env now res lim q fl qf rp oa mr lg].
    cbn [queue_account_emails]. unfold queue_account_email, send_message, queue_call.
    munfold. destruct qf as [|[e|] qf]; simpl;
      match goal with
      | |- context [queue_account_emails wid url groups ?qd ?w1] =>
          destruct (IH qd w1) as (queued' & -> & Hlen)
      end; exists queued'; simpl in *.
    + rewrite accepted_by_nil in *. rewrite drop_nil, <- app_assoc.
      split; [done|]. rewrite Hlen, length_app. simpl. unfold fmap. lia.
    + split; [done|]. exact Hlen.
    + rewrite <- app_assoc. split; [done|]. rewrite Hlen, length_app. simpl.
      unfold fmap. lia.
Qed.

(** The master report, whatever the queue answers. *)
Lemma queue_master_report_spec (wid url : string) (all_results : list ResultItem)
    (queued : list QueuedEmail) (w : World) :
  let report :=
    match default_recipients_of (w_env w) with
    | [] => []
    | recipients => [master_message wid url (w_now w) recipients all_results]
    end in
  ∃ queued',
    queue_master_report wid url all_results queued w
    = (Ok queued',
       set_queue_faults (drop (length report) (w_queue_faults w))
         (set_queue (w_queue w ++ accepted_by (w_queue_faults w) report) w))
    ∧ length queued'
      = (length queued + length (accepted_by (w_queue_faults w) report))%nat.
Proof.
  unfold queue_master_report, send_message, queue_call, default_recipients_of.
  munfold. destruct w as [env now res lim q fl qf rp oa mr lg]. simpl.
  destruct (filter _ _) as [|r0 rcp] eqn:Erec; simpl.
  - exists queued. rewrite app_nil_r. split; [done|lia].
  - destruct qf as [|[e|] qf]; simpl.
    + eexists. split; [reflexivity|]. rewrite length_app. simpl. lia.
    + exists queued. rewrite app_nil_r. split; [done|lia].
    + eexists. split; [reflexivity|]. rewrite length_app. simpl. lia.
Qed.

(** Writing the marker on an available store that has none. *)
Lemma mark_emails_as_queued_available (wid : string) (w : World) :
  store_available w →
  w_results w !! (wid, EMAIL_QUEUED_MARKER) = None →
  ∃ w', mark_emails_as_queued wid w = (Ok true, w')
        ∧ w_queue w' = w_queue w ∧ w_env w' = w_env w
        ∧ store_available w'
        ∧ is_Some (w_results w' !! (wid, EMAIL_QUEUED_MARKER)).
Proof.
  intros [Ht Hf] Hmark. unfold store_available, str_truthy, env_truthy in *.
  unfold mark_emails_as_queued, conditional_put. munfold.
  destruct w as [env now res lim q fl qf rp oa mr lg]. simpl in *. subst fl.
  destruct (WORKFLOW_RESULTS_TABLE env) as [name|] eqn:Etable; [|done].
  simpl. rewrite Hmark.
  eexists. split; [reflexivity|]. simpl. rewrite Etable.
  repeat split; try done. rewrite lookup_insert_eq. eauto.
Qed.

(** The first dispatch on an available store: the messages of the
    notification set that the queue accepts go on the queue, and the
    marker is written whatever the queue accepted. *)
Lemma first_dispatch (wid url : string) (all_results : list ResultItem) (w : World) :
  store_available w →
  EMAIL_NOTIFICATION_QUEUE_URL (w_env w) = Some url →
  w_results w !! (wid, EMAIL_QUEUED_MARKER) = None →
  ∃ r w',
    queue_email_notifications wid all_results w = (Ok r, w')
    ∧ w_queue w'
      = w_queue w
        ++ accepted_by (w_queue_faults w)
             (notification_set (w_env w) (w_now w) wid url all_results)
    ∧ total_emails_queued r
      = length (accepted_by (w_queue_faults w)
                  (notification_set (w_env w) (w_now w) wid url all_results))
    ∧ q_status r = None
    ∧ race_condition_detected r = Some false
    ∧ is_Some (w_results w' !! (wid, EMAIL_QUEUED_MARKER))
    ∧ store_available w' ∧ w_env w' = w_env w.
Proof.
  intros Hav Hurl Hmark.
  destruct (check_emails_already_queued_frame wid w)
    as (b & w0 & Hc & _ & _ & _ & _ & Hsame).
  destruct (Hsame Hav) as [-> ->]. rewrite Hmark in Hc.
  rewrite bool_decide_eq_false_2 in Hc by (by intros [? [=]]).
  unfold queue_email_notifications. munfold. rewrite Hc, Hurl.
  unfold notification_set. rewrite group_results_by_email_groups.
  destruct (env_flag (TEST_MASTER_EMAIL_ONLY (w_env w))).
  - destruct (queue_master_report_spec wid url all_results [] w) as (queued & -> & Hlen).
    match goal with
    | |- context [mark_emails_as_queued wid ?w1] =>
        destruct (mark_emails_as_queued_available wid w1)
          as (w2 & -> & Hq2 & He2 & Hav2 & Hm2);
          [by destruct w|by destruct w|]
    end.
    eexists _, _. split; [reflexivity|]. cbn [app total_emails_queued q_status
      race_condition_detected negb].
    split; [rewrite Hq2; by destruct w|].
    split; [by rewrite Hlen|]. split; [done|]. split; [done|].
    split; [done|]. split; [done|]. rewrite He2; by destruct w.
  - destruct (queue_account_emails_spec wid url (notification_groups all_results) [] w)
      as (queued0 & -> & Hlen0).
    match goal with
    | |- context [queue_master_report wid url all_results queued0 ?w1] =>
        destruct (queue_master_report_spec wid url all_results queued0 w1)
          as (queued & -> & Hlen)
    end.
    match goal with
    | |- context [mark_emails_as_queued wid ?w1] =>
        destruct (mark_emails_as_queued_available wid w1)
          as (w2 & -> & Hq2 & He2 & Hav2 & Hm2);
          [by destruct w|by destruct w|]
    end.
    eexists _, _. split; [reflexivity|]. cbn [total_emails_queued q_status
      race_condition_detected negb].
    rewrite accepted_by_app, length_fmap.
    split; [rewrite Hq2; destruct w; simpl; by rewrite <- app_assoc|].
    split; [rewrite Hlen, Hlen0, length_app; destruct w; simpl; done|].
    split; [done|]. split; [done|].
    split; [done|]. split; [done|]. rewrite He2; by destruct w.
Qed.

(** Once the marker is in the table of an available store, every
    further invocation answers [already_queued] and the queue stays as
    it is. *)
Lemma later_invocations (wid : string) (calls : list (Z * list ResultItem)) :
  ∀ w, store_available w →
       is_Some (w_results w !! (wid, EMAIL_QUEUED_MARKER)) →
       ∃ w', invocations wid calls w = ((λ _, Ok (already_queued wid)) <$> calls, w')
             ∧ w_queue w' = w_queue w ∧ w_results w' = w_results w.
Proof.
  induction calls as [|[t rs] calls IH]; intros w Hav Hm; simpl; [eauto|].
  assert (Hav' : store_available (set_now t w)) by (by destruct w).
  destruct (check_emails_already_queued_frame wid (set_now t w))
    as (b & w0 & Hc & _ & _ & _ & _ & Hsame).
  destruct (Hsame Hav') as [-> ->].
  rewrite bool_decide_eq_true_2 in Hc by (by destruct w).
  destruct (marker_observed_no_dispatch wid rs _ _ Hc) as (-> & _ & _).
  destruct (IH (set_now t w) Hav') as (w' & -> & Hq & Hr); [by destruct w|].
  exists w'. split; [done|]. split; [rewrite Hq|rewrite Hr]; by destruct w.
Qed.

(** C1, as amended. On a results table that answers every call and
    holds no marker for the workflow, sequential invocations of the
    dispatch put every message of the notification set on the queue at
    most once: the first invocation sends the set, the queue holds
    afterwards the messages whose send it accepted, in their order, all
    of the set when it refused none; the marker is written whatever the
    queue accepted, the answer counts the accepted messages, and every
    later invocation answers [already_queued] with no email queued. In
    any world, an invocation that observes the marker enqueues
    nothing. *)
Theorem dispatch_at_most_once
    (wid url : string) (t : Z) (all_results : list ResultItem)
    (calls : list (Z * list ResultItem)) (w : World) :
  store_available w →
  EMAIL_NOTIFICATION_QUEUE_URL (w_env w) = Some url →
  w_results w !! (wid, EMAIL_QUEUED_MARKER) = None →
  (∃ first wn,
      invocations wid ((t, all_results) :: calls) w
      = (Ok first :: ((λ _, Ok (already_queued wid)) <$> calls), wn)
      ∧ w_queue wn
        = w_queue w
          ++ accepted_by (w_queue_faults w)
               (notification_set (w_env w) t wid url all_results)
      ∧ sublist (accepted_by (w_queue_faults w)
                   (notification_set (w_env w) t wid url all_results))
          (notification_set (w_env w) t wid url all_results)
      ∧ (w_queue_faults w = [] →
         w_queue wn = w_queue w ++ notification_set (w_env w) t wid url all_results)
      ∧ total_emails_queued first
        = length (accepted_by (w_queue_faults w)
                    (notification_set (w_env w) t wid url all_results))
      ∧ race_condition_detected first = Some false
      ∧ is_Some (w_results wn !! (wid, EMAIL_QUEUED_MARKER)))
  ∧ (∀ rs w0 w1,
        check_emails_already_queued wid w0 = (Ok true, w1) →
        queue_email_notifications wid rs w0 = (Ok (already_queued wid), w1)
        ∧ total_emails_queued (already_queued wid) = 0%nat
        ∧ w_queue w1 = w_queue w0).
Proof.
  intros Hav Hurl Hmark. split.
  - assert (Hav' : store_available (set_now t w)) by (by destruct w).
    destruct (first_dispatch wid url all_results (set_now t w) Hav')
      as (first & w1 & Hq & Hqueue & Htotal & _ & Hrace & Hm & Hav1 & _);
      [by destruct w|by destruct w|].
    destruct (later_invocations wid calls w1 Hav1 Hm) as (wn & Hrest & Hqn & Hrn).
    assert (Hqn' : w_queue wn
                   = w_queue w
                     ++ accepted_by (w_queue_faults w)
                          (notification_set (w_env w) t wid url all_results))
      by (rewrite Hqn, Hqueue; by destruct w).
    exists first, wn. simpl. rewrite Hq, Hrest.
    split; [done|]. split; [exact Hqn'|].
    split; [apply accepted_by_sublist|].
    split; [intros Hnone; by rewrite Hqn', Hnone, accepted_by_nil|].
    split; [rewrite Htotal; by destruct w|]. split; [done|]. by rewrite Hrn.
  - intros rs w0 w1 Hc.
    destruct (marker_observed_no_dispatch wid rs w0 w1 Hc) as (Hq & Hqueue & _).
    done.
Qed.

End coordinator_facts.

(** C2 fails on the code: the count of [check_workflow_completion] is
    the number of all rows of the workflow, the marker row among them.
    With two results and the marker in the table the count is 3 and a
    workflow of three accounts is reported complete; without the marker
    the count is 2 and it is not. [count_completed_results], which
    filters on the status, gives 2 on both tables. *)
Lemma marker_row_is_counted :
  (∃ st, (check_workflow_completion "wf" 3 two_results_and_marker_world).1 = Ok st
         ∧ all_complete st = true ∧ completed_count st = 3
         ∧ marker_row "wf" ∈ results st)
  ∧ (∃ st, (check_workflow_completion "wf" 3 two_results_world).1 = Ok st
           ∧ all_complete st = false ∧ completed_count st = 2)
  ∧ (count_completed_results "wf" two_results_and_marker_world).1 = Ok 2
  ∧ (count_completed_results "wf" two_results_world).1 = Ok 2.
Proof.
  split; [|split; [|split]].
  - eexists. split; [vm_compute; reflexivity|].
    split; [reflexivity|]. split; [reflexivity|]. in_list.
  - eexists. split; [vm_compute; reflexivity|]. split; reflexivity.
  - vm_compute. reflexivity.
  - vm_compute. reflexivity.
Qed.

(** ** The consumer of the notification queue *)

Section sender_facts.

Lemma returns_false_on_error (m : M bool) (w : World) :
  ∃ b w', try_except m (λ _, mret false) w = (Ok b, w').
Proof. unfold try_except. destruct (m w) as [[b|e] w']; eauto. Qed.

Lemma send_by_type_returns (ty : string) (message : email_sender.EmailMessage)
    (w : World) :
  ∃ b w', email_sender.send_by_type ty message w = (Ok b, w').
Proof.
  unfold email_sender.send_by_type.
  destruct (String.eqb ty "account_specific").
  - unfold email_sender.send_account_specific_email.
    unfold mbind at 1. unfold M_bind, log_effect, modify_world.
    apply returns_false_on_error.
  - destruct (String.eqb ty "master_report"); [|munfold; eauto].
    unfold email_sender.send_master_report_email.
    unfold mbind at 1. unfold M_bind, log_effect, modify_world.
    apply returns_false_on_error.
Qed.

(** *** The receive count of a record

    SQS writes [ApproximateReceiveCount] as the decimal text of a
    number; [int] reads the number back. *)
Lemma digit_of_pretty_N_char (m : N) :
  (m < 10)%N → digit_of (pretty_N_char m) = Some (Z.of_N m).
Proof.
  intros Hm.
  assert (m = 0 ∨ m = 1 ∨ m = 2 ∨ m = 3 ∨ m = 4 ∨ m = 5 ∨ m = 6 ∨ m = 7
          ∨ m = 8 ∨ m = 9)%N as Hc by lia.
  repeat (destruct Hc as [->|Hc]; [reflexivity|]). by subst m.
Qed.

Lemma digit_not_space (a : Ascii.ascii) : is_Some (digit_of a) → py_space a = false.
Proof.
  unfold digit_of, py_space. cbv zeta.
  destruct (48 <=? Ascii.N_of_ascii a)%N eqn:E1; [|by intros [? [=]]].
  destruct (Ascii.N_of_ascii a <=? 57)%N eqn:E2; [|by intros [? [=]]].
  intros _. apply N.leb_le in E1.
  replace (Ascii.N_of_ascii a =? 32)%N with false by (symmetry; apply N.eqb_neq; lia).
  replace (Ascii.N_of_ascii a <=? 13)%N with false by (symmetry; apply N.leb_gt; lia).
  replace (Ascii.N_of_ascii a <=? 31)%N with false by (symmetry; apply N.leb_gt; lia).
  by rewrite !andb_false_r.
Qed.

Lemma all_digits_cons (a : Ascii.ascii) (r : string) :
  all_digits (String a r) = true ↔ is_Some (digit_of a) ∧ all_digits r = true.
Proof.
  cbn [all_digits]. rewrite andb_true_iff, bool_decide_eq_true. done.
Qed.

Lemma strip_all_digits (s : string) : all_digits s = true → strip s = s.
Proof.
  intros Hd. unfold strip.
  assert (lstrip s = s) as ->.
  { destruct s as [|a r]; [done|]. apply all_digits_cons in Hd as [Ha _].
    cbn [lstrip]. by rewrite digit_not_space. }
  induction s as [|a r IH]; [done|].
  apply all_digits_cons in Hd as [Ha Hr]. cbn [rstrip]. rewrite IH by done.
  destruct r; [by rewrite digit_not_space|done].
Qed.

(** A text that begins with a digit has no sign. *)
Lemma py_int_all_digits (s : string) : all_digits s = true → py_int s = unsigned_int s.
Proof.
  intros Hd. unfold py_int. rewrite strip_all_digits by done.
  destruct s as [|a r]; [done|]. apply all_digits_cons in Hd as [Ha _].
  destruct a as [[] [] [] [] [] [] [] []]; try reflexivity;
    destruct Ha as [d Hd]; vm_compute in Hd; discriminate Hd.
Qed.

Lemma all_digits_pretty_N_go (x : N) :
  ∀ s, all_digits s = true → all_digits (pretty_N_go x s) = true.
Proof.
  induction (N.lt_wf_0 x) as [x _ IH]; intros s Hs.
  destruct (decide (x = 0)%N) as [->|Hx]; [by rewrite pretty_N_go_0|].
  rewrite pretty_N_go_step by lia. apply IH.
  - apply N.div_lt; lia.
  - apply all_digits_cons. split; [|done].
    rewrite digit_of_pretty_N_char; [eauto|]. apply N.mod_lt. lia.
Qed.

Lemma digits_from_pretty_N_go (x : N) :
  ∀ s, (0 < x)%N →
       digits_from 0 false (pretty_N_go x s) = digits_from (Z.of_N x) true s.
Proof.
  induction (N.lt_wf_0 x) as [x _ IH]; intros s Hx.
  rewrite pretty_N_go_step by done.
  assert (Hdigit : digit_of (pretty_N_char (x `mod` 10)) = Some (Z.of_N (x `mod` 10)))
    by (apply digit_of_pretty_N_char, N.mod_lt; lia).
  assert (Hsplit : (10 * Z.of_N (x `div` 10) + Z.of_N (x `mod` 10) = Z.of_N x)%Z).
  { rewrite (N.div_mod x 10) at 3 by lia. lia. }
  destruct (decide (x `div` 10 = 0)%N) as [Hz|Hnz].
  - rewrite Hz, pretty_N_go_0. cbn [digits_from]. rewrite Hdigit.
    f_equal. rewrite Hz in Hsplit. lia.
  - rewrite IH; [|apply N.div_lt; lia|by apply N.neq_0_lt_0].
    cbn [digits_from]. rewrite Hdigit. by rewrite Hsplit.
Qed.

(** [int(str(n)) == n] on the natural numbers. *)
Lemma py_int_pretty (n : N) : py_int (pretty n) = Some (Z.of_N n).
Proof.
  unfold pretty, pretty_N. destruct (decide (n = 0)%N) as [->|Hn]; [reflexivity|].
  rewrite py_int_all_digits by (by apply all_digits_pretty_N_go).
  unfold unsigned_int. rewrite digits_from_pretty_N_go by lia. reflexivity.
Qed.

(** The retry count of a record is its receive count less one, and 0
    for a record without receive count. *)
Lemma sender_retry_count {B} (record : SqsRecord B) (count : option N) :
  ApproximateReceiveCount record = pretty <$> count →
  email_sender.get_message_retry_count record = Z.of_N (default 1%N count) - 1.
Proof.
  intros Hc. unfold email_sender.get_message_retry_count. rewrite Hc.
  destruct count as [n|]; cbn [fmap option_fmap option_map default id].
  - by rewrite py_int_pretty.
  - reflexivity.
Qed.

(** C8. The retry count of a record of the notification queue is the
    receive count that SQS gives it, less one (0 without the
    attribute), and the consumer returns for every record. A record
    whose retry count has reached 3 is acknowledged and the world is as
    before: nothing was sent. A record is put back on the queue only
    while its retry count is below [max_retries - 1]; a record whose
    send returns false is put back when its retry count is below
    [max_retries - 1] and acknowledged otherwise. *)
Theorem sender_bounded_redelivery
    (record : SqsRecord email_sender.EmailMessage) (count : option N) (w : World) :
  ApproximateReceiveCount record = pretty <$> count →
  let retry_count := Z.of_N (default 1%N count) - 1 in
  email_sender.get_message_retry_count record = retry_count
  ∧ ∃ a w',
      email_sender.process_record record w = (Ok a, w')
      ∧ (email_sender.max_retries ≤ retry_count → a = Acked ∧ w' = w)
      ∧ (a = Requeued → retry_count < email_sender.max_retries - 1)
      ∧ (∀ message ty w1,
            body record = Some message →
            email_sender.email_type message = Some ty →
            retry_count < email_sender.max_retries →
            email_sender.send_by_type ty message w = (Ok false, w1) →
            w' = w1
            ∧ a = if retry_count <? email_sender.max_retries - 1
                  then Requeued else Acked).
Proof.
  intros Hcount retry_count.
  pose proof (sender_retry_count record count Hcount) as Hretry.
  fold retry_count in Hretry. split; [exact Hretry|].
  unfold email_sender.process_record, email_sender.max_retries.
  assert (Hexc : ∀ w0,
            ∃ a, email_sender.on_exception record w0 = (Ok a, w0)
                 ∧ (3 ≤ retry_count → a = Acked)
                 ∧ (a = Requeued → retry_count < 3 - 1)).
  { intros w0. unfold email_sender.on_exception, email_sender.max_retries. munfold.
    rewrite Hretry. destruct (3 - 1 <=? retry_count) eqn:E.
    - exists Acked. repeat split; try done.
    - apply Z.leb_gt in E. exists Requeued. split; [done|]. split; [lia|done]. }
  assert (Hother : body record = None →
            ∃ a w', email_sender.on_exception record w = (Ok a, w')
                    ∧ (3 ≤ retry_count → a = Acked ∧ w' = w)
                    ∧ (a = Requeued → retry_count < 3 - 1)
                    ∧ (∀ message ty w1,
                          body record = Some message →
                          email_sender.email_type message = Some ty →
                          retry_count < 3 →
                          email_sender.send_by_type ty message w = (Ok false, w1) →
                          w' = w1
                          ∧ a = if retry_count <? 3 - 1 then Requeued else Acked)).
  { intros Hnone. destruct (Hexc w) as (a & -> & Hge & Hre).
    exists a, w. split; [done|]. split; [auto|]. split; [done|].
    intros m ty w1 Hsome. congruence. }
  unfold body in *.
  destruct (decoded record) as [|truthy|message] eqn:Hdec; [by apply Hother..|].
  clear Hother.
  unfold try_except, email_sender.process_message, email_sender.required.
  munfold. unfold email_sender.max_retries. rewrite Hretry.
  destruct (email_sender.email_type message) as [ty|] eqn:Hty.
  - destruct (3 <=? retry_count) eqn:E.
    + apply Z.leb_le in E. exists Acked, w. split; [done|]. split; [done|].
      split; [done|]. intros m ty' w1 _ _ Hlt. lia.
    + apply Z.leb_gt in E.
      destruct (send_by_type_returns ty message w) as (b & w1 & Hs). rewrite Hs.
      destruct b.
      * exists Acked, w1. split; [done|]. split; [lia|]. split; [done|].
        intros m ty' w2 [= <-] Hty'. rewrite Hty in Hty'. injection Hty' as <-.
        intros _ Hs'. rewrite Hs in Hs'. discriminate.
      * destruct (retry_count <? 3 - 1) eqn:E2.
        -- apply Z.ltb_lt in E2. exists Requeued, w1. split; [done|].
           split; [lia|]. split; [lia|].
           intros m ty' w2 [= <-] Hty'. rewrite Hty in Hty'. injection Hty' as <-.
           intros _ Hs'. rewrite Hs in Hs'. by injection Hs' as <-.
        -- exists Acked, w1. split; [done|]. split; [lia|]. split; [done|].
           intros m ty' w2 [= <-] Hty'. rewrite Hty in Hty'. injection Hty' as <-.
           intros _ Hs'. rewrite Hs in Hs'. by injection Hs' as <-.
  - destruct (Hexc w) as (a & -> & Hge & Hre).
    exists a, w. split; [done|]. split; [auto|]. split; [done|].
    intros m ty w1 [= <-] Hty'. congruence.
Qed.

End sender_facts.

(** ** The account-email mapping *)

Section mapping_facts.

Lemma dict_get_set_eq {V} (k : string) (v : V) (d : odict V) :
  dict_get k (dict_set k v d) = Some v.
Proof.
  induction d as [|[k' v'] d IH]; simpl.
  - by rewrite String.eqb_refl.
  - destruct (String.eqb k' k) eqn:E; simpl; rewrite E; [done|exact IH].
Qed.

Lemma dict_get_set_ne {V} (k k' : string) (v : V) (d : odict V) :
  k ≠ k' → dict_get k' (dict_set k v d) = dict_get k' d.
Proof.
  intros Hne. induction d as [|[k0 v0] d IH]; simpl.
  - destruct (String.eqb k k') eqn:E; [|done]. by apply String.eqb_eq in E.
  - destruct (String.eqb k0 k) eqn:E; simpl.
    + apply String.eqb_eq in E as ->.
      destruct (String.eqb k k') eqn:E'; [|done]. by apply String.eqb_eq in E'.
    + by rewrite IH.
Qed.

Lemma dict_get_elem {V} (k : string) (v : V) (d : odict V) :
  dict_get k d = Some v → (k, v) ∈ d.
Proof.
  induction d as [|[k' v'] d IH]; simpl; [done|].
  destruct (String.eqb k' k) eqn:E.
  - apply String.eqb_eq in E as ->. intros [= ->]. left.
  - intros Hd. right. by apply IH.
Qed.

Lemma dict_get_none {V} (k : string) (d : odict V) :
  k ∉ d.*1 → dict_get k d = None.
Proof.
  induction d as [|[k' v'] d IH]; simpl; [done|].
  intros Hn. apply not_elem_of_cons in Hn as [Hne Hn].
  destruct (String.eqb k' k) eqn:E; [|by apply IH].
  apply String.eqb_eq in E. congruence.
Qed.

(** Copying a dictionary into another, entry by entry. *)
Lemma fold_set_other {V} (f : string * V → V) (k : string) (l : odict V) :
  ∀ d0 : odict V,
    k ∉ l.*1 →
    dict_get k (foldl (λ d kv, dict_set kv.1 (f kv) d) d0 l) = dict_get k d0.
Proof.
  induction l as [|[k' v'] l IH]; intros d0 Hn; simpl; [done|].
  simpl in Hn. apply not_elem_of_cons in Hn as [Hne Hn].
  rewrite IH by done. by apply dict_get_set_ne.
Qed.

Lemma fold_set_get {V} (f : string * V → V) (k : string) (v : V) (l : odict V) :
  ∀ d0 : odict V,
    NoDup l.*1 →
    dict_get k l = Some v →
    dict_get k (foldl (λ d kv, dict_set kv.1 (f kv) d) d0 l) = Some (f (k, v)).
Proof.
  induction l as [|[k' v'] l IH]; intros d0 Hnd Hget; simpl in *; [done|].
  apply NoDup_cons in Hnd as [Hn Hnd].
  destruct (String.eqb k' k) eqn:E.
  - apply String.eqb_eq in E as ->. injection Hget as ->.
    rewrite fold_set_other by done. apply dict_get_set_eq.
  - by apply IH.
Qed.

(** A turn of the loop over the custom mapping for another account
    leaves the email and the source of this one. *)
Lemma override_other (c : Combined) (account_id new_email acc : string) :
  account_id ≠ acc →
  dict_get acc (combined_account_to_email (override_with_custom c (account_id, new_email)))
  = dict_get acc (combined_account_to_email c)
  ∧ dict_get acc (mapping_sources (override_with_custom c (account_id, new_email)))
    = dict_get acc (mapping_sources c).
Proof.
  intros Hne. unfold override_with_custom.
  destruct (str_truthy _ && _); [|destruct (negb _)]; simpl;
    by rewrite !dict_get_set_ne.
Qed.

(** The turn for an account whose email is already the custom one: the
    source stays [organizations]. *)
Lemma override_same (c : Combined) (acc e : string) :
  dict_get acc (combined_account_to_email c) = Some e →
  e ≠ "" →
  dict_get acc (combined_account_to_email (override_with_custom c (acc, e))) = Some e
  ∧ dict_get acc (mapping_sources (override_with_custom c (acc, e)))
    = Some "organizations".
Proof.
  intros Hold Hne. unfold override_with_custom. rewrite Hold.
  rewrite bool_decide_eq_true_2 by done. rewrite andb_false_r.
  replace (str_truthy (Some e)) with true.
  2:{ unfold str_truthy, env_truthy. destruct (String.eqb e "") eqn:E; [|done].
      by apply String.eqb_eq in E. }
  simpl. by rewrite !dict_get_set_eq.
Qed.

Lemma override_fold (custom : odict string) (acc e : string) :
  ∀ c : Combined,
    NoDup custom.*1 →
    dict_get acc custom = Some e →
    dict_get acc (combined_account_to_email c) = Some e →
    e ≠ "" →
    dict_get acc (combined_account_to_email (foldl override_with_custom c custom)) = Some e
    ∧ dict_get acc (mapping_sources (foldl override_with_custom c custom))
      = Some "organizations".
Proof.
  assert (Hrest : ∀ (l : odict string) (c : Combined),
            acc ∉ l.*1 →
            dict_get acc (combined_account_to_email (foldl override_with_custom c l))
            = dict_get acc (combined_account_to_email c)
            ∧ dict_get acc (mapping_sources (foldl override_with_custom c l))
              = dict_get acc (mapping_sources c)).
  { induction l as [|[k v] l IH]; intros c Hn; [done|].
    simpl in Hn. apply not_elem_of_cons in Hn as [Hne Hn].
    change (foldl override_with_custom c ((k, v) :: l))
      with (foldl override_with_custom (override_with_custom c (k, v)) l).
    destruct (IH (override_with_custom c (k, v)) Hn) as [-> ->].
    by apply override_other. }
  induction custom as [|[k v] custom IH]; intros c Hnd Hget Hold Hne;
    [discriminate Hget|].
  simpl in Hnd, Hget.
  change (foldl override_with_custom c ((k, v) :: custom))
    with (foldl override_with_custom (override_with_custom c (k, v)) custom).
  apply NoDup_cons in Hnd as [Hn Hnd].
  destruct (String.eqb k acc) eqn:E.
  - apply String.eqb_eq in E as ->. injection Hget as ->.
    destruct (Hrest custom (override_with_custom c (acc, e)) Hn) as [-> ->].
    by apply override_same.
  - apply IH; try done.
    destruct (override_other c k v acc) as [-> _]; [|done].
    intros ->. by rewrite String.eqb_refl in E.
Qed.

(** Writing an entry keeps the keys of a dictionary distinct. *)
Lemma dict_set_keys {V} (k : string) (v : V) (d : odict V) :
  NoDup d.*1 → NoDup (dict_set k v d).*1
  ∧ ∀ k', k' ∈ (dict_set k v d).*1 → k' = k ∨ k' ∈ d.*1.
Proof.
  induction d as [|[k0 v0] d IH]; intros Hnd; simpl.
  - split; [repeat constructor; by intros ?%elem_of_nil|].
    intros k' Hin. apply elem_of_cons in Hin as [->|Hin]; [by left|by right].
  - simpl in Hnd. apply NoDup_cons in Hnd as [Hn Hnd].
    destruct (String.eqb k0 k) eqn:E; simpl.
    + split; [by apply NoDup_cons|]. intros k' Hin. by right.
    + destruct (IH Hnd) as [Hnd' Hkeys]. split.
      * apply NoDup_cons. split; [|done]. intros Hin.
        destruct (Hkeys _ Hin) as [->|Hin']; [|done].
        by rewrite String.eqb_refl in E.
      * intros k' Hin. apply elem_of_cons in Hin as [->|Hin].
        -- right. left.
        -- destruct (Hkeys _ Hin) as [->|Hin']; [by left|]. right. by right.
Qed.

Lemma dict_set_email_dict (k v : string) (d : odict string) :
  v ≠ "" → email_dict d → email_dict (dict_set k v d).
Proof.
  intros Hv [Hnd Hvals]. split; [by apply dict_set_keys|].
  intros k' v'. destruct (decide (k = k')) as [->|Hne].
  - rewrite dict_get_set_eq. by intros [= <-].
  - rewrite dict_get_set_ne by done. apply Hvals.
Qed.

Lemma truthy_nonempty (s : string) : str_truthy (Some s) = true → s ≠ "".
Proof.
  unfold str_truthy, env_truthy. destruct (String.eqb s "") eqn:E; [done|].
  intros _ ->. by rewrite String.eqb_refl in E.
Qed.

(** What the two fetchers return are dictionaries of non-empty emails. *)
Lemma organization_mapping_email_dict (w : World) :
  ∃ d w', get_organization_account_email_mapping w = (Ok d, w') ∧ email_dict d.1.
Proof.
  assert (Hempty : email_dict []).
  { split; [constructor|]. intros k v [=]. }
  assert (Hfold : ∀ accounts acc0,
            email_dict acc0.1 → email_dict (foldl add_org_account acc0 accounts).1).
  { induction accounts as [|a accounts IH]; intros [d e] Hd; [done|].
    change (foldl add_org_account (d, e) (a :: accounts))
      with (foldl add_org_account (add_org_account (d, e) a) accounts).
    apply IH. unfold add_org_account.
    destruct (Email a) as [email|]; [|done].
    destruct (str_truthy (Some email)) eqn:E; [|done].
    apply dict_set_email_dict; [by apply truthy_nonempty|done]. }
  unfold get_organization_account_email_mapping. munfold.
  destruct (negb (env_flag _)); [eauto|].
  destruct (w_faults w) as [|[e|] fl]; eauto.
Qed.

Lemma custom_mapping_email_dict (w : World) :
  ∃ d w', get_custom_account_email_mapping_from_dynamodb w = (Ok d, w')
          ∧ email_dict d.1.
Proof.
  assert (Hempty : email_dict []).
  { split; [constructor|]. intros k v [=]. }
  assert (Hfold : ∀ rows acc0,
            email_dict acc0.1 → email_dict (foldl add_mapping_row acc0 rows).1).
  { induction rows as [|r rows IH]; intros [d e] Hd; [done|].
    change (foldl add_mapping_row (d, e) (r :: rows))
      with (foldl add_mapping_row (add_mapping_row (d, e) r) rows).
    apply IH. unfold add_mapping_row.
    destruct (negb (str_truthy (Some (strip (default "" (AccountId r))))));
      [done|].
    destruct (str_truthy (Some (strip (default "" (MappingEmail r))))) eqn:E;
      [|done].
    apply dict_set_email_dict; [by apply truthy_nonempty|done]. }
  unfold get_custom_account_email_mapping_from_dynamodb. munfold.
  destruct (negb (env_flag _)); [eauto|].
  destruct (negb (str_truthy _)); [eauto|].
  destruct (w_faults w) as [|[e|] fl]; eauto.
Qed.

(** C9. For an account that the Organizations mapping and the custom
    mapping give the same email, the combined mapping records the source
    [organizations] and the email of the custom mapping. *)
Theorem same_email_keeps_organizations_source
    (w w1 w2 : World) (org custom : odict string * odict (list string))
    (acc e : string) :
  env_flag (USE_ORGANIZATION_ACCOUNT_EMAIL_MAPPING (w_env w)) = true →
  env_flag (USE_CUSTOM_ACCOUNT_EMAIL_MAPPING (w_env w)) = true →
  get_organization_account_email_mapping w = (Ok org, w1) →
  get_custom_account_email_mapping_from_dynamodb w1 = (Ok custom, w2) →
  dict_get acc org.1 = Some e →
  dict_get acc custom.1 = Some e →
  ∃ c, get_combined_account_email_mapping w = (Ok c, w2)
       ∧ dict_get acc (mapping_sources c) = Some "organizations"
       ∧ dict_get acc (combined_account_to_email c) = Some e.
Proof.
  intros Horg_on Hcustom_on Horg Hcustom Hacc_org Hacc_custom.
  destruct (organization_mapping_email_dict w) as (d & w' & Ho & [Hnd_org Hval_org]).
  rewrite Horg in Ho. injection Ho as <- <-.
  destruct (custom_mapping_email_dict w1) as (d & w' & Hc & [Hnd_custom _]).
  rewrite Hcustom in Hc. injection Hc as <- <-.
  assert (Hne : e ≠ "") by (by eapply Hval_org).
  destruct org as [org_emails org_accounts].
  destruct custom as [custom_emails custom_accounts].
  cbn [fst snd] in *.
  destruct org_emails as [|entry rest]; [discriminate Hacc_org|].
  assert (Hbase : dict_get acc
                    (combined_account_to_email
                       (add_organizations (entry :: rest) org_accounts empty_combined))
                  = Some e).
  { unfold add_organizations, combined_account_to_email, empty_combined.
    by apply (fold_set_get (λ kv, kv.2) acc e (entry :: rest) []). }
  destruct (override_fold custom_emails acc e
              (add_organizations (entry :: rest) org_accounts empty_combined)
              Hnd_custom Hacc_custom Hbase Hne) as [Hemail Hsource].
  unfold get_combined_account_email_mapping. munfold.
  rewrite Horg_on, Hcustom_on, Horg. cbv beta iota. cbn [fst snd].
  rewrite Hcustom. cbv beta iota. cbn [fst snd].
  destruct (combined_account_to_email
              (foldl override_with_custom
                 (add_organizations (entry :: rest) org_accounts empty_combined)
                 custom_emails)) eqn:Ec;
    [discriminate Hemail|].
  eexists. split; [reflexivity|]. split; [done|]. by rewrite Ec.
Qed.

End mapping_facts.

Lemma same_email_keeps_organizations_source_witness :
  ∃ c, get_combined_account_email_mapping mapping_world
       = (Ok c, (get_custom_account_email_mapping_from_dynamodb
                   (get_organization_account_email_mapping mapping_world).2).2)
       ∧ dict_get "111111111111" (mapping_sources c) = Some "organizations"
       ∧ dict_get "111111111111" (combined_account_to_email c)
         = Some "prod@example.com".
Proof.
  apply (same_email_keeps_organizations_source mapping_world mapping_world mapping_world
           ([("111111111111", "prod@example.com"); ("222222222222", "dev@example.com")],
            [("prod@example.com", ["111111111111"]); ("dev@example.com", ["222222222222"])])
           ([("111111111111", "prod@example.com"); ("222222222222", "team@example.com");
             ("333333333333", "new@example.com")],
            [("prod@example.com", ["111111111111"]); ("team@example.com", ["222222222222"]);
             ("new@example.com", ["333333333333"])])
           "111111111111" "prod@example.com");
    reflexivity.
Defined.

(** ** The properties on the examples *)

Lemma dispatch_at_most_once_witness :
  (∃ first wn,
      invocations (H := plain_library) "wf"
        ((5, [account_row "wf" "111111111111"]) :: later_calls) fresh_world
      = (Ok first :: ((λ _, Ok (already_queued "wf")) <$> later_calls), wn)
      ∧ w_queue wn
        = w_queue fresh_world
          ++ accepted_by (w_queue_faults fresh_world)
               (notification_set (H := plain_library) (w_env fresh_world) 5 "wf"
                  "https://sqs.example/email.fifo" [account_row "wf" "111111111111"])
      ∧ sublist
          (accepted_by (w_queue_faults fresh_world)
             (notification_set (H := plain_library) (w_env fresh_world) 5 "wf"
                "https://sqs.example/email.fifo" [account_row "wf" "111111111111"]))
          (notification_set (H := plain_library) (w_env fresh_world) 5 "wf"
             "https://sqs.example/email.fifo" [account_row "wf" "111111111111"])
      ∧ (w_queue_faults fresh_world = [] →
         w_queue wn
         = w_queue fresh_world
           ++ notification_set (H := plain_library) (w_env fresh_world) 5 "wf"
                "https://sqs.example/email.fifo" [account_row "wf" "111111111111"])
      ∧ total_emails_queued first
        = length (accepted_by (w_queue_faults fresh_world)
                    (notification_set (H := plain_library) (w_env fresh_world) 5 "wf"
                       "https://sqs.example/email.fifo"
                       [account_row "wf" "111111111111"]))
      ∧ race_condition_detected first = Some false
      ∧ is_Some (w_results wn !! ("wf", EMAIL_QUEUED_MARKER)))
  ∧ (∀ rs w0 w1,
        check_emails_already_queued "wf" w0 = (Ok true, w1) →
        queue_email_notifications (H := plain_library) "wf" rs w0
        = (Ok (already_queued "wf"), w1)
        ∧ total_emails_queued (already_queued "wf") = 0%nat
        ∧ w_queue w1 = w_queue w0).
Proof.
  apply (dispatch_at_most_once (H := plain_library) "wf"
           "https://sqs.example/email.fifo" 5 [account_row "wf" "111111111111"]
           later_calls fresh_world).
  - split; reflexivity.
  - reflexivity.
  - reflexivity.
Defined.

(** C1, as the specification words it, fails: the results table answers
    every call and holds no marker, the notification set of the workflow
    has two messages, and the queue refuses both sends. The first
    invocation swallows the refusals, reports no email queued and writes
    the marker; the later ones answer [already_queued]. The set is on
    the queue zero times, and no later invocation will send it. *)
Lemma dispatch_enqueues_nothing :
  store_available refusing_queue_world
  ∧ w_results refusing_queue_world !! ("wf", EMAIL_QUEUED_MARKER) = None
  ∧ length (notification_set (H := plain_library) (w_env refusing_queue_world) 5 "wf"
              "https://sqs.example/email.fifo" [account_row "wf" "111111111111"])
    = 2%nat
  ∧ let '(answers, wn) :=
      invocations (H := plain_library) "wf"
        ((5, [account_row "wf" "111111111111"]) :: later_calls) refusing_queue_world in
    answers = [Ok {| total_emails_queued := 0; queued_emails := [];
                     q_status := None; race_condition_detected := Some false;
                     q_workflow_id := "wf" |};
               Ok (already_queued "wf"); Ok (already_queued "wf")]
    ∧ w_queue wn = []
    ∧ is_Some (w_results wn !! ("wf", EMAIL_QUEUED_MARKER)).
Proof.
  split; [split; reflexivity|]. split; [reflexivity|]. split; [reflexivity|].
  vm_compute. split; [reflexivity|]. split; [reflexivity|]. eauto.
Qed.

Lemma sender_bounded_redelivery_witness :
  let retry_count := Z.of_N (default 1%N (Some 1000%N)) - 1 in
  email_sender.get_message_retry_count (email_record "1000") = retry_count
  ∧ ∃ a w',
      email_sender.process_record (email_record "1000") fresh_world = (Ok a, w')
      ∧ (email_sender.max_retries ≤ retry_count → a = Acked ∧ w' = fresh_world)
      ∧ (a = Requeued → retry_count < email_sender.max_retries - 1)
      ∧ (∀ message ty w1,
            body (email_record "1000") = Some message →
            email_sender.email_type message = Some ty →
            retry_count < email_sender.max_retries →
            email_sender.send_by_type ty message fresh_world = (Ok false, w1) →
            w' = w1
            ∧ a = if retry_count <? email_sender.max_retries - 1
                  then Requeued else Acked).
Proof.
  apply (sender_bounded_redelivery (email_record "1000") (Some 1000%N) fresh_world).
  reflexivity.
Defined.

Lemma incomplete_workflow_raises_witness :
  (∃ msg,
      email_queue_manager.lambda_handler (H := plain_library)
        {| ev_workflow_id := Some "wf"; ev_total_accounts := Some 3;
           fallback_mode := None; triggered_by := None |} two_results_world
      = (Raise (IncompleteWorkflowException msg), two_results_world))
  ∧ w_queue two_results_world = w_queue two_results_world
  ∧ w_results two_results_world = w_results two_results_world.
Proof.
  apply (incomplete_workflow_raises (H := plain_library)
           {| ev_workflow_id := Some "wf"; ev_total_accounts := Some 3;
              fallback_mode := None; triggered_by := None |}
           "wf" 3
           {| all_complete := false; completed_count := 2; total_accounts := 3;
              results := [] |}
           two_results_world two_results_world).
  - reflexivity.
  - reflexivity.
  - vm_compute. reflexivity.
  - simpl. lia.
Defined.

(** * Further properties of the modelled code *)

(** ** The rate limiter *)

(** X1. The check of the rate limiter fails open: it returns for every
    world; when the limiter table is not configured or its first call
    raises, the call is allowed and the row is as before; when the write
    that follows the read raises, the row is as before too. *)
Theorem rate_limit_fails_open (w : World) :
  (∃ b w', check_bedrock_rate_limit w = (Ok b, w'))
  ∧ (env_truthy (BEDROCK_RATE_LIMITER_TABLE (w_env w)) = false
     ∨ (∃ e rest, w_faults w = Some e :: rest) →
     ∃ w', check_bedrock_rate_limit w = (Ok true, w') ∧ w_limiter w' = w_limiter w)
  ∧ ((∃ e rest, w_faults w = None :: Some e :: rest) →
     ∃ b w', check_bedrock_rate_limit w = (Ok b, w') ∧ w_limiter w' = w_limiter w).
Proof.
  split; [apply check_rate_limit_total|].
  unfold check_bedrock_rate_limit, limiter_get_item, limiter_update_item,
    limiter_put_item.
  destruct w as [env now res lim q fl qf rp oa mr lg]. munfold. cbn [w_env w_faults w_limiter].
  split.
  - intros [Hoff|(e & rest & ->)].
    + rewrite Hoff. simpl. eauto.
    + destruct (env_truthy (BEDROCK_RATE_LIMITER_TABLE env)); simpl; eauto.
  - intros (e & rest & ->).
    destruct (env_truthy (BEDROCK_RATE_LIMITER_TABLE env)); simpl; [|eauto].
    destruct lim as [item|]; simpl; [|eauto].
    destruct (60 <=? now - last_call_time item); simpl; [eauto|].
    destruct (calls_this_minute item <? max_calls_per_minute item); simpl; eauto.
Qed.

(** X2. Within the window of a row, the calls left under the ceiling are
    all that is allowed: from a row with [calls] calls counted and the
    ceiling [k], calls made in time order from the start of the row's
    window on are allowed at most [max 0 (k - calls)] times before the
    window ends. *)
Theorem fixed_window_respects_ceiling
    (w : World) (item : LimiterItem) (times : list Z) :
  limiter_available w →
  w_limiter w = Some item →
  0 ≤ max_calls_per_minute item →
  StronglySorted Z.le times →
  Forall (λ t, last_call_time item ≤ t) times →
  allowed_in_window (last_call_time item) (simulate times w).1
  ≤ Z.max 0 (max_calls_per_minute item - calls_this_minute item).
Proof.
  intros Hav Hl Hk Hs Hall.
  rewrite (simulate_limiter_run times w item Hav Hl).
  pose proof (window_budget_bound (last_call_time item) (max_calls_per_minute item)
                times Hk item Hall Hs eq_refl) as Hb.
  unfold window_budget in Hb. by rewrite Z.leb_refl in Hb.
Qed.

Lemma fixed_window_respects_ceiling_witness :
  allowed_in_window (last_call_time (limiter_row 18 20))
    (simulate [1; 2; 3; 59] (limiter_world 18 20)).1
  ≤ Z.max 0 (max_calls_per_minute (limiter_row 18 20)
             - calls_this_minute (limiter_row 18 20)).
Proof.
  apply (fixed_window_respects_ceiling (limiter_world 18 20) (limiter_row 18 20)
           [1; 2; 3; 59]).
  - split; reflexivity.
  - reflexivity.
  - simpl; lia.
  - repeat constructor; lia.
  - repeat constructor; simpl; lia.
Defined.

(** X3. The ceiling of a row that exists is never changed by the code:
    the check of the limiter writes the counter and the start of the
    window only, whatever the services answer, and the backoff leaves
    the whole row as it is. *)
Theorem ceiling_is_never_changed (w : World) (item : LimiterItem) :
  w_limiter w = Some item →
  (∀ r w', check_bedrock_rate_limit w = (r, w') →
           ∃ item', w_limiter w' = Some item'
                    ∧ max_calls_per_minute item' = max_calls_per_minute item)
  ∧ (∃ w', update_rate_limit_backoff w = (Ok tt, w') ∧ w_limiter w' = Some item).
Proof.
  intros Hl. split.
  - intros r w' Hc. by eapply check_keeps_ceiling.
  - destruct (backoff_keeps_world w) as (w' & Hb & Hl' & _).
    exists w'. split; [done|]. congruence.
Qed.

Lemma ceiling_is_never_changed_witness :
  (∀ r w', check_bedrock_rate_limit (limiter_world 5 20) = (r, w') →
           ∃ item', w_limiter w' = Some item'
                    ∧ max_calls_per_minute item' = max_calls_per_minute (limiter_row 5 20))
  ∧ (∃ w', update_rate_limit_backoff (limiter_world 5 20) = (Ok tt, w')
           ∧ w_limiter w' = Some (limiter_row 5 20)).
Proof.
  apply (ceiling_is_never_changed (limiter_world 5 20) (limiter_row 5 20)).
  reflexivity.
Defined.


(** ** The handler of the analysis queue, further *)

Ltac munfold_fmap :=
  unfold fmap, M_fmap in *; munfold.

Section analyzer_extras.
Context `{Library}.

Lemma process_record_returns (record : SqsRecord Message) (w : World) :
  ∃ a w', process_record record w = (Ok a, w').
Proof.
  unfold process_record. destruct (decoded record) as [|truthy|message].
  - unfold except_clauses, on_exception. munfold. cbn. eauto.
  - unfold except_clauses, on_exception. munfold. destruct truthy; cbn; eauto.
  - unfold try_except.
    destruct (process_message_spec record message w) as (w1 & _ & [[-> _]|[a ->]]);
      [eauto|].
    destruct (then_ack_store_log message (default "unknown" (m_account_id message)) a w1)
      as (r & w2 & new & -> & _ & _ & _ & [->|[e ->]]); [eauto|].
    destruct (except_clauses_spec record message e w2) as (r & w3 & n3 & -> & _).
    eauto.
Qed.

Lemma process_records_accounts (records : list (SqsRecord Message)) :
  ∀ (b : Batch) (w : World),
    ∃ b' w',
      process_records records b w = (Ok b', w')
      ∧ successful_messages b' ++ failed_messages b'
        ≡ₚ (successful_messages b ++ failed_messages b) ++ (receiptHandle <$> records).
Proof.
  induction records as [|record records IH]; intros b w.
  - exists b, w. split; [done|]. by rewrite app_nil_r.
  - destruct (process_record_returns record w) as (a & w1 & Hp).
    destruct (IH (batch_add (receiptHandle record) a b) w1) as (b' & w' & Hrest & Hperm).
    exists b', w'. split.
    + change (process_records (record :: records) b w)
        with ((process_record record
               ≫= λ a, process_records records (batch_add (receiptHandle record) a b)) w).
      munfold. by rewrite Hp.
    + rewrite Hperm. rewrite fmap_cons.
      destruct a; unfold batch_add; cbn [successful_messages failed_messages].
      * rewrite <- !app_assoc. apply Permutation_app_head.
        cbn [app]. apply Permutation_middle.
      * rewrite <- !app_assoc. done.
Qed.

(** X4. The handler of the analysis queue never raises and accounts for
    every record of its batch: each receipt handle is in the successful
    list or in the failed list, once, and the answer names the failed
    ones when there are any and reports success otherwise. *)
Theorem analyzer_accounts_for_every_record
    (records : list (SqsRecord Message)) (w : World) :
  ∃ b w',
    bedrock_analyzer.lambda_handler records w = (Ok (b, batch_response b), w')
    ∧ successful_messages b ++ failed_messages b ≡ₚ receiptHandle <$> records
    ∧ (failed_messages b = [] →
       batch_response b = BatchSuccess (length records) 0)
    ∧ (failed_messages b ≠ [] →
       batch_response b = BatchItemFailures (failed_messages b)).
Proof.
  destruct (process_records_accounts records
              {| successful_messages := []; failed_messages := [] |} w)
    as (b & w' & Hp & Hperm).
  exists b, w'. split; [|split; [done|split]].
  - unfold bedrock_analyzer.lambda_handler. munfold. by rewrite Hp.
  - intros Hnone. unfold batch_response. rewrite Hnone.
    rewrite Hnone, app_nil_r in Hperm.
    cbn [successful_messages failed_messages app] in Hperm.
    apply Permutation_length in Hperm. rewrite length_fmap in Hperm.
    cbn [length]. by rewrite Hperm.
  - intros Hsome. unfold batch_response. by destruct (failed_messages b).
Qed.

Lemma store_without_workflow_id (message : Message) (aid : string) (a : pydict)
    (w : World) :
  m_workflow_id message = None →
  store_analysis message aid a w = (Raise (KeyError "workflow_id"), w).
Proof.
  intros Hnone. unfold store_analysis, message_workflow_id. rewrite Hnone.
  munfold. reflexivity.
Qed.

(** X5. What the handler does with a body that is no message of the
    producer. A body that is no JSON, or a JSON value that is no object
    and is falsy, is put back on the queue with the world untouched. A
    JSON value that is no object and is truthy is acknowledged with the
    world untouched: nothing is stored for it. The empty object is put
    back on the queue after its handling, with the results table as
    before. *)
Theorem body_that_is_no_message (record : SqsRecord Message) (w : World) :
  (decoded record = Undecodable ∨ decoded record = NotObject false →
   process_record record w = (Ok Requeued, w))
  ∧ (decoded record = NotObject true → process_record record w = (Ok Acked, w))
  ∧ (∀ message,
        decoded record = Object message →
        message_truthy message = false →
        ∃ w', process_record record w = (Ok Requeued, w')
              ∧ w_results w' = w_results w).
Proof.
  split; [|split].
  - intros [Hd|Hd]; unfold process_record; rewrite Hd;
      unfold except_clauses, on_exception; munfold; reflexivity.
  - intros Hd. unfold process_record. rewrite Hd.
    unfold except_clauses, on_exception. munfold. reflexivity.
  - intros message Hd Hfalsy.
    assert (Hwid : m_workflow_id message = None).
    { unfold message_truthy in Hfalsy.
      destruct (m_workflow_id message); [simpl in Hfalsy; discriminate|done]. }
    unfold process_record. rewrite Hd. unfold try_except.
    destruct (process_message_spec record message w)
      as (w1 & (_ & Hr1 & _) & [[-> _]|[a ->]]); [eauto|].
    rewrite store_without_workflow_id by done. cbn [then_ack].
    unfold except_clauses, on_exception. cbn [decoded_truthy]. rewrite Hfalsy. munfold.
    eexists. split; [reflexivity|]. done.
Qed.

Lemma store_analysis_available (message : Message) (wid aid : string) (a : pydict)
    (w : World) :
  store_available w →
  m_workflow_id message = Some wid →
  store_analysis message aid a w
  = (Ok tt,
     add_log (StoredResult wid aid)
       (set_results (<[(wid, aid) := analysis_row message wid aid a (w_now w)]>
                       (w_results w)) w)).
Proof.
  intros [Ht Hf] Hwid.
  unfold store_analysis, message_workflow_id, store_workflow_result. rewrite Hwid.
  destruct w as [env now res lim q fl qf rp oa mr lg]. simpl in Ht, Hf. subst fl.
  munfold. cbn [w_env w_now w_faults w_results]. rewrite Ht. reflexivity.
Qed.

(** X6. When the rate limiter refuses the call, a record that was
    retried less than twice goes back on the queue and nothing else
    happens; at its second retry the record gets a placeholder instead,
    tagged with the rate limit as its reason, and is acknowledged once
    the placeholder is stored. The model is not called in either case. *)
Theorem rate_limited_record
    (record : SqsRecord Message) (message : Message) (wid : string) (w w1 : World) :
  body record = Some message →
  m_workflow_id message = Some wid →
  get_message_retry_count record < 3 →
  check_bedrock_rate_limit w = (Ok false, w1) →
  (get_message_retry_count record < 2 →
   process_record record w = (Ok Requeued, w1))
  ∧ (get_message_retry_count record = 2 →
     store_available w1 →
     ∃ a w',
       process_record record w = (Ok Acked, w')
       ∧ a !! "failure_reason" = Some (VStr "Rate limit exceeded after maximum retries")
       ∧ a !! "manual_review_required" = Some (VBool true)
       ∧ w_results w' !! (wid, default "unknown" (m_account_id message))
         = Some (analysis_row message wid (default "unknown" (m_account_id message))
                   a (w_now w1))
       ∧ w_log w' = w_log w1
                    ++ [StoredResult wid (default "unknown" (m_account_id message))]).
Proof.
  intros Hbody Hwid Hretry Hdeny.
  assert (Hdec : decoded record = Object message)
    by (unfold body in Hbody; destruct (decoded record); congruence).
  unfold process_record. rewrite Hdec.
  unfold try_except, process_message. munfold_fmap.
  replace (max_retries <=? get_message_retry_count record) with false
    by (symmetry; apply Z.leb_gt; unfold max_retries; lia).
  rewrite Hdeny. cbn [negb]. split.
  - intros Hlt.
    replace (get_message_retry_count record <? max_retries - 1) with true
      by (symmetry; apply Z.ltb_lt; unfold max_retries; lia).
    reflexivity.
  - intros Heq Hav.
    replace (get_message_retry_count record <? max_retries - 1) with false
      by (symmetry; apply Z.ltb_ge; unfold max_retries; lia).
    destruct (placeholder_pure message w1) as (a0 & Ha0 & Hm0).
    unfold tagged_placeholder. munfold. rewrite Ha0.
    rewrite (store_analysis_available message wid _ _ w1 Hav Hwid).
    exists (<["failure_reason" := VStr "Rate limit exceeded after maximum retries"]>
              (<["retry_count" := VInt (get_message_retry_count record)]>
                 (<["bedrock_failure" := VBool true]> a0))).
    eexists. split; [reflexivity|].
    split; [apply lookup_insert_eq|].
    split; [by repeat (rewrite lookup_insert_ne by done)|].
    split; [|by destruct w1].
    destruct w1 as [env1 now1 res1 lim1 q1 fl1 qf1 rp1 oa1 mr1 lg1].
    cbn [w_results set_results add_log]. apply lookup_insert_eq.
Qed.

End analyzer_extras.

Lemma rate_limited_record_witness :
  (get_message_retry_count (example_record "1") < 2 →
   process_record (H := plain_library) (example_record "1") (limiter_world 20 20)
   = (Ok Requeued, limiter_world 20 20))
  ∧ (get_message_retry_count (example_record "1") = 2 →
     store_available (limiter_world 20 20) →
     ∃ a w',
       process_record (H := plain_library) (example_record "1") (limiter_world 20 20)
       = (Ok Acked, w')
       ∧ a !! "failure_reason" = Some (VStr "Rate limit exceeded after maximum retries")
       ∧ a !! "manual_review_required" = Some (VBool true)
       ∧ w_results w' !! ("2026-01-01-00-00-00-1767225600",
                          default "unknown" (m_account_id example_message))
         = Some (analysis_row example_message "2026-01-01-00-00-00-1767225600"
                   (default "unknown" (m_account_id example_message))
                   a (w_now (limiter_world 20 20)))
       ∧ w_log w' = w_log (limiter_world 20 20)
                    ++ [StoredResult "2026-01-01-00-00-00-1767225600"
                          (default "unknown" (m_account_id example_message))]).
Proof.
  apply (rate_limited_record (H := plain_library) (example_record "1") example_message
           "2026-01-01-00-00-00-1767225600" (limiter_world 20 20) (limiter_world 20 20)).
  - reflexivity.
  - reflexivity.
  - vm_compute. reflexivity.
  - reflexivity.
Defined.

(** ** The call of the model *)

Section calling_extras.
Context `{Library}.

Lemma invoked_count_app (l1 l2 : list Effect) :
  invoked_count (l1 ++ l2) = (invoked_count l1 + invoked_count l2)%nat.
Proof. unfold invoked_count. by rewrite filter_app, length_app. Qed.

Lemma slept_total_app (l1 l2 : list Effect) :
  slept_total (l1 ++ l2) = slept_total l1 + slept_total l2.
Proof.
  induction l1 as [|e l1 IH]; [done|].
  destruct e; cbn [app slept_total]; rewrite ?IH; lia.
Qed.

Lemma invoke_model_log (w : World) :
  ∃ r w1, invoke_model w = (r, w1)
          ∧ w_log w1 = w_log w ++ [InvokedModel]
          ∧ w_results w1 = w_results w ∧ w_now w1 = w_now w.
Proof.
  unfold invoke_model.
  destruct w as [env now res lim q fl qf rp oa mr lg]. munfold.
  cbn [w_faults add_log set_faults].
  destruct fl as [|[e|] fl]; cbn [w_replies set_faults];
    destruct rp as [|r rp]; eauto 10.
Qed.

Lemma bedrock_attempt_bounded (mr attempt : Z) (retry : M pydict)
    (calls : nat) (seconds : Z) :
  0 ≤ attempt →
  (∀ w, bounded_run calls seconds retry w) →
  ∀ w, bounded_run (S calls)
         ((if attempt <? mr - 1 then 2 ^ attempt else 0) + seconds)
         (bedrock_attempt mr attempt retry) w.
Proof.
  intros Hpos Hretry w.
  assert (Hpow : 0 ≤ 2 ^ attempt) by (apply Z.pow_nonneg; lia).
  destruct (invoke_model_log w) as (r & w1 & Hinv & Hl1 & Hr1 & Hn1).
  assert (Hstop : ∀ d, bounded_run (S calls)
                         ((if attempt <? mr - 1 then 2 ^ attempt else 0) + seconds)
                         (λ _, (Ok d, w1)) w).
  { intros d. exists d, w1, [InvokedModel]. split; [done|]. split; [done|].
    pose proof (Hretry w) as (_ & _ & n0 & _ & _ & _ & Hs0 & _).
    cbn [slept_total]. split; [unfold invoked_count; simpl; lia|].
    split; [destruct (attempt <? mr - 1); lia|]. split; [lia|done]. }
  assert (Hagain : (attempt <? mr - 1) = true →
            bounded_run (S calls)
              ((if attempt <? mr - 1 then 2 ^ attempt else 0) + seconds)
              (λ _, (sleep (2 ^ attempt);; retry) w1) w).
  { intros Hlt. rewrite Hlt. unfold sleep. munfold.
    destruct (Hretry (add_log (Slept (2 ^ attempt))
                        (set_now (w_now w1 + 2 ^ attempt) w1)))
      as (d & w' & new & Hrun & Hl & Hc & Hs & Hn & Hr).
    exists d, w', ([InvokedModel; Slept (2 ^ attempt)] ++ new).
    split; [exact Hrun|].
    split; [rewrite Hl; unfold add_log, set_now; cbn [w_log];
            rewrite Hl1, <- !app_assoc; done|].
    split; [rewrite invoked_count_app; unfold invoked_count at 1; simpl; lia|].
    rewrite slept_total_app. cbn [slept_total].
    split; [lia|].
    split; [rewrite Hn; unfold add_log, set_now; cbn [w_now]; lia|].
    rewrite Hr. unfold add_log, set_now; cbn [w_results]. done. }
  unfold bounded_run in *. unfold bedrock_attempt. munfold. unfold lift.
  rewrite Hinv.
  destruct r as [content|e].
  - destruct content as [analysis_text|]; [|apply Hstop].
    destruct (parse_bedrock_response analysis_text) as [d|e].
    + destruct (bool_decide (d ≠ ∅)); apply Hstop.
    + destruct e;
        try (destruct (attempt <? mr - 1) eqn:E; [by apply Hagain|];
             rewrite <- E; apply Hstop).
      destruct (String.eqb code "ThrottlingException"); [|apply Hstop].
      destruct (attempt <? mr - 1) eqn:E; [by apply Hagain|].
      rewrite <- E; apply Hstop.
  - destruct e;
      try (destruct (attempt <? mr - 1) eqn:E; [by apply Hagain|];
           rewrite <- E; apply Hstop).
    destruct (String.eqb code "ThrottlingException"); [|apply Hstop].
    destruct (attempt <? mr - 1) eqn:E; [by apply Hagain|].
    rewrite <- E; apply Hstop.
Qed.

Lemma bedrock_attempts_bounded (mr : Z) (attempts : list Z) :
  Forall (λ a, 0 ≤ a) attempts →
  ∀ w, bounded_run (length attempts) (sleep_budget mr attempts)
         (bedrock_attempts mr attempts) w.
Proof.
  induction attempts as [|attempt rest IH]; intros Hpos w.
  - exists (failure_analysis
              "Analysis failed due to repeated Bedrock errors"
              "Unable to complete Bedrock analysis after multiple attempts"
              "Bedrock analysis failed"
              "Bedrock analysis failed after multiple retry attempts"), w, [].
    split; [done|]. rewrite app_nil_r. cbn. repeat split; try done; lia.
  - inversion Hpos as [|? ? Ha Hrest]; subst.
    apply (bedrock_attempt_bounded mr attempt (bedrock_attempts mr rest)
             (length rest) (sleep_budget mr rest) Ha (IH Hrest)).
Qed.

(** X7. The retry wrapper around the model is bounded: it always returns
    an analysis and never raises, it calls the model at most 3 times,
    sleeps at most 1 + 2 seconds in all, which is what the clock
    advances, and leaves the results table alone. *)
Theorem bedrock_retries_are_bounded (w : World) :
  ∃ d w' new,
    call_bedrock_with_retry 3 w = (Ok d, w')
    ∧ w_log w' = w_log w ++ new
    ∧ (invoked_count new ≤ 3)%nat
    ∧ 0 ≤ slept_total new ≤ 3
    ∧ w_now w' = w_now w + slept_total new
    ∧ w_results w' = w_results w.
Proof.
  apply (bedrock_attempts_bounded 3 [0; 1; 2]).
  repeat constructor; lia.
Qed.

End calling_extras.
(** ** The retry count of the analysis queue *)

(** X8. The retry count that the handler of the analysis queue reads is
    the receive count that SQS gives the record, less one, and 0 for a
    record without the attribute: the placeholder of the third retry is
    taken at the fourth delivery. *)
Theorem analyzer_retry_count {B} (record : SqsRecord B) (count : option N) :
  ApproximateReceiveCount record = pretty <$> count →
  bedrock_analyzer.get_message_retry_count record = Z.of_N (default 1%N count) - 1
  ∧ (bedrock_analyzer.max_retries ≤ bedrock_analyzer.get_message_retry_count record
     ↔ (4 ≤ default 1 count)%N).
Proof.
  intros Hc.
  assert (Hr : bedrock_analyzer.get_message_retry_count record
               = Z.of_N (default 1%N count) - 1).
  { unfold bedrock_analyzer.get_message_retry_count. rewrite Hc.
    destruct count as [n|]; cbn [fmap option_fmap option_map default id].
    - by rewrite py_int_pretty.
    - reflexivity. }
  split; [exact Hr|]. rewrite Hr. unfold bedrock_analyzer.max_retries. lia.
Qed.

Lemma analyzer_retry_count_witness :
  bedrock_analyzer.get_message_retry_count (example_record "4")
  = Z.of_N (default 1%N (Some 4%N)) - 1
  ∧ (bedrock_analyzer.max_retries
     ≤ bedrock_analyzer.get_message_retry_count (example_record "4")
     ↔ (4 ≤ default 1 (Some 4))%N).
Proof.
  apply (analyzer_retry_count (example_record "4") (Some 4%N)). reflexivity.
Defined.

(** ** The groups of the coordinator *)

(** X9. [group_results_by_email] groups by address: its keys are
    distinct and not empty, no group is empty, the group of an address
    holds the results mapped to the address, all of them and in their
    order, and every result with a non-empty mapping is in the group of
    its address. A result without mapping, or mapped to the empty
    string, is in no group. *)
Theorem grouping_by_address (all_results : list ResultItem) :
  NoDup (group_results_by_email all_results).*1
  ∧ (∀ email rs,
        (email, rs) ∈ group_results_by_email all_results →
        email ≠ "" ∧ rs ≠ []
        ∧ rs = filter (λ r, email_mapping_of r = Some email) all_results)
  ∧ (∀ r email,
        r ∈ all_results → email_mapping_of r = Some email → email ≠ "" →
        ∃ rs, (email, rs) ∈ group_results_by_email all_results ∧ r ∈ rs).
Proof.
  rewrite group_results_by_email_groups. unfold notification_groups, addresses.
  assert (Hrec : ∀ r email, email ≠ "" →
            (recipient r = Some email ↔ email_mapping_of r = Some email)).
  { intros r email Hne. unfold recipient.
    destruct (email_mapping_of r) as [e|]; [|done].
    destruct (String.eqb e "") eqn:E; [|done].
    apply String.eqb_eq in E as ->.
    split; [done|]. intros [= <-]. done. }
  assert (Haddr : ∀ email, email ∈ omap recipient all_results → email ≠ "").
  { intros email Hin ->. apply list_elem_of_omap in Hin as (r & _ & Hr).
    unfold recipient in Hr. destruct (email_mapping_of r) as [e|]; [|done].
    destruct (String.eqb e "") eqn:E; [done|].
    injection Hr as ->. by rewrite String.eqb_refl in E. }
  split; [|split].
  - rewrite <- list_fmap_compose.
    rewrite (list_fmap_ext _ id (first_occurrences (omap recipient all_results)))
      by done.
    rewrite list_fmap_id. apply first_occurrences_NoDup.
  - intros email rs Hin. apply list_elem_of_fmap in Hin as (e & [= -> ->] & He).
    apply (proj1 (first_occurrences_elem _ _)) in He.
    pose proof (Haddr _ He) as Hne. split; [done|]. split.
    + apply list_elem_of_omap in He as (r & Hr & Hre).
      intros Hnil.
      assert (Hrin : r ∈ filter (λ r, recipient r = Some e) all_results)
        by (by apply list_elem_of_filter).
      rewrite Hnil in Hrin. by apply elem_of_nil in Hrin.
    + apply list_filter_iff. intros r. by apply Hrec.
  - intros r email Hr Hmap Hne.
    assert (Hre : recipient r = Some email) by (by apply Hrec).
    exists (filter (λ r, recipient r = Some email) all_results). split.
    + apply list_elem_of_fmap. exists email. split; [done|].
      apply (proj2 (first_occurrences_elem _ _)). apply list_elem_of_omap. eauto.
    + by apply list_elem_of_filter.
Qed.

(** ** The coordinator when the marker cannot be read *)

Section coordinator_extras.
Context `{Library}.

(** Writing the marker returns, in every world, and leaves the queue. *)
Lemma mark_emails_as_queued_frame (wid : string) (w : World) :
  ∃ b w', mark_emails_as_queued wid w = (Ok b, w')
          ∧ w_queue w' = w_queue w ∧ w_env w' = w_env w.
Proof.
  unfold mark_emails_as_queued, conditional_put.
  destruct w as [env now res lim q fl qf rp oa mr lg]. munfold.
  cbn [w_env w_now w_faults w_results].
  destruct (WORKFLOW_RESULTS_TABLE env) as [name|]; cbn; [|eauto].
  destruct fl as [|[e|] fl]; cbn.
  - destruct (res !! (wid, EMAIL_QUEUED_MARKER)); cbn; eauto.
  - destruct e; cbn; eauto.
    destruct (String.eqb code "ConditionalCheckFailedException"); cbn; eauto.
  - destruct (res !! (wid, EMAIL_QUEUED_MARKER)); cbn; eauto.
Qed.

(** X10. The marker protects the dispatch only while it can be read:
    [check_emails_already_queued] answers [False] when the call to the
    results table raises, and the invocation sends the notification set
    again, whether or not the marker is in the table. *)
Theorem failed_marker_check_dispatches_again
    (wid url : string) (all_results : list ResultItem) (w : World)
    (e : exn) (rest : list (option exn)) :
  w_faults w = Some e :: rest →
  EMAIL_NOTIFICATION_QUEUE_URL (w_env w) = Some url →
  ∃ r w',
    queue_email_notifications wid all_results w = (Ok r, w')
    ∧ q_status r = None
    ∧ w_queue w'
      = w_queue w
        ++ accepted_by (w_queue_faults w)
             (notification_set (w_env w) (w_now w) wid url all_results)
    ∧ total_emails_queued r
      = length (accepted_by (w_queue_faults w)
                  (notification_set (w_env w) (w_now w) wid url all_results)).
Proof.
  intros Hf Hurl.
  assert (Hcheck : ∃ w0, check_emails_already_queued wid w = (Ok false, w0)
                         ∧ w_env w0 = w_env w ∧ w_now w0 = w_now w
                         ∧ w_queue w0 = w_queue w
                         ∧ w_queue_faults w0 = w_queue_faults w).
  { unfold check_emails_already_queued.
    destruct w as [env now res lim q fl qf rp oa mr lg]. cbn in Hf. subst fl.
    munfold. cbn [w_env w_faults].
    destruct (WORKFLOW_RESULTS_TABLE env) as [name|]; cbn; eauto 10. }
  destruct Hcheck as (w0 & Hc & He0 & Hn0 & Hq0 & Hqf0).
  unfold queue_email_notifications. munfold. rewrite Hc, He0, Hurl.
  rewrite <- He0, <- Hn0, <- Hq0, <- Hqf0. clear Hc Hf He0 Hn0 Hq0 Hqf0.
  unfold notification_set. rewrite group_results_by_email_groups.
  destruct (env_flag (TEST_MASTER_EMAIL_ONLY (w_env w0))).
  - destruct (queue_master_report_spec wid url all_results [] w0) as (queued & -> & Hlen).
    match goal with
    | |- context [mark_emails_as_queued wid ?w1] =>
        destruct (mark_emails_as_queued_frame wid w1) as (b & w2 & -> & Hq2 & _)
    end.
    eexists _, _. split; [reflexivity|].
    cbn [app total_emails_queued q_status]. split; [done|].
    split; [rewrite Hq2; by destruct w0|]. by rewrite Hlen.
  - destruct (queue_account_emails_spec wid url (notification_groups all_results) [] w0)
      as (queued0 & -> & Hlen0).
    match goal with
    | |- context [queue_master_report wid url all_results queued0 ?w1] =>
        destruct (queue_master_report_spec wid url all_results queued0 w1)
          as (queued & -> & Hlen)
    end.
    match goal with
    | |- context [mark_emails_as_queued wid ?w1] =>
        destruct (mark_emails_as_queued_frame wid w1) as (b & w2 & -> & Hq2 & _)
    end.
    eexists _, _. split; [reflexivity|].
    cbn [total_emails_queued q_status]. split; [done|].
    rewrite accepted_by_app, length_fmap.
    split; [rewrite Hq2; destruct w0; simpl; by rewrite <- app_assoc|].
    rewrite Hlen, Hlen0, length_app. by destruct w0.
Qed.

End coordinator_extras.

Lemma failed_marker_check_dispatches_again_witness :
  ∃ r w',
    queue_email_notifications (H := plain_library) "wf"
      [account_row "wf" "111111111111"] unreadable_marker_world = (Ok r, w')
    ∧ q_status r = None
    ∧ w_queue w'
      = w_queue unreadable_marker_world
        ++ accepted_by (w_queue_faults unreadable_marker_world)
             (notification_set (H := plain_library) (w_env unreadable_marker_world)
                (w_now unreadable_marker_world) "wf" "https://sqs.example/email.fifo"
                [account_row "wf" "111111111111"])
    ∧ total_emails_queued r
      = length (accepted_by (w_queue_faults unreadable_marker_world)
                  (notification_set (H := plain_library) (w_env unreadable_marker_world)
                     (w_now unreadable_marker_world) "wf"
                     "https://sqs.example/email.fifo"
                     [account_row "wf" "111111111111"])).
Proof.
  apply (failed_marker_check_dispatches_again (H := plain_library) "wf"
           "https://sqs.example/email.fifo" [account_row "wf" "111111111111"]
           unreadable_marker_world (ClientError "InternalServerError") []).
  - reflexivity.
  - reflexivity.
Defined.

(** ** The batch of the consumer of the notification queue *)

Lemma sender_process_record_returns (record : SqsRecord email_sender.EmailMessage)
    (w : World) :
  ∃ a w', email_sender.process_record record w = (Ok a, w').
Proof.
  assert (Hexc : ∀ w0, ∃ a, email_sender.on_exception record w0 = (Ok a, w0)).
  { intros w0. unfold email_sender.on_exception. munfold.
    destruct (_ <=? _); eauto. }
  unfold email_sender.process_record.
  destruct (decoded record) as [|truthy|message];
    [destruct (Hexc w) as (a & ->); eauto..|].
  unfold try_except, email_sender.process_message, email_sender.required. munfold.
  destruct (email_sender.email_type message) as [ty|];
    [|destruct (Hexc w) as (a & ->); eauto].
  destruct (_ <=? _); [eauto|].
  destruct (send_by_type_returns ty message w) as (b & w1 & ->).
  destruct b; [eauto|]. destruct (_ <? _); eauto.
Qed.

Lemma sender_process_records_accounts
    (records : list (SqsRecord email_sender.EmailMessage)) :
  ∀ (b : Batch) (w : World),
    ∃ b' w',
      email_sender.process_records records b w = (Ok b', w')
      ∧ successful_messages b' ++ failed_messages b'
        ≡ₚ (successful_messages b ++ failed_messages b) ++ (receiptHandle <$> records).
Proof.
  induction records as [|record records IH]; intros b w.
  - exists b, w. split; [done|]. by rewrite app_nil_r.
  - destruct (sender_process_record_returns record w) as (a & w1 & Hp).
    destruct (IH (batch_add (receiptHandle record) a b) w1) as (b' & w' & Hrest & Hperm).
    exists b', w'. split.
    + change (email_sender.process_records (record :: records) b w)
        with ((email_sender.process_record record
               ≫= λ a, email_sender.process_records records
                         (batch_add (receiptHandle record) a b)) w).
      munfold. by rewrite Hp.
    + rewrite Hperm. rewrite fmap_cons.
      destruct a; unfold batch_add; cbn [successful_messages failed_messages].
      * rewrite <- !app_assoc. apply Permutation_app_head.
        cbn [app]. apply Permutation_middle.
      * rewrite <- !app_assoc. done.
Qed.

(** X11. The consumer of the notification queue never raises and
    accounts for every record of its batch: each receipt handle is in
    the successful list or in the failed list, once; the answer names
    the failed ones when there are any and reports success otherwise. *)
Theorem sender_accounts_for_every_record
    (records : list (SqsRecord email_sender.EmailMessage)) (w : World) :
  ∃ b w',
    email_sender.lambda_handler records w = (Ok (b, batch_response b), w')
    ∧ successful_messages b ++ failed_messages b ≡ₚ receiptHandle <$> records
    ∧ (failed_messages b = [] →
       batch_response b = BatchSuccess (length records) 0)
    ∧ (failed_messages b ≠ [] →
       batch_response b = BatchItemFailures (failed_messages b)).
Proof.
  destruct (sender_process_records_accounts records
              {| successful_messages := []; failed_messages := [] |} w)
    as (b & w' & Hp & Hperm).
  exists b, w'. split; [|split; [done|split]].
  - unfold email_sender.lambda_handler. munfold. by rewrite Hp.
  - intros Hnone. unfold batch_response. rewrite Hnone.
    rewrite Hnone, app_nil_r in Hperm.
    cbn [successful_messages failed_messages app] in Hperm.
    apply Permutation_length in Hperm. rewrite length_fmap in Hperm.
    cbn [length]. by rewrite Hperm.
  - intros Hsome. unfold batch_response. by destruct (failed_messages b).
Qed.

(** ** The analysis queue on a store that answers *)

Section available_store.
Context `{Library}.

(** X12. When the results table is configured and every service call
    goes through, the handler of the analysis queue is
    acknowledge-only-after-persist on the messages of the producer: a
    record whose message names its workflow is acknowledged with its
    row written, by a store that did not fail, or it is put back on the
    queue by the rate limiter, before its second retry and with the
    results table as it was. *)
Theorem available_store_persists_before_ack
    (record : SqsRecord Message) (message : Message) (wid : string) (w : World) :
  store_available w →
  decoded record = Object message →
  m_workflow_id message = Some wid →
  ∃ a w' new,
    process_record record w = (Ok a, w')
    ∧ w_log w' = w_log w ++ new
    ∧ (StoreFailed ∉ new)
    ∧ (a = Acked →
       StoredResult wid (default "unknown" (m_account_id message)) ∈ new
       ∧ is_Some (w_results w' !! (wid, default "unknown" (m_account_id message))))
    ∧ (a = Requeued →
       w_results w' = w_results w
       ∧ bedrock_analyzer.get_message_retry_count record
         < bedrock_analyzer.max_retries - 1).
Proof.
  intros [Ht Hf] Hdec Hwid. unfold process_record. rewrite Hdec. unfold try_except.
  destruct (process_message_spec record message w)
    as (w1 & (He1 & Hr1 & Hk1 & n1 & Hl1 & Hf1) & [[-> Hretry]|[a ->]]).
  - exists Requeued, w1, n1. split; [done|]. split; [done|].
    split; [|split; [done|by intros _]].
    intros Hin. rewrite Forall_forall in Hf1.
    destruct (Hf1 _ Hin) as [?|[? ?]]; discriminate.
  - assert (Hav1 : store_available w1) by (split; [by rewrite He1|auto]).
    destruct (store_analysis_spec message (default "unknown" (m_account_id message)) a w1)
      as [(w2 & wid' & -> & Hwid' & _ & Hr & Hl2)
         |[(w2 & e & wid' & _ & _ & _ & _ & _ & Hna)|(Hnone & _)]];
      [|done|congruence].
    cbv beta iota delta [then_ack].
    exists Acked, w2, (n1 ++ [StoredResult wid' (default "unknown" (m_account_id message))]).
    assert (wid' = wid) as -> by congruence.
    split; [done|]. split; [by rewrite Hl2, Hl1, app_assoc|].
    split; [|split; [|done]].
    + intros Hin. apply elem_of_app in Hin as [Hin|Hin].
      * rewrite Forall_forall in Hf1. destruct (Hf1 _ Hin) as [?|[? ?]]; discriminate.
      * apply list_elem_of_singleton in Hin. discriminate.
    + intros _. split; [apply elem_of_app; right; in_list|].
      rewrite Hr, lookup_insert_eq. eauto.
Qed.

End available_store.

Lemma available_store_persists_before_ack_witness :
  ∃ a w' new,
    process_record (H := plain_library) (example_record "1") fresh_world = (Ok a, w')
    ∧ w_log w' = w_log fresh_world ++ new
    ∧ (StoreFailed ∉ new)
    ∧ (a = Acked →
       StoredResult "2026-01-01-00-00-00-1767225600"
         (default "unknown" (m_account_id example_message)) ∈ new
       ∧ is_Some (w_results w' !! ("2026-01-01-00-00-00-1767225600",
                                   default "unknown" (m_account_id example_message))))
    ∧ (a = Requeued →
       w_results w' = w_results fresh_world
       ∧ bedrock_analyzer.get_message_retry_count (example_record "1")
         < bedrock_analyzer.max_retries - 1).
Proof.
  apply (available_store_persists_before_ack (H := plain_library)
           (example_record "1") example_message
           "2026-01-01-00-00-00-1767225600" fresh_world).
  - split; reflexivity.
  - reflexivity.
  - reflexivity.
Defined.
